(** * Shuai-KV: a shallow embedding of the LSM engine and the Raft core

    The development follows the C++ sources:
    - [utils/ring_buffer_queue.hpp], [raft/raft_log.hpp], [raft/pod.hpp]
    - [utils/global_random.cpp], [utils/bloom_filter.hpp]
    - [lsm/block_cache.hpp], [lsm/skiplist.hpp], [lsm/memtable.hpp]
    - [lsm/sst.hpp], [lsm/manifest.hpp], [db.hpp]

    Unsigned 64-bit quantities ([size_t], [uint64_t]) are integers of [Z]
    with the wrap-around written out ([wrap64]); strings are [string];
    vectors are lists; pointers are indices into an explicit store.
    Part I holds the definitions, Part II the theorems. *)

From Stdlib Require Import ZArith QArith List Lia Bool String Ascii.
From stdpp Require Import base option list gmap strings.
Import ListNotations.

(* ===================================================================== *)
(** * Part I: definitions                                                 *)
(* ===================================================================== *)

(** ** Machine integers *)

Module Word.
Local Open Scope Z_scope.

Definition size_max : Z := 2 ^ 64.

(** Arithmetic on [size_t] is arithmetic modulo [2^64]. *)
Definition wrap64 (x : Z) : Z := x mod size_max.

Definition is_size_t (x : Z) : Prop := 0 <= x < size_max.

End Word.

(** ** utils/ring_buffer_queue.hpp *)

Module RingBufferQueue.
Import Word.
Local Open Scope Z_scope.

(** [ring_buffer_size_ = (1 << 10) << 8] and its mask. *)
Definition ring_buffer_size_ : Z := Z.shiftl (Z.shiftl 1 10) 8.
Definition ring_buffer_size_musk_ : Z := ring_buffer_size_ - 1.

Section Queue.
Context {T : Type}.

(** [data_] is a [std::array<T, ring_buffer_size_>]: the slots that were
    assigned are kept in a finite map, every other slot still holds the
    value-initialised element.  [head_] and [tail_] are [size_t]. *)
Record t : Type := mk {
  data_ : gmap Z T;
  head_ : Z;
  tail_ : Z
}.

Definition empty : t := {| data_ := ∅; head_ := 0; tail_ := 0 |}.

(** The outcome of a call that indexes [data_]: an index outside
    [0, ring_buffer_size_) is undefined behaviour in the source. *)
Inductive outcome (A : Type) : Type :=
| Done (a : A)
| OutOfBounds.

(** [PushBack]: refuses when [((head_ + 1) & musk) == tail_], otherwise
    assigns [data_[++head_]]. *)
Definition PushBack (q : t) (rhs : T) : outcome (bool * t) :=
  if Z.land (wrap64 (head_ q + 1)) ring_buffer_size_musk_ =? tail_ q then
    Done _ (false, q)
  else
    let h := wrap64 (head_ q + 1) in
    if h <? ring_buffer_size_ then
      Done _ (true, {| data_ := <[h := rhs]> (data_ q); head_ := h; tail_ := tail_ q |})
    else OutOfBounds _.

Definition Empty (q : t) : bool := head_ q =? tail_ q.

Definition PopFront (q : t) : bool * t :=
  if tail_ q =? head_ q then (false, q)
  else (true, {| data_ := data_ q; head_ := head_ q; tail_ := wrap64 (tail_ q + 1) |}).

Definition PopBack (q : t) : bool * t :=
  if tail_ q =? head_ q then (false, q)
  else (true, {| data_ := data_ q; head_ := wrap64 (head_ q - 1); tail_ := tail_ q |}).

(** [Truncate(count)]: drops [min(count, head_ - tail_)] elements from the
    back and returns how many were dropped. *)
Definition Truncate (q : t) (count : Z) : Z * t :=
  if tail_ q =? head_ q then (0, q)
  else
    let max_count := wrap64 (head_ q - tail_ q) in
    let count := Z.min count max_count in
    (count, {| data_ := data_ q; head_ := wrap64 (head_ q - count); tail_ := tail_ q |}).

Definition Size (q : t) : Z := wrap64 (head_ q - tail_ q).

(** [At(index)] reads [data_[tail_ + index + 1]]; [RAt(index)] reads
    [data_[head_ - index]].  [None] is an unassigned or out-of-range slot. *)
Definition At (q : t) (index : Z) : option T :=
  data_ q !! wrap64 (tail_ q + index + 1).

Definition RAt (q : t) (index : Z) : option T :=
  data_ q !! wrap64 (head_ q - index).

(** [Front()] reads [data_[tail_ + 1]] and [Back()] reads
    [data_[head_ + 1]]. *)
Definition Front (q : t) : option T := data_ q !! wrap64 (tail_ q + 1).

Definition Back (q : t) : option T := data_ q !! wrap64 (head_ q + 1).

(** A run of [PushBack]s, stopping at the first that is refused or goes
    past the array. *)
Fixpoint push_all (q : t) (xs : list T) : outcome (bool * t) :=
  match xs with
  | [] => Done _ (true, q)
  | x :: xs =>
      match PushBack q x with
      | Done _ (true, q) => push_all q xs
      | r => r
      end
  end.

(** [n] calls of [PopBack]. *)
Fixpoint pop_back_n (n : nat) (q : t) : t :=
  match n with
  | O => q
  | S n => pop_back_n n (snd (PopBack q))
  end.

End Queue.

Arguments t : clear implicits.
Arguments Done {A} a.
Arguments OutOfBounds {A}.

End RingBufferQueue.

(** ** raft/raft_log.hpp *)

Module RaftLog.
Import Word.
Local Open Scope Z_scope.

(** Modelled from the spec: the protobuf message [Entry] of [raft.proto],
    which is not among the sources.  The fields are those the sources set
    and read ([set_index], [set_key], [set_value], [set_mode], [set_term],
    [set_commited]); a fresh message has every numeric field zero and every
    string empty. *)
Record Entry : Type := mkEntry {
  e_term : Z;
  e_index : Z;
  e_key : string;
  e_value : string;
  e_mode : Z;
  e_commited : Z
}.

(** The members of [class RaftLog] (the mutex, the thread handle and the
    [DB] pointer are left out; [last_append_] is the applied index). *)
Record t : Type := mk {
  stop_ : bool;
  index_ : Z;
  queue_ : RingBufferQueue.t Entry;
  commited_ : Z;
  last_append_ : Z;
  start_index_ : Z
}.

(** Constructor without a [raft_log_meta] file, and [Load]. *)
Definition fresh : t :=
  {| stop_ := false; index_ := 0; queue_ := RingBufferQueue.empty;
     commited_ := 0; last_append_ := 0; start_index_ := 0 |}.

Definition Load (v : Z) : t :=
  {| stop_ := false; index_ := v; queue_ := RingBufferQueue.empty;
     commited_ := v; last_append_ := v; start_index_ := v |}.

Definition index (l : t) : Z := index_ l.
Definition commited (l : t) : Z := commited_ l.

(** The tail shared by both [Put] overloads once [PushBack] has answered. *)
Definition after_push (l : t) (entry : Entry)
    (r : RingBufferQueue.outcome (bool * RingBufferQueue.t Entry))
    : RingBufferQueue.outcome (bool * t) :=
  match r with
  | RingBufferQueue.OutOfBounds => RingBufferQueue.OutOfBounds
  | RingBufferQueue.Done (true, q') =>
      let index' := wrap64 (index_ l + 1) in
      let commited' :=
        if commited_ l <? e_commited entry then e_commited entry else commited_ l in
      RingBufferQueue.Done
        (true, {| stop_ := stop_ l; index_ := index'; queue_ := q';
                  commited_ := commited'; last_append_ := last_append_ l;
                  start_index_ := start_index_ l |})
  | RingBufferQueue.Done (false, _) => RingBufferQueue.Done (false, l)
  end.

(** [bool Put(key, value, term, size_t& idx)]: the result is [Some idx] for
    [true] with the out-parameter, [None] for [false]. *)
Definition Put (l : t) (key value : string) (term : Z)
    : RingBufferQueue.outcome (option Z * t) :=
  if stop_ l then RingBufferQueue.Done (None, l)
  else
    let entry := {| e_term := term; e_index := wrap64 (index_ l + 1);
                    e_key := key; e_value := value; e_mode := 0;
                    e_commited := 0 |} in
    match after_push l entry (RingBufferQueue.PushBack (queue_ l) entry) with
    | RingBufferQueue.OutOfBounds => RingBufferQueue.OutOfBounds
    | RingBufferQueue.Done (true, l') => RingBufferQueue.Done (Some (index_ l'), l')
    | RingBufferQueue.Done (false, l') => RingBufferQueue.Done (None, l')
    end.

(** [bool Put(Entry& entry)]: the entry comes from the leader with its own
    index and committed value. *)
Definition PutEntry (l : t) (entry : Entry) : RingBufferQueue.outcome (bool * t) :=
  if stop_ l then RingBufferQueue.Done (false, l)
  else after_push l entry (RingBufferQueue.PushBack (queue_ l) entry).

(** [Reset(expect_index)]. *)
Definition Reset (l : t) (expect_index : Z) : t :=
  if expect_index <? index_ l then
    let count := wrap64 (index_ l - expect_index) in
    let '(removed, q') := RingBufferQueue.Truncate (queue_ l) count in
    {| stop_ := stop_ l; index_ := wrap64 (index_ l - removed); queue_ := q';
       commited_ := commited_ l; last_append_ := last_append_ l;
       start_index_ := start_index_ l |}
  else l.

(** [UpdateCommit(leader_commit)]. *)
Definition UpdateCommit (l : t) (leader_commit : Z) : t :=
  {| stop_ := stop_ l; index_ := index_ l; queue_ := queue_ l;
     commited_ := Z.max (commited_ l) (Z.min (index_ l) leader_commit);
     last_append_ := last_append_ l; start_index_ := start_index_ l |}.

(** One turn of the applier thread's loop body: when [last_append_ <
    commited_] it advances [last_append_] and hands the entry at
    [last_append_ - start_index_ - 1] to [DB::Put]; the second component is
    the slot it read. *)
Definition applier_step (l : t) : t * option (option Entry) :=
  if last_append_ l <? commited_ l then
    let la := wrap64 (last_append_ l + 1) in
    ({| stop_ := stop_ l; index_ := index_ l; queue_ := queue_ l;
        commited_ := commited_ l; last_append_ := la;
        start_index_ := start_index_ l |},
     Some (RingBufferQueue.At (queue_ l) (wrap64 (la - start_index_ l - 1))))
  else (l, None).

(** [Entry& At(size_t index)]: [queue_.RAt(index_ - index)]. *)
Definition At (l : t) (index : Z) : option Entry :=
  RingBufferQueue.RAt (queue_ l) (wrap64 (index_ l - index)).

(** [void PopFront()]. *)
Definition PopFront (l : t) : t :=
  {| stop_ := stop_ l; index_ := index_ l;
     queue_ := snd (RingBufferQueue.PopFront (queue_ l));
     commited_ := commited_ l; last_append_ := last_append_ l;
     start_index_ := start_index_ l |}.

(** What every log built by the constructor and the calls of [op] has:
    no slot of the ring was ever released, the head is inside the array,
    and [index_] is [start_index_] plus the number of stored entries. *)
Definition never_released (l : t) : Prop :=
  RingBufferQueue.tail_ (queue_ l) = 0
  /\ 0 <= RingBufferQueue.head_ (queue_ l) < RingBufferQueue.ring_buffer_size_
  /\ is_size_t (start_index_ l)
  /\ index_ l = wrap64 (start_index_ l + RingBufferQueue.head_ (queue_ l)).

(** The guard of [PushBack]: the ring is full. *)
Definition full (q : RingBufferQueue.t Entry) : bool :=
  Z.land (wrap64 (RingBufferQueue.head_ q + 1)) RingBufferQueue.ring_buffer_size_musk_
  =? RingBufferQueue.tail_ q.

(** The entry [Put] builds for a key, a value and a term. *)
Definition local_entry (l : t) (key value : string) (term : Z) : Entry :=
  {| e_term := term; e_index := index_ l + 1; e_key := key; e_value := value;
     e_mode := 0; e_commited := 0 |}.

(** The ordering the log is meant to keep. *)
Definition ordered (l : t) : Prop :=
  start_index_ l <= last_append_ l /\ last_append_ l <= commited_ l
  /\ commited_ l <= index_ l.

(** The slot of [data_] the applier reads in a turn that applies: after
    the increment, [queue_.At(last_append_ - start_index_ - 1)] is
    [data_[tail_ + (last_append_ - start_index_ - 1) + 1]]. *)
Definition applier_slot (l : t) : Z :=
  wrap64 (RingBufferQueue.tail_ (queue_ l)
          + wrap64 (wrap64 (last_append_ l + 1) - start_index_ l - 1) + 1).

(** The calls a log receives. *)
Inductive op : Type :=
| OpPut (key value : string) (term : Z)
| OpPutEntry (entry : Entry)
| OpReset (expect_index : Z)
| OpUpdateCommit (leader_commit : Z)
| OpApply.

(** One call.  [Put] and [Put(Entry&)] go out of bounds when [PushBack]
    does; the applier's read [queue_.At(...)] is unchecked, so a turn that
    applies is out of bounds when its slot is past the array. *)
Definition run (l : t) (o : op) : RingBufferQueue.outcome t :=
  match o with
  | OpPut k v tm =>
      match Put l k v tm with
      | RingBufferQueue.Done (_, l') => RingBufferQueue.Done l'
      | RingBufferQueue.OutOfBounds => RingBufferQueue.OutOfBounds
      end
  | OpPutEntry e =>
      match PutEntry l e with
      | RingBufferQueue.Done (_, l') => RingBufferQueue.Done l'
      | RingBufferQueue.OutOfBounds => RingBufferQueue.OutOfBounds
      end
  | OpReset i => RingBufferQueue.Done (Reset l i)
  | OpUpdateCommit c => RingBufferQueue.Done (UpdateCommit l c)
  | OpApply =>
      if (last_append_ l <? commited_ l)
         && (RingBufferQueue.ring_buffer_size_ <=? applier_slot l)
      then RingBufferQueue.OutOfBounds
      else RingBufferQueue.Done (fst (applier_step l))
  end.

(** [n] turns of the applier, one after the other. *)
Fixpoint turns (n : nat) (l : t) : RingBufferQueue.outcome t :=
  match n with
  | O => RingBufferQueue.Done l
  | S n =>
      match run l OpApply with
      | RingBufferQueue.Done l' => turns n l'
      | RingBufferQueue.OutOfBounds => RingBufferQueue.OutOfBounds
      end
  end.

(** States reachable from a freshly constructed log. *)
Inductive reachable : t -> Prop :=
| reach_fresh : reachable fresh
| reach_load v : is_size_t v -> reachable (Load v)
| reach_step l o l' :
    reachable l -> run l o = RingBufferQueue.Done l' -> reachable l'.

(** A log holding three entries, nothing committed. *)
Definition three_entries : t :=
  {| stop_ := false; index_ := 3;
     queue_ :=
       {| RingBufferQueue.data_ :=
            <[3 := mkEntry 1 3 "c" "3" 0 0]>
              (<[2 := mkEntry 1 2 "b" "2" 0 0]>
                 (<[1 := mkEntry 1 1 "a" "1" 0 0]> ∅));
          RingBufferQueue.head_ := 3; RingBufferQueue.tail_ := 0 |};
     commited_ := 0; last_append_ := 0; start_index_ := 0 |}.

(** A log whose ring is full: the head sits on the last slot. *)
Definition full_ring : t :=
  {| stop_ := false; index_ := RingBufferQueue.ring_buffer_size_ - 1;
     queue_ :=
       {| RingBufferQueue.data_ := ∅;
          RingBufferQueue.head_ := RingBufferQueue.ring_buffer_size_ - 1;
          RingBufferQueue.tail_ := 0 |};
     commited_ := 0; last_append_ := 0; start_index_ := 0 |}.

End RaftLog.

(** ** raft/pod.hpp *)

Module Pod.
Import Word.
Local Open Scope Z_scope.

Inductive PodStatus : Type := Candidate | Leader | Follower.

Definition PodStatus_eqb (a b : PodStatus) : bool :=
  match a, b with
  | Candidate, Candidate | Leader, Leader | Follower, Follower => true
  | _, _ => false
  end.

(** Modelled from the spec: the protobuf messages [RequestVoteReq] and
    [AppendReq] of [raft.proto], which is not among the sources; the fields
    are those [pod.hpp] reads ([term], [id], [index], [commited_index],
    [entrys]). *)
Record RequestVoteReq : Type := mkVoteReq {
  rv_id : Z;
  rv_term : Z;
  rv_index : Z
}.

Record AppendReq : Type := mkAppendReq {
  a_term : Z;
  a_id : Z;
  a_commited_index : Z;
  a_entrys : list RaftLog.Entry
}.

(** [static_cast<size_t>] and [static_cast<int32_t>] of a signed value. *)
Definition to_size_t (x : Z) : Z := wrap64 x.
Definition to_int32 (x : Z) : Z := (x + 2 ^ 31) mod 2 ^ 32 - 2 ^ 31.

(** The members of [class Pod] that the handlers read and write.
    [replicating_] stands for the per-peer replicator threads of
    [followers_], which [Follower::Stop] halts; [voted_] is the [int32_t]
    flag, used as a boolean. *)
Record t : Type := mk {
  term_ : Z;
  voted_ : bool;
  status_ : PodStatus;
  leader_id_ : Z;
  last_time_ : Z;
  replicating_ : bool;
  raft_log_ : RaftLog.t
}.

(** The node as the constructor leaves it. *)
Definition init (leader_id : Z) (now : Z) (log : RaftLog.t) : t :=
  {| term_ := 0; voted_ := false; status_ := Follower; leader_id_ := leader_id;
     last_time_ := now; replicating_ := false; raft_log_ := log |}.

Definition set_last_time (p : t) (now : Z) : t :=
  {| term_ := term_ p; voted_ := voted_ p; status_ := status_ p;
     leader_id_ := leader_id_ p; last_time_ := now;
     replicating_ := replicating_ p; raft_log_ := raft_log_ p |}.

Definition set_raft_log (p : t) (log : RaftLog.t) : t :=
  {| term_ := term_ p; voted_ := voted_ p; status_ := status_ p;
     leader_id_ := leader_id_ p; last_time_ := last_time_ p;
     replicating_ := replicating_ p; raft_log_ := log |}.

(** [bool Vote(const RequestVoteReq& req)]; [now] is the clock reading. *)
Definition Vote (p : t) (req : RequestVoteReq) (now : Z) : bool * t :=
  let p := set_last_time p now in
  let current_log_index := RaftLog.index (raft_log_ p) in
  if rv_term req <? term_ p then (false, p)
  else if (rv_term req =? term_ p) && (to_size_t (rv_index req) <? current_log_index)
  then (false, p)
  else if (rv_term req =? term_ p) && voted_ p then (false, p)
  else
    let p :=
      if term_ p <? rv_term req then
        {| term_ := rv_term req; voted_ := voted_ p; status_ := Follower;
           leader_id_ := leader_id_ p; last_time_ := last_time_ p;
           replicating_ :=
             if PodStatus_eqb (status_ p) Leader then false else replicating_ p;
           raft_log_ := raft_log_ p |}
      else p in
    (true,
     {| term_ := term_ p; voted_ := true; status_ := status_ p;
        leader_id_ := leader_id_ p; last_time_ := last_time_ p;
        replicating_ := replicating_ p; raft_log_ := raft_log_ p |}).

(** [int32_t UpdateRaftLog(entries, leader_commit)] on the node's log; the
    result of [raft_log_.Put(entry)] is dropped as in the source. *)
Definition put_and_ok (log : RaftLog.t) (entry : RaftLog.Entry)
    : RingBufferQueue.outcome (Z * RaftLog.t) :=
  match RaftLog.PutEntry log entry with
  | RingBufferQueue.Done (_, log') => RingBufferQueue.Done (0, log')
  | RingBufferQueue.OutOfBounds => RingBufferQueue.OutOfBounds
  end.

Definition UpdateRaftLog (log : RaftLog.t) (entries : list RaftLog.Entry)
    (leader_commit : Z) : RingBufferQueue.outcome (Z * RaftLog.t) :=
  match entries with
  | [entry] =>
      if negb (to_size_t (RaftLog.e_index entry) =? wrap64 (RaftLog.index log + 1)) then
        let log :=
          if (leader_commit <? RaftLog.index log)
             && (RaftLog.commited log <? leader_commit)
          then RaftLog.Reset log (RaftLog.commited log)
          else log in
        if negb (to_size_t (RaftLog.e_index entry) =? wrap64 (RaftLog.index log + 1))
        then RingBufferQueue.Done (-2, log)
        else put_and_ok log entry
      else put_and_ok log entry
  | _ => RingBufferQueue.Done (-3, log)
  end.



(** [int32_t SolveAppend(const AppendReq& req)]. *)
Definition SolveAppend (p : t) (req : AppendReq) (now : Z)
    : RingBufferQueue.outcome (Z * t) :=
  let p := set_last_time p now in
  let newer :=
    (term_ p <? a_term req)
    || ((a_term req =? term_ p)
        && match a_entrys req with
           | [] => false
           | e :: _ => to_int32 (RaftLog.index (raft_log_ p)) <? to_int32 (RaftLog.e_index e)
           end) in
  let p :=
    if newer then
      {| term_ := a_term req; voted_ := false; status_ := Follower;
         leader_id_ := a_id req; last_time_ := last_time_ p;
         replicating_ :=
           if PodStatus_eqb (status_ p) Leader then false else replicating_ p;
         raft_log_ := raft_log_ p |}
    else p in
  let p := set_raft_log p (RaftLog.UpdateCommit (raft_log_ p) (a_commited_index req)) in
  match a_entrys req with
  | [] => RingBufferQueue.Done (0, p)
  | _ =>
      match UpdateRaftLog (raft_log_ p) (a_entrys req) (a_commited_index req) with
      | RingBufferQueue.Done (code, log') => RingBufferQueue.Done (code, set_raft_log p log')
      | RingBufferQueue.OutOfBounds => RingBufferQueue.OutOfBounds
      end
  end.

End Pod.

(** ** lsm/block_cache.hpp *)

Module BlockCache.
Import Word.
Local Open Scope Z_scope.

(** [struct CacheBlock]; [data_] is the [std::vector<char>]. *)
Record CacheBlock : Type := mkBlock {
  data_ : list Byte.byte;
  sst_id_ : Z;
  block_offset_ : Z;
  access_time_ : Z;
  hit_count_ : Z
}.

Definition size (b : CacheBlock) : Z := Z.of_nat (length (data_ b)).

(** [struct Stats] (its own [access_counter] field is never written). *)
Record Stats : Type := mkStats {
  total_access : Z;
  hit_count : Z;
  miss_count : Z;
  rejected_count : Z;
  evicted_count : Z;
  current_size : Z;
  current_count : Z
}.

Definition no_stats : Stats := mkStats 0 0 0 0 0 0 0.

Section Cache.

(** The type [double] and the one floating-point test of the file,
    [static_cast<double>(size) / min_block_size < min_utilization], are
    parameters: [utilization_below size min_block_size min_utilization]. *)
Context {double : Type}.
Variable utilization_below : Z -> Z -> double -> bool.

(** [struct Config]. *)
Record Config : Type := mkConfig {
  max_capacity : Z;
  min_block_size : Z;
  max_block_size : Z;
  max_block_count : Z;
  min_utilization : double
}.

(** The cache.  A [std::shared_ptr<CacheBlock>] is an address into the
    store [blocks_]; the hash map and the LRU list hold addresses, so a
    block reached through either is the same object.  The front of
    [lru_list_] is the most recently used block. *)
Record t : Type := mk {
  config_ : Config;
  blocks_ : gmap nat CacheBlock;
  next_ : nat;
  cache_map_ : gmap Z nat;
  lru_list_ : list nat;
  stats_ : Stats;
  access_counter_ : Z
}.

Definition create (config : Config) : t :=
  {| config_ := config; blocks_ := ∅; next_ := 0%nat; cache_map_ := ∅;
     lru_list_ := []; stats_ := no_stats; access_counter_ := 0 |}.

Definition CurrentSize (c : t) : Z := current_size (stats_ c).
Definition CurrentCount (c : t) : Z := current_count (stats_ c).

(** [MakeKey]: [(sst_id << 32) | block_offset] on 64 bits. *)
Definition MakeKey (sst_id block_offset : Z) : Z :=
  Z.lor (wrap64 (Z.shiftl sst_id 32)) block_offset.

Definition with_stats (c : t) (s : Stats) : t :=
  {| config_ := config_ c; blocks_ := blocks_ c; next_ := next_ c;
     cache_map_ := cache_map_ c; lru_list_ := lru_list_ c; stats_ := s;
     access_counter_ := access_counter_ c |}.

Definition with_lru (c : t) (l : list nat) : t :=
  {| config_ := config_ c; blocks_ := blocks_ c; next_ := next_ c;
     cache_map_ := cache_map_ c; lru_list_ := l; stats_ := stats_ c;
     access_counter_ := access_counter_ c |}.

(** [std::list::remove]: drops every element equal to the pointer. *)
Definition list_remove (p : nat) (l : list nat) : list nat :=
  filter (fun q => q ≠ p) l.

(** [MoveToFront]. *)
Definition MoveToFront (c : t) (p : nat) : t :=
  with_lru c (p :: list_remove p (lru_list_ c)).

(** [RemoveBlock]: unlink the block and take it out of the accounting. *)
Definition RemoveBlock (c : t) (p : nat) (b : CacheBlock) : t :=
  let s := stats_ c in
  with_stats (with_lru c (list_remove p (lru_list_ c)))
    {| total_access := total_access s; hit_count := hit_count s;
       miss_count := miss_count s; rejected_count := rejected_count s;
       evicted_count := evicted_count s;
       current_size := wrap64 (current_size s - size b);
       current_count := wrap64 (current_count s - 1) |}.

Definition count_eviction (c : t) : t :=
  let s := stats_ c in
  with_stats c
    {| total_access := total_access s; hit_count := hit_count s;
       miss_count := miss_count s; rejected_count := rejected_count s;
       evicted_count := wrap64 (evicted_count s + 1);
       current_size := current_size s; current_count := current_count s |}.

Definition count_rejection (c : t) : t :=
  let s := stats_ c in
  with_stats c
    {| total_access := total_access s; hit_count := hit_count s;
       miss_count := miss_count s; rejected_count := wrap64 (rejected_count s + 1);
       evicted_count := evicted_count s;
       current_size := current_size s; current_count := current_count s |}.

(** The loop condition of [EvictIfNeeded]. *)
Definition over_limit (c : t) (new_block_size : Z) : bool :=
  (max_capacity (config_ c) <? wrap64 (current_size (stats_ c) + new_block_size))
  || ((0 <? max_block_count (config_ c))
      && (max_block_count (config_ c) <=? current_count (stats_ c))).

(** One turn of the loop body: the block at the back of the list goes. *)
Definition evict_back (c : t) : t :=
  match last (lru_list_ c) with
  | None => c
  | Some p =>
      match blocks_ c !! p with
      | None => c
      | Some b =>
          let key := MakeKey (sst_id_ b) (block_offset_ b) in
          let c := RemoveBlock c p b in
          count_eviction
            {| config_ := config_ c; blocks_ := blocks_ c; next_ := next_ c;
               cache_map_ := delete key (cache_map_ c); lru_list_ := lru_list_ c;
               stats_ := stats_ c; access_counter_ := access_counter_ c |}
      end
  end.

(** [EvictIfNeeded]: the loop runs at most once per listed block, since
    every turn unlinks the back of the list; [fuel] counts the turns. *)
Fixpoint evict_loop (fuel : nat) (c : t) (new_block_size : Z) : t :=
  match fuel with
  | O => c
  | S fuel =>
      if over_limit c new_block_size then
        match lru_list_ c with
        | [] => c
        | _ => evict_loop fuel (evict_back c) new_block_size
        end
      else c
  end.

Definition EvictIfNeeded (c : t) (new_block_size : Z) : t :=
  evict_loop (length (lru_list_ c)) c new_block_size.

(** [bool Put(sst_id, block_offset, data)]. *)
Definition Put (c : t) (sst_id block_offset : Z) (data : list Byte.byte) : bool * t :=
  let n := Z.of_nat (length data) in
  match data with
  | [] => (false, c)
  | _ =>
    if max_block_size (config_ c) <? n then (false, count_rejection c)
    else if utilization_below n (min_block_size (config_ c)) (min_utilization (config_ c))
    then (false, count_rejection c)
    else
      let key := MakeKey sst_id block_offset in
      match cache_map_ c !! key with
      | Some p =>
          match blocks_ c !! p with
          | Some b =>
              let time := wrap64 (access_counter_ c + 1) in
              let b' := {| data_ := data; sst_id_ := sst_id_ b;
                           block_offset_ := block_offset_ b;
                           access_time_ := time; hit_count_ := hit_count_ b |} in
              (true,
               MoveToFront
                 {| config_ := config_ c; blocks_ := <[p := b']> (blocks_ c);
                    next_ := next_ c; cache_map_ := cache_map_ c;
                    lru_list_ := lru_list_ c; stats_ := stats_ c;
                    access_counter_ := time |} p)
          | None => (true, c)
          end
      | None =>
          let c := EvictIfNeeded c n in
          let time := wrap64 (access_counter_ c + 1) in
          let p := next_ c in
          let b := {| data_ := data; sst_id_ := sst_id; block_offset_ := block_offset;
                      access_time_ := time; hit_count_ := 0 |} in
          let s := stats_ c in
          (true,
           {| config_ := config_ c; blocks_ := <[p := b]> (blocks_ c);
              next_ := S p; cache_map_ := <[key := p]> (cache_map_ c);
              lru_list_ := p :: lru_list_ c;
              stats_ :=
                {| total_access := total_access s; hit_count := hit_count s;
                   miss_count := miss_count s; rejected_count := rejected_count s;
                   evicted_count := evicted_count s;
                   current_size := wrap64 (current_size s + size b);
                   current_count := wrap64 (current_count s + 1) |};
              access_counter_ := time |})
      end
  end.

(** [Get(sst_id, block_offset)]: a hit promotes the block to the front. *)
Definition Get (c : t) (sst_id block_offset : Z) : option (list Byte.byte) * t :=
  let key := MakeKey sst_id block_offset in
  let s := stats_ c in
  match cache_map_ c !! key with
  | Some p =>
      match blocks_ c !! p with
      | Some b =>
          let time := wrap64 (access_counter_ c + 1) in
          let b' := {| data_ := data_ b; sst_id_ := sst_id_ b;
                       block_offset_ := block_offset_ b; access_time_ := time;
                       hit_count_ := wrap64 (hit_count_ b + 1) |} in
          (Some (data_ b),
           MoveToFront
             {| config_ := config_ c; blocks_ := <[p := b']> (blocks_ c);
                next_ := next_ c; cache_map_ := cache_map_ c;
                lru_list_ := lru_list_ c;
                stats_ :=
                  {| total_access := wrap64 (total_access s + 1);
                     hit_count := wrap64 (hit_count s + 1);
                     miss_count := miss_count s; rejected_count := rejected_count s;
                     evicted_count := evicted_count s;
                     current_size := current_size s; current_count := current_count s |};
                access_counter_ := time |} p)
      | None => (None, c)
      end
  | None =>
      (None,
       with_stats c
         {| total_access := wrap64 (total_access s + 1); hit_count := hit_count s;
            miss_count := wrap64 (miss_count s + 1); rejected_count := rejected_count s;
            evicted_count := evicted_count s;
            current_size := current_size s; current_count := current_count s |})
  end.

(** The bytes the cache really holds: the sizes of the listed blocks. *)
Definition bytes_of (blocks : gmap nat CacheBlock) (l : list nat) : Z :=
  foldr (fun p acc =>
           match blocks !! p with Some b => size b + acc | None => acc end)
        0 l.

Definition listed_bytes (c : t) : Z := bytes_of (blocks_ c) (lru_list_ c).

(** The accounting is exact: every listed address is a live block, no
    address is listed twice, and the counters of [stats_] agree with the
    list. *)
Definition accounted (c : t) : Prop :=
  NoDup (lru_list_ c)
  /\ (forall p, p ∈ lru_list_ c -> is_Some (blocks_ c !! p))
  /\ (forall p, p ∈ lru_list_ c -> (p < next_ c)%nat)
  /\ current_size (stats_ c) = listed_bytes c
  /\ current_count (stats_ c) = Z.of_nat (length (lru_list_ c))
  /\ is_size_t (current_size (stats_ c))
  /\ is_size_t (current_count (stats_ c)).

(** [bool Remove(sst_id, block_offset)]. *)
Definition Remove (c : t) (sst_id block_offset : Z) : bool * t :=
  let key := MakeKey sst_id block_offset in
  match cache_map_ c !! key with
  | Some p =>
      match blocks_ c !! p with
      | Some b =>
          let c := RemoveBlock c p b in
          (true,
           {| config_ := config_ c; blocks_ := blocks_ c; next_ := next_ c;
              cache_map_ := delete key (cache_map_ c); lru_list_ := lru_list_ c;
              stats_ := stats_ c; access_counter_ := access_counter_ c |})
      | None => (true, c)
      end
  | None => (false, c)
  end.

(** [void Clear()]: the map and the list are emptied and the size and the
    count reset; the other counters stay. *)
Definition Clear (c : t) : t :=
  let s := stats_ c in
  {| config_ := config_ c; blocks_ := blocks_ c; next_ := next_ c;
     cache_map_ := ∅; lru_list_ := [];
     stats_ :=
       {| total_access := total_access s; hit_count := hit_count s;
          miss_count := miss_count s; rejected_count := rejected_count s;
          evicted_count := evicted_count s; current_size := 0; current_count := 0 |};
     access_counter_ := access_counter_ c |}.

(** A block is let in by the three tests at the head of [Put]. *)
Definition admitted (c : t) (data : list Byte.byte) : Prop :=
  data <> []
  /\ Z.of_nat (length data) <= max_block_size (config_ c)
  /\ utilization_below (Z.of_nat (length data)) (min_block_size (config_ c))
       (min_utilization (config_ c)) = false.

End Cache.

Arguments Config : clear implicits.
Arguments t : clear implicits.

(** The utilisation test carried out on exact rationals, for concrete runs
    ([x / 0] is [+inf] for a non-empty block, never below the bound). *)
Definition exact_utilization_below (size min_block_size : Z) (u : Q) : bool :=
  if min_block_size =? 0 then false
  else negb (Qle_bool u (inject_Z size / inject_Z min_block_size)).

(** A small configuration: ten bytes of capacity, blocks of at most eight
    bytes, no count limit, no utilisation bound. *)
Definition small_config : Config Q :=
  {| max_capacity := 10; min_block_size := 1; max_block_size := 8;
     max_block_count := 0; min_utilization := 0%Q |}.


Definition six_bytes : list Byte.byte :=
  [Byte.x01; Byte.x02; Byte.x03; Byte.x04; Byte.x05; Byte.x06].



(** The small cache after one block of six bytes was put under (1, 0). *)
Definition one_block : t Q :=
  {| config_ := small_config;
     blocks_ := <[0%nat := mkBlock six_bytes 1 0 1 0]> ∅;
     next_ := 1%nat;
     cache_map_ := <[MakeKey 1 0 := 0%nat]> ∅;
     lru_list_ := [0%nat];
     stats_ := mkStats 0 0 0 0 0 6 1;
     access_counter_ := 1 |}.

End BlockCache.

(** ** utils/global_random.cpp *)

Module GlobalRandom.
Import Word.
Local Open Scope Z_scope.

(** [GlobalRand] is a process-wide atomic counter: [fetch_add(1)] returns
    the old value.  The state is the counter. *)
Definition GlobalRand (counter : Z) : Z * Z := (counter, wrap64 (counter + 1)).

(** The counter after [n] draws. *)
Fixpoint skip (n : nat) (counter : Z) : Z :=
  match n with
  | O => counter
  | S n => skip n (snd (GlobalRand counter))
  end.

(** The values one caller obtains from the shared counter when, before its
    i-th draw, [gaps !! i] draws are taken by other callers (the election
    loop and [BloomFilter::Init] draw from the same counter on their own
    threads).  With no other caller every gap is zero. *)
Fixpoint observed (counter : Z) (gaps : list nat) : list Z :=
  match gaps with
  | [] => []
  | g :: gaps =>
      let '(r, counter') := GlobalRand (skip g counter) in
      r :: observed counter' gaps
  end.

End GlobalRandom.

(** ** lsm/skiplist.hpp: the level generator *)

Module RandLevel.
Import Word.
Local Open Scope Z_scope.

(** [RandLevel]: [level] starts at 1 and grows while
    [(GlobalRand() & 3) == 0].  [draws] are the values the successive
    calls of [GlobalRand] return; the result is the level and the draws
    left over, or [None] when the loop is still running after the last
    given draw. *)
Fixpoint RandLevel_loop (draws : list Z) (level : Z) : option (Z * list Z) :=
  match draws with
  | [] => None
  | r :: draws =>
      if Z.land r 3 =? 0 then RandLevel_loop draws (wrap64 (level + 1))
      else Some (level, draws)
  end.

Definition RandLevel (draws : list Z) : option (Z * list Z) :=
  RandLevel_loop draws 1.

(** A draw is a successful 25% trial when its two low bits are zero. *)
Definition success (r : Z) : bool := Z.land r 3 =? 0.

End RandLevel.

(** ** Byte buffers *)

Module Buffer.
Import Word.
Local Open Scope Z_scope.


Definition Z_of_byte (b : Byte.byte) : Z := Z.of_N (Byte.to_N b).


Fixpoint decode_le (bs : list Byte.byte) : Z :=
  match bs with
  | [] => 0
  | b :: bs => Z_of_byte b + 256 * decode_le bs
  end.


Definition load (buf : list Byte.byte) (off : Z) (n : nat) : list Byte.byte :=
  take n (drop (Z.to_nat off) buf).


Definition read_u64 (buf : list Byte.byte) (off : Z) : Z :=
  decode_le (load buf off 8).

End Buffer.

(** ** utils/bloom_filter.hpp *)

Module BloomFilter.
Import Word Buffer.
Local Open Scope Z_scope.

(** The members of [class BloomFilter].  [data_] is the bit array as
    [size_] words of 64 bits; a loaded filter reads its words from the
    buffer it was loaded from, which the model copies out. *)
Record t : Type := mk {
  length_ : Z;
  hash_num_ : Z;
  seed_ : list Z;
  data_ : list Z;
  size_ : Z;
  loaded_ : bool
}.

(** A default-constructed filter. *)
Definition empty : t :=
  {| length_ := 0; hash_num_ := 0; seed_ := []; data_ := []; size_ := 0;
     loaded_ := false |}.

(** [binary_size()]. *)
Definition binary_size (f : t) : Z :=
  let seeds := Z.of_nat (length (seed_ f)) in
  let index := wrap64 (wrap64 (seeds * 8) + 2 * 8) in
  let align := wrap64 (8 - Z.land index (8 - 1)) in
  wrap64 (wrap64 (wrap64 (wrap64 (seeds * 8) + 2 * 8) + wrap64 (size_ f * 8)) + align).

(** [seed_.emplace_back(GlobalRand())], [n] times. *)
Fixpoint draw_seeds (n : nat) (counter : Z) : list Z * Z :=
  match n with
  | O => ([], counter)
  | S n =>
      let '(r, counter) := GlobalRandom.GlobalRand counter in
      let '(rs, counter) := draw_seeds n counter in
      (r :: rs, counter)
  end.

(** [Init(n, p)].  The two floating-point results, [CalcLength(n, p)] and
    [std::max(1, int(0.69 * length_ / n))], are the parameters [length]
    and [hash_num]; the seeds come from the shared counter and the bit
    array is zero-initialised. *)
Definition Init (f : t) (length hash_num : Z) (counter : Z) : t * Z :=
  let '(seeds, counter) := draw_seeds (Z.to_nat hash_num) counter in
  let size := wrap64 (length / 64 + 1) in
  ({| length_ := length; hash_num_ := hash_num; seed_ := seed_ f ++ seeds;
      data_ := repeat 0 (Z.to_nat size); size_ := size; loaded_ := loaded_ f |},
   counter).

(** [static_cast<size_t>(s[i])] for a (signed) [char]. *)
Definition char_to_size_t (b : Byte.byte) : Z :=
  let v := Z_of_byte b in
  if v <? 128 then v else wrap64 (v - 256).

(** [CalcHash(s, len, seed)] over the [len] bytes of the key. *)
Definition CalcHash (s : list Byte.byte) (seed : Z) : Z :=
  fold_left (fun res c => wrap64 (wrap64 (res * seed) + char_to_size_t c)) s 0.

(** The bit position of a key under a seed; [None] stands for the division
    by zero of [% length_] on a filter of length zero. *)
Definition bit_index (f : t) (s : list Byte.byte) (seed : Z) : option Z :=
  if length_ f =? 0 then None else Some (CalcHash s seed mod length_ f).

Definition mask (key : Z) : Z := Z.shiftl 1 (Z.land key 63).

(** [Insert(s, len)]: [data_[key / 64] |= 1ULL << (key & 63)] per seed.
    [None] is a division by zero or a word outside the array. *)
Fixpoint insert_seeds (f : t) (s : list Byte.byte) (seeds : list Z)
    (data : list Z) : option (list Z) :=
  match seeds with
  | [] => Some data
  | seed :: seeds =>
      match bit_index f s seed with
      | None => None
      | Some key =>
          match data !! Z.to_nat (key / 64) with
          | None => None
          | Some w =>
              insert_seeds f s seeds
                (<[Z.to_nat (key / 64) := Z.lor w (mask key)]> data)
          end
      end
  end.

Definition Insert (f : t) (s : list Byte.byte) : option t :=
  match insert_seeds f s (seed_ f) (data_ f) with
  | None => None
  | Some data =>
      Some {| length_ := length_ f; hash_num_ := hash_num_ f; seed_ := seed_ f;
              data_ := data; size_ := size_ f; loaded_ := loaded_ f |}
  end.

(** [Check(s, len)]. *)
Fixpoint check_seeds (f : t) (s : list Byte.byte) (seeds : list Z) : option bool :=
  match seeds with
  | [] => Some true
  | seed :: seeds =>
      match bit_index f s seed with
      | None => None
      | Some key =>
          match data_ f !! Z.to_nat (key / 64) with
          | None => None
          | Some w =>
              if Z.land w (mask key) =? 0 then Some false
              else check_seeds f s seeds
          end
      end
  end.

Definition Check (f : t) (s : list Byte.byte) : option bool :=
  check_seeds f s (seed_ f).


(** The padding both [Save] and [Load] add: [8 - (index & 7)]. *)
Definition pad (index : Z) : Z := wrap64 (index + wrap64 (8 - Z.land index (8 - 1))).


(** The seed loop of [Load]. *)
Fixpoint load_seeds (buf : list Byte.byte) (index : Z) (n : nat) : list Z * Z :=
  match n with
  | O => ([], index)
  | S n =>
      let seed := read_u64 buf index in
      let '(seeds, index') := load_seeds buf (wrap64 (index + 8)) n in
      (seed :: seeds, index')
  end.

(** The words of the bit array seen through [data_ = s + index]. *)
Fixpoint view_words (buf : list Byte.byte) (index : Z) (n : nat) : list Z :=
  match n with
  | O => []
  | S n => read_u64 buf index :: view_words buf (index + 8) n
  end.

(** [Load(s)]: the filter and the byte count returned. *)
Definition Load (buf : list Byte.byte) : t * Z :=
  let hash_num := read_u64 buf 0 in
  let length := read_u64 buf 8 in
  let '(seeds, index) := load_seeds buf 16 (Z.to_nat hash_num) in
  let size := wrap64 (length / 64 + 1) in
  let index := pad index in
  ({| length_ := length; hash_num_ := hash_num; seed_ := seeds;
      data_ := view_words buf index (Z.to_nat size); size_ := size;
      loaded_ := true |},
   wrap64 (index + wrap64 (size * 8))).


(** The bit array fits the bit length: [length_ / 64 + 1] words, none
    negative. *)
Definition sized (f : t) : Prop :=
  0 < length_ f
  /\ Z.of_nat (length (data_ f)) = length_ f / 64 + 1
  /\ Forall (fun w => 0 <= w) (data_ f).

(** A run of [Insert]s, as the constructors of a table make it. *)
Fixpoint insert_all (f : t) (keys : list (list Byte.byte)) : option t :=
  match keys with
  | [] => Some f
  | k :: keys =>
      match Insert f k with
      | Some f => insert_all f keys
      | None => None
      end
  end.

(** Every bit of key [s] under the seeds [seeds] is set in [data]. *)
Definition bits_set (f : t) (data : list Z) (s : list Byte.byte) (seeds : list Z) : Prop :=
  Forall (fun seed =>
            exists key w,
              bit_index f s seed = Some key
              /\ data !! Z.to_nat (key / 64) = Some w
              /\ Z.land w (mask key) <> 0) seeds.



End BloomFilter.

(** ** Outcomes of calls that index memory or loop *)

Module Result.

(** How a call ends: with a value, in undefined behaviour (an index past
    the end of a vector or of an array, a dangling pointer), or not at all
    within the steps or the random draws it was given. *)
Inductive result (A : Type) : Type :=
| Ok (a : A)
| OutOfBounds
| Unfinished.

Arguments Ok {A} a.
Arguments OutOfBounds {A}.
Arguments Unfinished {A}.

Definition bind {A B : Type} (r : result A) (k : A -> result B) : result B :=
  match r with
  | Ok a => k a
  | OutOfBounds => OutOfBounds
  | Unfinished => Unfinished
  end.

#[global] Instance result_bind : MBind result := fun A B k r => bind r k.

Definition of_option {A : Type} (o : option A) : result A :=
  match o with
  | Some a => Ok a
  | None => OutOfBounds
  end.

End Result.

(** ** lsm/skiplist.hpp *)

Module SkipList.
Import Word.
Export Result.
Local Open Scope Z_scope.

(** [struct Node]: a [Node*] is an address into the store of the list,
    [nullptr] is [None]. *)
Record Node : Type := mkNode {
  nexts : list (option nat);
  key : string;
  value : string
}.

(** [ConcurrentSkipList] (the spin lock is left out: the calls below run
    one at a time).  [fresh_] is the next address [new Node] returns. *)
Record t : Type := mk {
  nodes_ : gmap nat Node;
  head_ : nat;
  fresh_ : nat;
  size_ : Z;
  binary_size_ : Z
}.

(** The constructor: a head node with one level. *)
Definition create : t :=
  {| nodes_ := {[ 0%nat := mkNode [None] "" "" ]}; head_ := 0%nat; fresh_ := 1%nat;
     size_ := 0; binary_size_ := 0 |}.

Definition size (sl : t) : Z := size_ sl.
Definition binary_size (sl : t) : Z := binary_size_ sl.

Definition node_at (sl : t) (p : nat) : result Node := of_option (nodes_ sl !! p).

(** [p->nexts[level]]. *)
Definition next_at (sl : t) (p : nat) (level : nat) : result (option nat) :=
  n ← node_at sl p; of_option (nexts n !! level).

(** [std::vector::resize(n, nullptr)]. *)
Definition resize (l : list (option nat)) (n : nat) : list (option nat) :=
  take n l ++ repeat None (n - length l).

Definition str_size (s : string) : Z := Z.of_nat (String.length s).

(** The inner loop of every search:
    [while (p->nexts[level] && p->nexts[level]->key < key) p = p->nexts[level];]
    [fuel] bounds the number of turns. *)
Fixpoint walk (fuel : nat) (sl : t) (level : nat) (k : string) (p : nat) : result nat :=
  match fuel with
  | O => Unfinished
  | S fuel =>
      q ← next_at sl p level;
      match q with
      | None => Ok p
      | Some q =>
          n ← node_at sl q;
          if String.ltb (key n) k then walk fuel sl level k q else Ok p
      end
  end.

(** The outer loop [for (level = levels - 1; level >= 0; --level)]. *)
Fixpoint descend (fuel : nat) (sl : t) (k : string) (levels : nat) (p : nat)
    : result nat :=
  match levels with
  | O => Ok p
  | S level => p ← walk fuel sl level k p; descend fuel sl k level p
  end.

(** The same loop as [Put] runs it first, recording in [path] and
    [path_levels] (arrays of 32) the node reached on every level above 0. *)
Fixpoint descend_path (fuel : nat) (sl : t) (k : string) (levels : nat) (p : nat)
    (path : list (nat * nat)) : result (nat * list (nat * nat)) :=
  match levels with
  | O => Ok (p, path)
  | S level =>
      p ← walk fuel sl level k p;
      if (0 <? level)%nat then
        if (length path <? 32)%nat
        then descend_path fuel sl k level p (path ++ [(p, level)])
        else OutOfBounds
      else descend_path fuel sl k level p path
  end.

(** The steps a search may take: one per allocated node, and one. *)
Definition fuel_of (sl : t) : nat := S (fresh_ sl).

Definition levels_of (sl : t) : result nat :=
  h ← node_at sl (head_ sl); Ok (length (nexts h)).

(** [bool Get(key, value&)]. *)
Definition Get (sl : t) (k : string) : result (option string) :=
  levels ← levels_of sl;
  p ← descend (fuel_of sl) sl k levels (head_ sl);
  q ← next_at sl p 0;
  match q with
  | None => Ok None
  | Some q =>
      n ← node_at sl q;
      if String.eqb (key n) k then Ok (Some (value n)) else Ok None
  end.

Definition set_node (sl : t) (p : nat) (n : Node) : t :=
  {| nodes_ := <[p := n]> (nodes_ sl); head_ := head_ sl; fresh_ := fresh_ sl;
     size_ := size_ sl; binary_size_ := binary_size_ sl |}.

(** [p->nexts.resize(n, nullptr)] on the node at [p]. *)
Definition resize_node (sl : t) (p : nat) (n : nat) : result t :=
  nd ← node_at sl p;
  Ok (set_node sl p (mkNode (resize (nexts nd) n) (key nd) (value nd))).

(** The loop over the recorded path after the head has grown. *)
Fixpoint resize_path (sl : t) (path : list (nat * nat)) (new_level : nat) : result t :=
  match path with
  | [] => Ok sl
  | (p, level) :: path =>
      if (level <? new_level)%nat then
        sl ← resize_node sl p new_level; resize_path sl path new_level
      else resize_path sl path new_level
  end.

(** [p->nexts[level] = q]. *)
Definition set_next (sl : t) (p : nat) (level : nat) (q : option nat) : result t :=
  nd ← node_at sl p;
  if (level <? length (nexts nd))%nat then
    Ok (set_node sl p (mkNode (<[level := q]> (nexts nd)) (key nd) (value nd)))
  else OutOfBounds.

(** The linking loop of [Put]: from the top level down, walk, and on the
    levels below [new_level] hook the node at [node] in behind [p]. *)
Fixpoint link (fuel : nat) (sl : t) (k : string) (levels : nat) (new_level : nat)
    (node : nat) (p : nat) : result t :=
  match levels with
  | O => Ok sl
  | S level =>
      p ← walk fuel sl level k p;
      if (level <? new_level)%nat then
        q ← next_at sl p level;
        sl ← set_next sl node level q;
        sl ← set_next sl p level (Some node);
        link fuel sl k level new_level node p
      else link fuel sl k level new_level node p
  end.

(** [void Put(key, value)].  [draws] are the values [GlobalRand] returns
    to [RandLevel]; the result carries the draws left over. *)
Definition Put (sl : t) (k v : string) (draws : list Z) : result (t * list Z) :=
  levels ← levels_of sl;
  '(p, path) ← descend_path (fuel_of sl) sl k levels (head_ sl) [];
  q ← next_at sl p 0;
  existing ←
    match q with
    | None => Ok None
    | Some q => n ← node_at sl q; Ok (if String.eqb (key n) k then Some (q, n) else None)
    end;
  match existing with
  | Some (q, n) =>
      Ok ({| nodes_ := <[q := mkNode (nexts n) (key n) v]> (nodes_ sl);
             head_ := head_ sl; fresh_ := fresh_ sl; size_ := size_ sl;
             binary_size_ :=
               wrap64 (binary_size_ sl + wrap64 (str_size v - str_size (value n))) |},
          draws)
  | None =>
      match RandLevel.RandLevel draws with
      | None => Unfinished
      | Some (new_level, draws) =>
          let new_level := Z.to_nat new_level in
          let node := fresh_ sl in
          let sl :=
            {| nodes_ := <[node := mkNode (repeat None new_level) k v]> (nodes_ sl);
               head_ := head_ sl; fresh_ := S (fresh_ sl);
               size_ := wrap64 (size_ sl + 1);
               binary_size_ := wrap64 (binary_size_ sl + wrap64 (str_size k + str_size v)) |} in
          '(sl, p) ←
            (if (levels <? new_level)%nat then
               sl ← resize_node sl (head_ sl) new_level;
               sl ← resize_path sl path new_level;
               levels ← levels_of sl;
               p ← descend (fuel_of sl) sl k levels (head_ sl);
               Ok (sl, p)
             else Ok (sl, p));
          levels ← levels_of sl;
          nd ← node_at sl node;
          sl ←
            (if (length (nexts nd) <? levels)%nat
             then resize_node sl node levels else Ok sl);
          sl ← link (fuel_of sl) sl k levels new_level node p;
          Ok (sl, draws)
      end
  end.

(** The iterator: [begin()] is [head_->nexts[0]], [++] follows [nexts[0]],
    [end()] is [nullptr]. *)
Fixpoint iterate (fuel : nat) (sl : t) (it : option nat) : result (list (string * string)) :=
  match it with
  | None => Ok []
  | Some p =>
      match fuel with
      | O => Unfinished
      | S fuel =>
          n ← node_at sl p;
          q ← of_option (nexts n !! 0%nat);
          rest ← iterate fuel sl q;
          Ok ((key n, value n) :: rest)
      end
  end.

Definition entries (sl : t) : result (list (string * string)) :=
  q ← next_at sl (head_ sl) 0; iterate (fuel_of sl) sl q.



Definition c_list : t :=
  match Put create "c" "1" [3] with
  | Ok (sl, _) => sl
  | _ => create
  end.

(** A list that holds one pair in a node of [levels] levels at address 1,
    behind a head of as many levels, of which the lowest [unlinked] do not
    point to the node yet. *)
Definition holds_one (sl : t) (k v : string) (levels unlinked : nat) : Prop :=
  head_ sl = 0%nat /\ fresh_ sl = 2%nat
  /\ nodes_ sl !! 0%nat
     = Some (mkNode (repeat None unlinked ++ repeat (Some 1%nat) (levels - unlinked)) "" "")
  /\ nodes_ sl !! 1%nat = Some (mkNode (repeat None levels) k v).

End SkipList.

(** ** lsm/sst.hpp *)

Module SST.
Import Word Result.
Local Open Scope Z_scope.

(** [EntryIndex] / [EntryView]: a key and a value. *)
Definition Entry : Type := (string * string)%type.

Definition key_bytes (k : string) : list Byte.byte := list_byte_of_string k.
Definition str_size (s : string) : Z := Z.of_nat (String.length s).

(** An [SST] as it stands in memory once [index_block.Load] has read the
    mapped file: the key of its index entry, the entries of its single data
    block, the block's Bloom filter, and [file_size_].  The constructors
    write the block and read it back from the same bytes; the filter read
    back has the fields of the filter written (the round trip of [Save] and
    [Load]), and so do the entries. *)
Record t : Type := mk {
  id_ : Z;
  index_key_ : string;
  data_index_ : list Entry;
  bloom_filter_ : BloomFilter.t;
  file_size_ : Z
}.

(** [size_t id() const] returns the [int64_t id_], converted to [size_t]. *)
Definition id (s : t) : Z := wrap64 (id_ s).
Definition key (s : t) : string := index_key_ s.
Definition binary_size (s : t) : Z := file_size_ s.

(** The iterator: [begin()] stands on the first entry, [rbegin()] on the
    last; dereferencing either on an empty block is out of bounds. *)
Definition begin_key (s : t) : result string :=
  of_option (fst <$> head (data_index_ s)).

Definition rbegin_key (s : t) : result string :=
  of_option (fst <$> last (data_index_ s)).

(** The binary search of [DataBlockIndex::Get]:
    [while (l < r) { mid = (l + r) >> 1; if (v[mid].key < key) l = mid + 1; else r = mid; }]
    Each turn shrinks [r - l]; [fuel] counts the turns. *)
Fixpoint lower_bound (fuel : nat) (v : list Entry) (k : string) (l r : nat) : nat :=
  match fuel with
  | O => r
  | S fuel =>
      if (l <? r)%nat then
        let mid := Nat.div2 (l + r) in
        match v !! mid with
        | Some e =>
            if String.ltb (fst e) k then lower_bound fuel v k (S mid) r
            else lower_bound fuel v k l mid
        | None => r
        end
      else r
  end.

(** The search of [DataBlockIndex::Get] once the filter has let the key
    through. *)
Definition searched (v : list Entry) (k : string) : option string :=
  match v !! lower_bound (S (length v)) v k 0 (length v) with
  | Some e => if String.eqb (fst e) k then Some (snd e) else None
  | None => None
  end.

(** [DataBlockIndex::Get]: the filter first, then the search. *)
Definition block_Get (s : t) (k : string) : result (option string) :=
  match BloomFilter.Check (bloom_filter_ s) (key_bytes k) with
  | None => OutOfBounds
  | Some false => Ok None
  | Some true => Ok (searched (data_index_ s) k)
  end.

(** [SST::Get] through [IndexBlockIndex::Get]: with the single block of
    the file, the block is searched unless its first key is above [k]. *)
Definition Get (s : t) (k : string) : result (option string) :=
  if String.ltb k (index_key_ s) then Ok None else block_Get s k.

Section Build.

(** [BloomFilter::Init(n, 0.01)] computes the bit length and the hash count
    in floating point; [bloom_params n] stands for the pair. *)
Variable bloom_params : Z -> Z * Z.

Fixpoint insert_keys (f : BloomFilter.t) (entries : list Entry) : result BloomFilter.t :=
  match entries with
  | [] => Ok f
  | e :: entries =>
      f ← of_option (BloomFilter.Insert f (key_bytes (fst e)));
      insert_keys f entries
  end.

Definition payload_size (entries : list Entry) : Z :=
  fold_right (fun e acc => str_size (fst e) + str_size (snd e) + acc) 0 entries.

(** [SST(std::vector<EntryView> entries, int id)]: the uncompressed
    constructor compaction uses.  [counter] is the state of [GlobalRand]. *)
Definition build (entries : list Entry) (id : Z) (counter : Z) : result (t * Z) :=
  match entries with
  | [] => OutOfBounds
  | first :: _ =>
      let n := Z.of_nat (length entries) in
      let '(len, hash_num) := bloom_params n in
      let '(f, counter) := BloomFilter.Init BloomFilter.empty len hash_num counter in
      f ← insert_keys f entries;
      let index_block_size := wrap64 (wrap64 (2 * 8 * (n + 1)) + str_size (fst first)) in
      let data_block_size :=
        wrap64 (wrap64 (wrap64 (wrap64 (8 + payload_size entries) + wrap64 (n * 2 * 8))
                        + BloomFilter.binary_size f) + 8) in
      Ok ({| id_ := id; index_key_ := fst first; data_index_ := entries;
             bloom_filter_ :=
               {| BloomFilter.length_ := BloomFilter.length_ f;
                  BloomFilter.hash_num_ := BloomFilter.hash_num_ f;
                  BloomFilter.seed_ := BloomFilter.seed_ f;
                  BloomFilter.data_ := BloomFilter.data_ f;
                  BloomFilter.size_ := BloomFilter.size_ f;
                  BloomFilter.loaded_ := true |};
             file_size_ := wrap64 (index_block_size + data_block_size) |},
          counter)
  end.

End Build.

(** Keys strictly ascending, as in a data block. *)
Fixpoint ascending (entries : list Entry) : Prop :=
  match entries with
  | [] => True
  | e :: rest =>
      match rest with
      | [] => True
      | e' :: _ => String.ltb (fst e) (fst e') = true
      end /\ ascending rest
  end.

(** Plain lookup of a key among entries: the first entry carrying it. *)
Fixpoint lookup (entries : list Entry) (k : string) : option string :=
  match entries with
  | [] => None
  | e :: entries => if String.eqb (fst e) k then Some (snd e) else lookup entries k
  end.

End SST.

(** ** lsm/manifest.hpp *)

Module Manifest.
Import Word Result.
Local Open Scope Z_scope.

(** [class Level]: the level number and the vector of SSTs (shared
    pointers to immutable tables, kept as values). *)
Record Level : Type := mkLevel {
  level_ : nat;
  ssts_ : list SST.t
}.

(** First hit of [f] along a list, stopping at the first failure. *)
Fixpoint first_hit {A : Type} (f : A -> result (option string)) (l : list A)
    : result (option string) :=
  match l with
  | [] => Ok None
  | a :: l =>
      r ← f a;
      match r with
      | Some v => Ok (Some v)
      | None => first_hit f l
      end
  end.

(** The binary search of [Level::Get] on the first keys:
    [if (ssts_[mid]->key() > key) r = mid; else l = mid + 1;] *)
Fixpoint upper_bound (fuel : nat) (v : list SST.t) (k : string) (l r : nat) : nat :=
  match fuel with
  | O => l
  | S fuel =>
      if (l <? r)%nat then
        let mid := Nat.div2 (l + r) in
        match v !! mid with
        | Some s =>
            if String.ltb k (SST.key s) then upper_bound fuel v k l mid
            else upper_bound fuel v k (S mid) r
        | None => l
        end
      else l
  end.

(** [Level::Get]: level 0 newest first; other levels probe one table. *)
Definition Level_Get (lv : Level) (k : string) : result (option string) :=
  match level_ lv with
  | O => first_hit (fun s => SST.Get s k) (rev (ssts_ lv))
  | S _ =>
      let n := length (ssts_ lv) in
      let l := upper_bound (S n) (ssts_ lv) k 0 n in
      match l with
      | O => Ok None
      | S l' =>
          match ssts_ lv !! l' with
          | Some s => SST.Get s k
          | None => OutOfBounds
          end
      end
  end.

Definition Level_binary_size (lv : Level) : Z :=
  fold_left (fun res s => wrap64 (res + SST.binary_size s)) (ssts_ lv) 0.

(** [class Manifest]. *)
Record t : Type := mk {
  version_ : Z;
  levels_ : list Level;
  max_sst_id_ : Z
}.

(** The constructor when no manifest file exists. *)
Definition fresh : t :=
  {| version_ := 1; levels_ := [mkLevel 0 []]; max_sst_id_ := 0 |}.

(** [Manifest::Get]: the levels in order, first hit. *)
Definition Get (m : t) (k : string) : result (option string) :=
  first_hit (fun lv => Level_Get lv k) (levels_ m).

(** [InsertAndUpdate]: the copy constructor bumps the version and copies
    the levels ([max_sst_id_] of the copy starts from its default, 0); the
    table is appended to level 0 of the copy. *)
Definition InsertAndUpdate (m : t) (sst : SST.t) : result t :=
  match levels_ m with
  | [] => OutOfBounds
  | l0 :: rest =>
      Ok {| version_ := wrap64 (version_ m + 1);
            levels_ := mkLevel (level_ l0) (ssts_ l0 ++ [sst]) :: rest;
            max_sst_id_ := 0 |}
  end.

Definition max_level_size : nat := 5.

Definition level_max_binary_size (level : nat) : Z :=
  nth level [1024; 10 * 1024 * 1024; 100 * 1024 * 1024; 1000 * 1024 * 1024;
             10000 * 1024 * 1024] 0.

Definition CanDoCompaction (m : t) : result bool :=
  l0 ← of_option (head (levels_ m));
  Ok (level_max_binary_size 0 <? Level_binary_size l0).

(** [struct SizeTieredCompactionStruct]: an iterator into a table, given
    by the entry it stands on and the entries after it, and the secondary
    key [second_value]. *)
Record Cursor : Type := mkCursor {
  current : SST.Entry;
  rest : list SST.Entry;
  second_value : Z
}.

(** [operator<]. *)
Definition Cursor_lt (lhs rhs : Cursor) : bool :=
  if String.eqb (fst (current lhs)) (fst (current rhs))
  then second_value rhs <? second_value lhs
  else String.ltb (fst (current rhs)) (fst (current lhs)).

(** [std::priority_queue::top]: the position of an element no other
    element is above; the queue is the list of its elements. *)
Fixpoint top_from (q : list Cursor) (i : nat) (best : nat * Cursor) : nat * Cursor :=
  match q with
  | [] => best
  | c :: q => top_from q (S i) (if Cursor_lt (snd best) c then (i, c) else best)
  end.

Definition top (q : list Cursor) : option (nat * Cursor) :=
  match q with
  | [] => None
  | c :: q => Some (top_from q 1 (0%nat, c))
  end.

(** [queue.emplace(sst, value)]: a cursor on the first entry. *)
Definition emplace (q : list Cursor) (s : SST.t) (value : Z) : result (list Cursor) :=
  match SST.data_index_ s with
  | [] => OutOfBounds
  | e :: es => Ok (q ++ [mkCursor e es value])
  end.

(** The range test on [std::string_view]: an empty view means "not set". *)
Definition is_empty (s : string) : bool := String.eqb s "".

(** The first loop of [SizeTieredCompaction(level, id)]: the tables of the
    level from the newest to the oldest. *)
Fixpoint collect_level (ssts : list SST.t) (q : list Cursor) (value : Z)
    (min_key max_key : string) : result (list Cursor * Z * string * string) :=
  match ssts with
  | [] => Ok (q, value, min_key, max_key)
  | s :: ssts =>
      q ← emplace q s value;
      begin_key ← SST.begin_key s;
      end_key ← SST.rbegin_key s;
      let min_key :=
        if is_empty min_key || String.ltb begin_key min_key then begin_key else min_key in
      let max_key :=
        if is_empty max_key || String.ltb max_key end_key then end_key else max_key in
      collect_level ssts q (wrap64 (value + 1)) min_key max_key
  end.

(** The second loop: the tables of the next level, from index [i] on.
    It leaves [insert_l] on the last table wholly below [min_key], stops
    with [insert_r] on the first table wholly above [max_key], and queues
    the others. *)
Fixpoint collect_next (ssts : list SST.t) (i : Z) (q : list Cursor) (value : Z)
    (min_key max_key : string) (insert_l insert_r : Z)
    : result (list Cursor * Z * Z * Z) :=
  match ssts with
  | [] => Ok (q, value, insert_l, insert_r)
  | s :: ssts =>
      sst_begin_key ← SST.begin_key s;
      sst_end_key ← SST.rbegin_key s;
      if String.ltb sst_end_key min_key then
        collect_next ssts (i + 1) q value min_key max_key i insert_r
      else if String.ltb max_key sst_begin_key then
        Ok (q, value, insert_l, i)
      else
        q ← emplace q s value;
        collect_next ssts (i + 1) q (wrap64 (value + 1)) min_key max_key insert_l insert_r
  end.

(** One turn of the merge loop: take the top cursor, keep its entry unless
    the last kept entry has the same key, advance it and put it back if it
    still stands on an entry. *)
Definition merge_step (q : list Cursor) (entries : list SST.Entry)
    : option (list Cursor * list SST.Entry) :=
  match top q with
  | None => None
  | Some (i, c) =>
      let entries :=
        match last entries with
        | Some e => if String.eqb (fst e) (fst (current c)) then entries
                    else entries ++ [current c]
        | None => entries ++ [current c]
        end in
      let q :=
        match rest c with
        | [] => delete i q
        | e :: es => <[i := mkCursor e es (second_value c)]> q
        end in
      Some (q, entries)
  end.

Fixpoint merge (fuel : nat) (q : list Cursor) (entries : list SST.Entry)
    : result (list SST.Entry) :=
  match merge_step q entries with
  | None => Ok entries
  | Some (q, entries) =>
      match fuel with
      | O => Unfinished
      | S fuel => merge fuel q entries
      end
  end.

(** Every turn consumes one entry of one cursor. *)
Definition pending (q : list Cursor) : nat :=
  fold_right (fun c n => (S (length (rest c)) + n)%nat) 0%nat q.

(** [for (int i = from; i < to; ++i) new_ssts.emplace_back(ssts[i])]. *)
Definition slice (ssts : list SST.t) (from to : Z) : list SST.t :=
  take (Z.to_nat (to - from)) (drop (Z.to_nat from) ssts).

(** [if (level + 1 == levels_.size()) levels_.emplace_back(Level(level + 1))]. *)
Definition ensure_level (levels : list Level) (level : nat) : list Level :=
  if (S level =? length levels)%nat
  then levels ++ [mkLevel (S level) []] else levels.

(** One turn of the merge loop with [++data.it] as
    [SST::Iterator::operator++] has it: when the cursor leaves the last
    entry of its table, [++data_block_index_it_] makes the block iterator
    [end()], and [data_block_index_it_->Get()] reads through it before
    [if (data.it)] is reached.  [merge_step] is the turn of a run in which
    that read returns. *)
Definition merge_step_checked (q : list Cursor) (entries : list SST.Entry)
    : result (option (list Cursor * list SST.Entry)) :=
  match top q with
  | None => Ok None
  | Some (_, c) =>
      match rest c with
      | [] => OutOfBounds
      | _ :: _ => Ok (merge_step q entries)
      end
  end.

Fixpoint merge_checked (fuel : nat) (q : list Cursor) (entries : list SST.Entry)
    : result (list SST.Entry) :=
  r ← merge_step_checked q entries;
  match r with
  | None => Ok entries
  | Some (q, entries) =>
      match fuel with
      | O => Unfinished
      | S fuel => merge_checked fuel q entries
      end
  end.

(** [SizeTieredCompaction(level, id)] up to the end of its merge loop,
    with the iterator as written. *)
Definition merge_of_level (m : t) (level : nat) : result (list SST.Entry) :=
  lv ← of_option (levels_ m !! level);
  '(q, value, min_key, max_key) ← collect_level (rev (ssts_ lv)) [] 0 "" "";
  let levels := ensure_level (levels_ m) level in
  next ← of_option (levels !! S level);
  let n := Z.of_nat (length (ssts_ next)) in
  '(q, value, insert_l, insert_r) ←
    collect_next (ssts_ next) 0 q value min_key max_key (-1) n;
  merge_checked (pending q) q [].

Section Compaction.
Variable bloom_params : Z -> Z * Z.

(** [void SizeTieredCompaction(size_t level, int id)], with the merge loop
    of a run that survives the read of [merge_step_checked].  The new
    table is a value of its own: the run is one in which [id] is not the
    id of a table of the manifest, whose mapped file the constructor would
    otherwise write over. *)
Definition SizeTieredCompaction_level (m : t) (level : nat) (id : Z) (counter : Z)
    : result (t * Z) :=
  lv ← of_option (levels_ m !! level);
  '(q, value, min_key, max_key) ← collect_level (rev (ssts_ lv)) [] 0 "" "";
  let levels := ensure_level (levels_ m) level in
  next ← of_option (levels !! S level);
  let n := Z.of_nat (length (ssts_ next)) in
  '(q, value, insert_l, insert_r) ←
    collect_next (ssts_ next) 0 q value min_key max_key (-1) n;
  entries ← merge (pending q) q [];
  '(new_sst, counter) ← SST.build bloom_params entries id counter;
  let new_ssts :=
    slice (ssts_ next) 0 (insert_l + 1) ++ [new_sst] ++ slice (ssts_ next) insert_r n in
  let levels := <[level := mkLevel (level_ lv) []]> levels in
  let levels := <[S level := mkLevel (level_ next) new_ssts]> levels in
  Ok ({| version_ := version_ m; levels_ := levels;
         max_sst_id_ :=
           if max_sst_id_ m <? wrap64 id then wrap64 id else max_sst_id_ m |},
      counter).

End Compaction.

(** What [BloomFilter::Init(n, 0.01)] computes for the counts of the
    examples below: [CalcLength] is [floor (22.5249 * n) + 1] bits (23 for
    one entry, 46 for two) and the hash count [max 1 (int (0.69 * length / n))]
    (15 for both). *)
Definition small_bloom_params (n : Z) : Z * Z :=
  let len := 2252489 * n / 100000 + 1 in
  (len, Z.max 1 (69 * len / (100 * n))).

(** The table the constructor builds from [entries] when the shared
    counter stands at [counter]. *)
Definition table (entries : list SST.Entry) (id counter : Z) : SST.t :=
  match SST.build small_bloom_params entries id counter with
  | Ok (s, _) => s
  | _ => SST.mk id "" [] BloomFilter.empty 0
  end.

(** A manifest with two tables in each of its two levels.  Level 1 holds
    the keys "a" and "a5" in two range-disjoint tables; level 0 holds "b"
    in its older table and the empty key in its newer one. *)
Definition empty_key_manifest : t :=
  {| version_ := 1;
     levels_ := [mkLevel 0 [table [("b", "1")] 3 30; table [("", "2")] 4 45];
                 mkLevel 1 [table [("a", "x")] 1 0; table [("a5", "y")] 2 15]];
     max_sst_id_ := 4 |}.

(** The parameters of the filter for the counts a table can have: those of
    [small_bloom_params], with the count capped at [2^32]. *)
Definition capped_bloom_params (n : Z) : Z * Z :=
  small_bloom_params (Z.min n (2 ^ 32)).

(** The view the tables of a compaction give before it: the first table,
    in the order they were queued, that holds the key. *)
Fixpoint overlay (tables : list (list SST.Entry)) (k : string) : option string :=
  match tables with
  | [] => None
  | es :: tables =>
      match SST.lookup es k with
      | Some v => Some v
      | None => overlay tables k
      end
  end.

(** A table as a data block holds it: at least one entry, keys ascending. *)
Definition well_formed (s : SST.t) : Prop :=
  SST.data_index_ s <> [] /\ SST.ascending (SST.data_index_ s).

(** A table as the constructor leaves it: well formed, indexed by its
    first key, with a sized filter that lets every key of the table
    through. *)
Definition built (s : SST.t) : Prop :=
  well_formed s
  /\ Some (SST.index_key_ s) = fst <$> head (SST.data_index_ s)
  /\ BloomFilter.sized (SST.bloom_filter_ s)
  /\ forall e, e ∈ SST.data_index_ s ->
       BloomFilter.Check (SST.bloom_filter_ s) (SST.key_bytes (fst e)) = Some true.

(** The tables of a level above 0 do not overlap and stand in the order
    of their keys: every key of a table is below every key of the tables
    after it. *)
Definition ordered_ranges (ssts : list SST.t) : Prop :=
  forall (i j : nat) a b ea eb,
    (i < j)%nat -> ssts !! i = Some a -> ssts !! j = Some b ->
    ea ∈ SST.data_index_ a -> eb ∈ SST.data_index_ b ->
    String.ltb (fst ea) (fst eb) = true.

(** Every key of [a] is below every key of [b]. *)
Definition below (a b : SST.t) : Prop :=
  forall ea eb, ea ∈ SST.data_index_ a -> eb ∈ SST.data_index_ b ->
    String.ltb (fst ea) (fst eb) = true.

End Manifest.

(** ** lsm/memtable.hpp *)

Module MemTable.
Import Result.

(** [class MemTable] wraps a [ConcurrentSkipList]; every call goes to it. *)
Definition t : Type := SkipList.t.

Definition create : t := SkipList.create.

Definition Get (mt : t) (k : string) : result (option string) := SkipList.Get mt k.

Definition Put (mt : t) (k v : string) (draws : list Z) : result (t * list Z) :=
  SkipList.Put mt k v draws.

Definition binary_size (mt : t) : Z := SkipList.binary_size mt.

Definition size (mt : t) : Z := SkipList.size mt.

End MemTable.

(** ** db.hpp *)

Module DB.
Import Word Result.
Local Open Scope Z_scope.

(** [struct DBConfig]: the field the write path reads. *)
Record DBConfig : Type := mkConfig {
  memtable_max_size : Z
}.

Definition default_config : DBConfig :=
  {| memtable_max_size := 4096 * 1024 - 1024 * 1024 |}.

(** [class DB] as the calling thread sees it: the active memtable, the
    vector of memtables waiting to be flushed, the manifest at the back
    of [manifest_queue_], and the process-wide counter behind
    [GlobalRand].  The locks are left out (the calls run one at a time),
    and so is the flush thread [ToSSTLoop]: the states below are those in
    which it has not yet taken a memtable from [inmemtables_]. *)
Record t : Type := mk {
  config_ : DBConfig;
  memtable_ : MemTable.t;
  inmemtables_ : list MemTable.t;
  manifest_ : Manifest.t;
  counter_ : Z
}.

(** The constructor, in a directory without a manifest file and a process
    whose counter stands at [counter].  The flush thread it starts waits
    until [inmemtables_] holds a memtable. *)
Definition create (config : DBConfig) (counter : Z) : t :=
  {| config_ := config; memtable_ := MemTable.create; inmemtables_ := [];
     manifest_ := Manifest.fresh; counter_ := counter |}.

(** [bool Get(key, value&)]: the active memtable, the waiting memtables
    from the newest to the oldest, then the manifest. *)
Definition Get (db : t) (k : string) : result (option string) :=
  r ← MemTable.Get (memtable_ db) k;
  match r with
  | Some v => Ok (Some v)
  | None =>
      r ← Manifest.first_hit (fun mt => MemTable.Get mt k) (rev (inmemtables_ db));
      match r with
      | Some v => Ok (Some v)
      | None => Manifest.Get (manifest_ db) k
      end
  end.

(** The draws one call of [Put] may take from the counter. *)
Definition draw_budget : nat := 64.

(** [void Put(key, value)]: into the active memtable, which goes to the
    waiting vector, replaced by an empty one, once its binary size
    exceeds [memtable_max_size].  In that branch the source also wakes the
    flush thread ([to_sst_cv_.notify_one()]); the state returned is the
    one the caller leaves, before that thread takes the memtable out of
    [inmemtables_]. *)
Definition Put (db : t) (k v : string) : result t :=
  let draws := GlobalRandom.observed (counter_ db) (repeat 0%nat draw_budget) in
  '(mt, rest) ← MemTable.Put (memtable_ db) k v draws;
  let counter := GlobalRandom.skip (draw_budget - length rest) (counter_ db) in
  if memtable_max_size (config_ db) <? MemTable.binary_size mt then
    Ok {| config_ := config_ db; memtable_ := MemTable.create;
          inmemtables_ := inmemtables_ db ++ [mt];
          manifest_ := manifest_ db; counter_ := counter |}
  else
    Ok {| config_ := config_ db; memtable_ := mt;
          inmemtables_ := inmemtables_ db;
          manifest_ := manifest_ db; counter_ := counter |}.

(** The first step of the body of [ToSSTLoop], the flush thread, once
    [inmemtables_] is not empty:
    [auto memtable = inmemtables_.front(); inmemtables_.erase(inmemtables_.begin());].
    The thread then builds the table ([ToSST]) and appends the new
    manifest to [manifest_queue_] only at the end of that call. *)
Definition ToSSTLoop_take (db : t) : option (MemTable.t * t) :=
  match inmemtables_ db with
  | [] => None
  | mt :: rest =>
      Some (mt, {| config_ := config_ db; memtable_ := memtable_ db;
                   inmemtables_ := rest; manifest_ := manifest_ db;
                   counter_ := counter_ db |})
  end.

(** A run of puts, stopping at the first that does not end well. *)
Fixpoint puts (db : t) (kvs : list (string * string)) : result t :=
  match kvs with
  | [] => Ok db
  | (k, v) :: kvs => db ← Put db k v; puts db kvs
  end.

(** An engine with a memtable limit of 3 bytes in a fresh process. *)
Definition small_db : t := create {| memtable_max_size := 3 |} 0.

End DB.

(** ** raft/pod.hpp: the replicator of one follower *)

Module Follower.
Local Open Scope Z_scope.

(** The count at the end of a round of [Follower::Run]:
    [int sum = 2; for (auto follower_ptr : other_followers_)
       if (follower_ptr->nextindex() >= nextindex_) ++sum;]
    [others] are the [nextindex_] of the other followers. *)
Definition caught_up (nextindex : Z) (others : list Z) : Z :=
  fold_left (fun sum n => if nextindex <=? n then sum + 1 else sum) others 2.

(** [if (sum >= (sum + static_cast<int>(other_followers_.size()) + 1) / 2)]:
    the sums are far from the ends of [int], and the division rounds
    towards zero on numbers that are not negative. *)
Definition commits (nextindex : Z) (others : list Z) : bool :=
  let sum := caught_up nextindex others in
  (sum + Pod.to_int32 (Z.of_nat (length others)) + 1) / 2 <=? sum.

(** The end of the round: [main_log_->UpdateCommit(nextindex_)] when the
    test holds. *)
Definition round_end (log : RaftLog.t) (nextindex : Z) (others : list Z) : RaftLog.t :=
  if commits nextindex others
  then RaftLog.UpdateCommit log (Pod.to_size_t nextindex)
  else log.

End Follower.

(* ===================================================================== *)
(** * Part II: theorems                                                   *)
(* ===================================================================== *)

(** Split a goal into its conjuncts, and nothing else. *)
Ltac conj_split := repeat match goal with |- _ /\ _ => split end.

(** ** Machine integers *)

Module WordFacts.
Import Word.
Local Open Scope Z_scope.

Lemma wrap64_small x : is_size_t x -> wrap64 x = x.
Proof. intros H. apply Z.mod_small. exact H. Qed.

Lemma wrap64_range x : is_size_t (wrap64 x).
Proof. apply Z.mod_pos_bound. reflexivity. Qed.

Lemma size_max_eq : size_max = 18446744073709551616.
Proof. reflexivity. Qed.

End WordFacts.

(** ** The Raft log *)

Module RaftLogFacts.
Import Word WordFacts RaftLog.
Local Open Scope Z_scope.

(** C6. [RaftLog::Put(key, value, term, idx)] on a running log: when the
    ring is full it fails and the log is exactly as before; otherwise it
    stores an entry carrying index [index_ + 1] right behind the head,
    advances [index_] and the head by one, leaves [commited_] and the tail
    alone and returns the new index. *)
Theorem Put_appends_or_leaves_unchanged (l : t) (key value : string) (term : Z) :
  stop_ l = false ->
  is_size_t (index_ l + 1) ->
  is_size_t (RingBufferQueue.head_ (queue_ l) + 1) ->
  0 <= commited_ l ->
  (full (queue_ l) = true ->
     Put l key value term = RingBufferQueue.Done (None, l))
  /\ (full (queue_ l) = false ->
      RingBufferQueue.head_ (queue_ l) + 1 < RingBufferQueue.ring_buffer_size_ ->
      Put l key value term =
        RingBufferQueue.Done
          (Some (index_ l + 1),
           {| stop_ := false; index_ := index_ l + 1;
              queue_ :=
                {| RingBufferQueue.data_ :=
                     <[RingBufferQueue.head_ (queue_ l) + 1 := local_entry l key value term]>
                       (RingBufferQueue.data_ (queue_ l));
                   RingBufferQueue.head_ := RingBufferQueue.head_ (queue_ l) + 1;
                   RingBufferQueue.tail_ := RingBufferQueue.tail_ (queue_ l) |};
              commited_ := commited_ l; last_append_ := last_append_ l;
              start_index_ := start_index_ l |})).
Proof.
  intros Hstop Hidx Hhead Hc.
  unfold full, Put, after_push, RingBufferQueue.PushBack, local_entry.
  rewrite Hstop, !(wrap64_small _ Hidx), !(wrap64_small _ Hhead).
  split.
  - intros ->. reflexivity.
  - intros -> Hlt.
    destruct (Z.ltb_spec (RingBufferQueue.head_ (queue_ l) + 1)
                RingBufferQueue.ring_buffer_size_) as [_|Hge]; [|lia].
    cbn. destruct (Z.ltb_spec (commited_ l) 0) as [Hneg|_]; [lia|]. reflexivity.
Qed.

Lemma Put_appends_or_leaves_unchanged_witness :
  Put full_ring "k" "v" 1 = RingBufferQueue.Done (None, full_ring)
  /\ exists l', Put three_entries "k" "v" 1 = RingBufferQueue.Done (Some 4, l')
                /\ index_ l' = 4 /\ commited_ l' = 0.
Proof.
  split.
  - apply (Put_appends_or_leaves_unchanged full_ring "k" "v" 1);
      try reflexivity; vm_compute; intuition congruence.
  - eexists. split.
    + apply (Put_appends_or_leaves_unchanged three_entries "k" "v" 1);
        try reflexivity; vm_compute; intuition congruence.
    + split; reflexivity.
Defined.

(** *** The ordering of the counters *)

Lemma ordered_fresh : ordered fresh.
Proof. unfold ordered; cbn; lia. Qed.

Lemma ordered_Load v : ordered (Load v).
Proof. unfold ordered; cbn; lia. Qed.

(** A local [Put] keeps the ordering and does not move [commited_]. *)
Lemma ordered_Put l key value term r l' :
  ordered l -> 0 <= start_index_ l -> is_size_t (index_ l + 1) ->
  Put l key value term = RingBufferQueue.Done (r, l') ->
  ordered l' /\ commited_ l' = commited_ l /\ last_append_ l' = last_append_ l.
Proof.
  intros (H1 & H2 & H3) H0 Hr. unfold Put, after_push.
  destruct (stop_ l); [intros [= <- <-]; unfold ordered; auto|].
  destruct (RingBufferQueue.PushBack _ _) as [[[] q']|]; intros [= <- <-];
    unfold ordered; cbn; rewrite ?(wrap64_small _ Hr); auto.
  destruct (Z.ltb_spec (commited_ l) 0); lia.
Qed.

(** [UpdateCommit] keeps the ordering and never lowers [commited_]. *)
Lemma ordered_UpdateCommit l c :
  ordered l ->
  ordered (UpdateCommit l c) /\ commited_ l <= commited_ (UpdateCommit l c).
Proof. intros (H1 & H2 & H3). unfold ordered, UpdateCommit; cbn. lia. Qed.

(** The applier keeps the ordering and never lowers [last_append_]. *)
Lemma ordered_applier_step l :
  ordered l -> 0 <= start_index_ l -> is_size_t (commited_ l) ->
  ordered (fst (applier_step l))
  /\ last_append_ l <= last_append_ (fst (applier_step l)).
Proof.
  intros (H1 & H2 & H3) H0 Hc. unfold applier_step.
  destruct (Z.ltb_spec (last_append_ l) (commited_ l)); cbn; unfold ordered; cbn;
    [|lia].
  rewrite wrap64_small by (unfold is_size_t in *; lia). lia.
Qed.

(** [Reset] to the committed index, the only call the node makes, keeps the
    ordering. *)
Lemma ordered_Reset_commited l :
  ordered l -> 0 <= start_index_ l -> is_size_t (index_ l) ->
  ordered (Reset l (commited_ l)).
Proof.
  intros (H1 & H2 & H3) H0 Hi. unfold Reset.
  destruct (Z.ltb_spec (commited_ l) (index_ l)) as [Hlt|]; [|unfold ordered; auto].
  unfold RingBufferQueue.Truncate.
  destruct (_ =? _); unfold ordered; cbn.
  - rewrite Z.sub_0_r, wrap64_small by exact Hi. lia.
  - pose proof (wrap64_range (RingBufferQueue.head_ (queue_ l) - RingBufferQueue.tail_ (queue_ l))) as Hs.
    rewrite (wrap64_small (index_ l - commited_ l)) by (unfold is_size_t in *; lia).
    rewrite wrap64_small by (unfold is_size_t in *; lia). lia.
Qed.

(** C3. The ordering [start_index ≤ last_applied ≤ commited ≤ index] is
    not kept by [RaftLog::Put(Entry&)]: on a fresh log, a replicated entry
    with index 1 that carries the leader's committed index 5 is appended
    and [commited_] jumps to 5 while [index_] is 1.  The state is reachable
    and violates the ordering. *)
Theorem PutEntry_commited_overtakes_index :
  exists l',
    PutEntry fresh (mkEntry 1 1 "k" "v" 0 5) = RingBufferQueue.Done (true, l')
    /\ reachable l'
    /\ index_ l' = 1 /\ commited_ l' = 5
    /\ ~ ordered l'.
Proof.
  eexists. split; [reflexivity|]. split; [|split; [reflexivity|split; [reflexivity|]]].
  - eapply reach_step with (o := OpPutEntry (mkEntry 1 1 "k" "v" 0 5));
      [apply reach_fresh|reflexivity].
  - intros (_ & _ & H). vm_compute in H. apply H. reflexivity.
Qed.

End RaftLogFacts.

(** ** The Raft node *)

Module PodFacts.
Import Word WordFacts Pod.
Local Open Scope Z_scope.

(** C4. [Pod::Vote] grants exactly when the request's term is not older
    and, for an equal term, the candidate's log index is at least the
    voter's and the voter has not voted.  A grant for a newer term adopts
    the term and makes the node a follower; every grant leaves [voted_]
    set; a refusal changes nothing but the heartbeat clock.  An equal term
    with a shorter log is refused. *)
Theorem Vote_grants_iff (p : t) (req : RequestVoteReq) (now : Z) :
  is_size_t (rv_index req) ->
  (fst (Vote p req now) = true <->
     term_ p <= rv_term req
     /\ (rv_term req = term_ p ->
         RaftLog.index (raft_log_ p) <= rv_index req /\ voted_ p = false))
  /\ (fst (Vote p req now) = true -> term_ p < rv_term req ->
      snd (Vote p req now) =
        {| term_ := rv_term req; voted_ := true; status_ := Follower;
           leader_id_ := leader_id_ p; last_time_ := now;
           replicating_ :=
             if PodStatus_eqb (status_ p) Leader then false else replicating_ p;
           raft_log_ := raft_log_ p |})
  /\ (fst (Vote p req now) = true -> rv_term req = term_ p ->
      snd (Vote p req now) =
        {| term_ := term_ p; voted_ := true; status_ := status_ p;
           leader_id_ := leader_id_ p; last_time_ := now;
           replicating_ := replicating_ p; raft_log_ := raft_log_ p |})
  /\ (fst (Vote p req now) = false -> snd (Vote p req now) = set_last_time p now)
  /\ (rv_term req = term_ p -> rv_index req < RaftLog.index (raft_log_ p) ->
      fst (Vote p req now) = false).
Proof.
  intros Hidx. unfold Vote, to_size_t. rewrite (wrap64_small _ Hidx). cbn.
  destruct (Z.ltb_spec (rv_term req) (term_ p)) as [Hlt|Hge];
    destruct (Z.eqb_spec (rv_term req) (term_ p)) as [Heq|Hne];
    destruct (Z.ltb_spec (rv_index req) (RaftLog.index (raft_log_ p))) as [Hs|Hs];
    destruct (Z.ltb_spec (term_ p) (rv_term req)) as [Hn|Hn];
    destruct (voted_ p) eqn:Hv; cbn;
    try lia; intuition (try lia; try congruence).
Qed.

Lemma Vote_grants_iff_witness :
  fst (Vote (init 0 0 RaftLog.three_entries) (mkVoteReq 2 0 1) 7) = false
  /\ fst (Vote (init 0 0 RaftLog.three_entries) (mkVoteReq 2 0 3) 7) = true
  /\ fst (Vote (init 0 0 RaftLog.three_entries) (mkVoteReq 2 4 0) 7) = true.
Proof.
  pose proof (Vote_grants_iff (init 0 0 RaftLog.three_entries) (mkVoteReq 2 0 1) 7) as H1.
  pose proof (Vote_grants_iff (init 0 0 RaftLog.three_entries) (mkVoteReq 2 0 3) 7) as H2.
  pose proof (Vote_grants_iff (init 0 0 RaftLog.three_entries) (mkVoteReq 2 4 0) 7) as H3.
  split; [|split].
  - apply H1; [vm_compute; intuition congruence|reflexivity|reflexivity].
  - apply H2; [vm_compute; intuition congruence|]. cbn. split; [lia|]. intros _. split; [lia|reflexivity].
  - apply H3; [vm_compute; intuition congruence|]. cbn. split; [lia|]. intros; lia.
Defined.

End PodFacts.

(** ** The follower's append handler *)

Module AppendFacts.
Import Word WordFacts Pod.
Local Open Scope Z_scope.





End AppendFacts.

(** ** The block cache *)

Module BlockCacheFacts.
Import Word WordFacts BlockCache.
Local Open Scope Z_scope.

Section Cache.
Context {double : Type}.
Variable utilization_below : Z -> Z -> double -> bool.

Abbreviation cache := (BlockCache.t double).

Local Arguments bytes_of : simpl never.

Lemma size_nonneg b : 0 <= size b.
Proof. unfold size. lia. Qed.

Lemma bytes_of_cons blocks p l :
  bytes_of blocks (p :: l) =
  match blocks !! p with
  | Some b => size b + bytes_of blocks l
  | None => bytes_of blocks l
  end.
Proof. reflexivity. Qed.

Lemma bytes_of_nonneg blocks l : 0 <= bytes_of blocks l.
Proof.
  induction l as [|p l IH]; [unfold bytes_of; cbn; lia|]. rewrite bytes_of_cons.
  destruct (blocks !! p) as [b|]; [pose proof (size_nonneg b)|]; lia.
Qed.


Lemma bytes_of_insert_fresh blocks l p b :
  p ∉ l -> bytes_of (<[p := b]> blocks) l = bytes_of blocks l.
Proof.
  induction l as [|q l IH]; [reflexivity|].
  intros Hn. apply not_elem_of_cons in Hn as [Hne Hn].
  rewrite !bytes_of_cons, IH by exact Hn.
  rewrite lookup_insert_ne by congruence. reflexivity.
Qed.





End Cache.


Lemma one_block_accounted : accounted one_block.
Proof.
  unfold accounted, one_block; cbn. conj_split.
  - apply NoDup_singleton.
  - intros p Hp. apply list_elem_of_singleton in Hp as ->. rewrite lookup_insert_eq. eauto.
  - intros p Hp. apply list_elem_of_singleton in Hp as ->. lia.
  - reflexivity.
  - reflexivity.
  - vm_compute. intuition congruence.
  - vm_compute. intuition congruence.
Qed.


End BlockCacheFacts.

(** ** The level generator of the skip list *)

Module RandLevelFacts.
Import Word WordFacts GlobalRandom RandLevel.
Local Open Scope Z_scope.

Lemma RandLevel_loop_counts (succ : list Z) (d : Z) (rest : list Z) (level : Z) :
  Forall (fun r => success r = true) succ -> success d = false ->
  0 <= level -> level + Z.of_nat (length succ) < size_max ->
  RandLevel_loop (succ ++ d :: rest) level
  = Some (level + Z.of_nat (length succ), rest).
Proof.
  revert level. induction succ as [|r succ IH]; intros level Hs Hd H0 Hr.
  - cbn. unfold success in Hd. rewrite Hd. f_equal. f_equal. lia.
  - apply Forall_cons in Hs as [Hr0 Hs]. cbn [app RandLevel_loop].
    unfold success in Hr0. rewrite Hr0.
    cbn [length] in Hr.
    rewrite IH; auto.
    + rewrite wrap64_small by (unfold is_size_t; lia). cbn [length].
      f_equal. f_equal. lia.
    + rewrite wrap64_small by (unfold is_size_t; lia). lia.
    + rewrite wrap64_small by (unfold is_size_t; lia). lia.
Qed.

(** The part of C9 that holds: [RandLevel] returns the number of leading
    successful trials plus one. *)
Lemma RandLevel_counts_successes (succ : list Z) (d : Z) (rest : list Z) :
  Forall (fun r => success r = true) succ -> success d = false ->
  1 + Z.of_nat (length succ) < size_max ->
  RandLevel (succ ++ d :: rest) = Some (1 + Z.of_nat (length succ), rest).
Proof. intros. apply RandLevel_loop_counts; auto. lia. Qed.

(** With the counter drawn by this caller alone, two draws settle the
    level, which is 1 or 2. *)
Lemma RandLevel_alone_at_most_2 (counter : Z) (n : nat) :
  is_size_t counter -> counter + 2 < size_max ->
  exists level rest,
    RandLevel (observed counter (repeat 0%nat (S (S n)))) = Some (level, rest)
    /\ 1 <= level <= 2.
Proof.
  intros Hc Hr. cbn [repeat observed skip GlobalRand]. unfold RandLevel.
  cbn [RandLevel_loop snd].
  destruct (Z.land counter 3 =? 0) eqn:H0.
  - rewrite (wrap64_small (counter + 1)) by (unfold is_size_t in *; lia).
    destruct (Z.land (counter + 1) 3 =? 0) eqn:H1.
    + exfalso. apply Z.eqb_eq in H0, H1.
      change 3 with (Z.ones 2) in H0, H1. rewrite Z.land_ones in H0, H1 by lia.
      change (2 ^ 2) with 4 in *.
      pose proof (Z.div_mod counter 4). pose proof (Z.div_mod (counter + 1) 4). lia.
    + eexists _, _. split; [reflexivity|]. change (wrap64 (1 + 1)) with 2. lia.
  - eexists _, _. split; [reflexivity|]. lia.
Qed.

(** C9.  The result is not capped at 32.  When the shared counter stands at
    0 and other callers take three draws between consecutive draws of this
    caller, [RandLevel] sees 0, 4, ..., 124 and then 125: 32 successful
    trials, and it returns 33. *)
Theorem RandLevel_exceeds_32 :
  observed 0 (0%nat :: repeat 3%nat 31 ++ [0%nat])
  = map (fun i => 4 * Z.of_nat i) (seq 0 32) ++ [125]
  /\ RandLevel (observed 0 (0%nat :: repeat 3%nat 31 ++ [0%nat])) = Some (33, [])
  /\ 32 < 33.
Proof. split; [vm_compute; reflexivity|]. split; [vm_compute; reflexivity|lia]. Qed.

End RandLevelFacts.

(** ** Byte buffers *)

Module BufferFacts.
Import Word WordFacts Buffer.
Local Open Scope Z_scope.

Lemma Z_of_byte_range b : 0 <= Z_of_byte b < 256.
Proof. unfold Z_of_byte. pose proof (Byte.to_N_bounded b). lia. Qed.












End BufferFacts.

(** ** The Bloom filter *)

Module BloomFilterFacts.
Import Word WordFacts Buffer BufferFacts BloomFilter.
Local Open Scope Z_scope.








(** [Check] reads the length, the seeds and the bit array only. *)
Lemma check_seeds_ext (f g : t) (s : list Byte.byte) (seeds : list Z) :
  length_ f = length_ g -> data_ f = data_ g ->
  check_seeds f s seeds = check_seeds g s seeds.
Proof.
  intros Hl Hd. induction seeds as [|seed seeds IH]; [reflexivity|].
  cbn [check_seeds]. unfold bit_index. rewrite Hl, Hd, IH. reflexivity.
Qed.





(** Supporting facts: a filter never forgets a key it was given. *)

Lemma insert_seeds_length f s seeds data data' :
  insert_seeds f s seeds data = Some data' -> length data' = length data.
Proof.
  revert data. induction seeds as [|seed seeds IH]; intros data; cbn [insert_seeds].
  - intros [= <-]. reflexivity.
  - destruct (bit_index f s seed) as [key|]; [|discriminate].
    destruct (data !! _) as [w|]; [|discriminate].
    intros H. apply IH in H. rewrite length_insert in H. exact H.
Qed.

Lemma mask_pos key : 0 < mask key.
Proof.
  unfold mask. rewrite Z.shiftl_1_l. apply Z.pow_pos_nonneg; [lia|].
  apply Z.land_nonneg. lia.
Qed.

Lemma land_lor_mask w key : 0 <= w -> Z.land (Z.lor w (mask key)) (mask key) <> 0.
Proof.
  intros Hw. rewrite Z.land_lor_distr_l, Z.land_diag.
  pose proof (mask_pos key).
  intros H0. apply Z.lor_eq_0_iff in H0 as [_ H0]. lia.
Qed.

(** A bit that is set stays set under further insertions. *)
Lemma insert_seeds_keeps_bit f s seeds data data' (i : nat) (m w : Z) :
  insert_seeds f s seeds data = Some data' ->
  data !! i = Some w -> Z.land w m <> 0 ->
  exists w', data' !! i = Some w' /\ Z.land w' m <> 0.
Proof.
  revert data w. induction seeds as [|seed seeds IH]; intros data w; cbn [insert_seeds].
  - intros [= <-] Hw Hm. eauto.
  - destruct (bit_index f s seed) as [key|]; [|discriminate].
    destruct (data !! Z.to_nat (key / 64)) as [w0|] eqn:Hw0; [|discriminate].
    intros H Hw Hm.
    destruct (decide (i = Z.to_nat (key / 64))) as [->|Hne].
    + eapply IH; [exact H|apply list_lookup_insert_eq; eapply lookup_lt_Some; eauto|].
      assert (w0 = w) by congruence. subst w0.
      rewrite Z.land_lor_distr_l. intros H0.
      apply Z.lor_eq_0_iff in H0 as [H0 _]. contradiction.
    + eapply IH; [exact H| |exact Hm].
      rewrite list_lookup_insert_ne by congruence. exact Hw.
Qed.

(** *** No false negatives *)

Lemma bit_index_range f s seed key :
  0 < length_ f -> bit_index f s seed = Some key -> 0 <= key < length_ f.
Proof.
  intros Hl. unfold bit_index. destruct (Z.eqb_spec (length_ f) 0); [lia|].
  intros [= <-]. apply Z.mod_pos_bound. exact Hl.
Qed.

Lemma bit_index_defined f s seed :
  0 < length_ f -> exists key, bit_index f s seed = Some key.
Proof.
  intros Hl. unfold bit_index. destruct (Z.eqb_spec (length_ f) 0); [lia|]. eauto.
Qed.

Lemma word_in_range (len key : Z) (data : list Z) :
  0 <= key < len -> Z.of_nat (length data) = len / 64 + 1 ->
  (Z.to_nat (key / 64) < length data)%nat.
Proof.
  intros Hk Hd.
  assert (key / 64 <= len / 64) by (apply Z.div_le_mono; lia).
  assert (0 <= key / 64) by (apply Z.div_pos; lia). lia.
Qed.

Lemma mask_nonneg key : 0 <= mask key.
Proof. pose proof (mask_pos key). lia. Qed.

(** [Insert] on a sized array succeeds, keeps it sized, and sets every bit
    of the key. *)
Lemma insert_seeds_sets f s seeds data :
  0 < length_ f -> Z.of_nat (length data) = length_ f / 64 + 1 ->
  Forall (fun w => 0 <= w) data ->
  exists data',
    insert_seeds f s seeds data = Some data'
    /\ length data' = length data
    /\ Forall (fun w => 0 <= w) data'
    /\ bits_set f data' s seeds.
Proof.
  intros Hl. revert data. induction seeds as [|seed seeds IH]; intros data Hd Hw.
  - exists data. cbn. repeat split; auto. constructor.
  - cbn [insert_seeds].
    destruct (bit_index_defined f s seed Hl) as [key Hkey]. rewrite Hkey.
    pose proof (bit_index_range f s seed key Hl Hkey) as Hr.
    pose proof (word_in_range _ _ _ Hr Hd) as Hi.
    destruct (lookup_lt_is_Some_2 data _ Hi) as [w Hw0]. rewrite Hw0.
    assert (H0w : 0 <= w) by (eapply Forall_lookup_1 in Hw; eauto; exact Hw).
    destruct (IH (<[Z.to_nat (key / 64) := Z.lor w (mask key)]> data))
      as (data' & Hins & Hlen & Hnn & Hset).
    { rewrite length_insert. exact Hd. }
    { apply Forall_insert; auto. apply Z.lor_nonneg. split; [exact H0w|apply mask_nonneg]. }
    exists data'. rewrite length_insert in Hlen. repeat split; auto.
    constructor; [|exact Hset].
    destruct (insert_seeds_keeps_bit f s seeds _ data' (Z.to_nat (key / 64)) (mask key)
                (Z.lor w (mask key)) Hins) as (w' & Hw' & Hb).
    + apply list_lookup_insert_eq. exact Hi.
    + apply land_lor_mask. exact H0w.
    + exists key, w'. auto.
Qed.

Lemma bits_set_check f s seeds :
  bits_set f (data_ f) s seeds -> check_seeds f s seeds = Some true.
Proof.
  induction seeds as [|seed seeds IH]; intros H; [reflexivity|].
  apply Forall_cons in H as [(key & w & Hk & Hw & Hb) H]. cbn [check_seeds].
  rewrite Hk, Hw. destruct (Z.eqb_spec (Z.land w (mask key)) 0); [contradiction|].
  apply IH, H.
Qed.

Lemma check_bits_set f s seeds :
  check_seeds f s seeds = Some true -> bits_set f (data_ f) s seeds.
Proof.
  induction seeds as [|seed seeds IH]; intros H; [constructor|].
  cbn [check_seeds] in H.
  destruct (bit_index f s seed) as [key|] eqn:Hk; [|discriminate].
  destruct (data_ f !! Z.to_nat (key / 64)) as [w|] eqn:Hw; [|discriminate].
  destruct (Z.eqb_spec (Z.land w (mask key)) 0); [discriminate|].
  constructor; [exists key, w; auto|apply IH, H].
Qed.

Lemma bits_set_kept f s0 seeds0 s seeds data data' :
  insert_seeds f s seeds data = Some data' ->
  bits_set f data s0 seeds0 -> bits_set f data' s0 seeds0.
Proof.
  intros Hins H. unfold bits_set in *. eapply Forall_impl; [exact H|].
  intros seed (key & w & Hk & Hw & Hb). cbn beta.
  destruct (insert_seeds_keeps_bit f s seeds data data' _ _ _ Hins Hw Hb) as (w' & Hw' & Hb').
  exists key, w'. auto.
Qed.

Lemma bits_set_ext f g data s seeds :
  length_ f = length_ g -> bits_set f data s seeds -> bits_set g data s seeds.
Proof.
  intros Hl H. unfold bits_set in *. eapply Forall_impl; [exact H|].
  intros seed (key & w & Hk & Hw & Hb). exists key, w. repeat split; auto.
  unfold bit_index in *. rewrite <- Hl. exact Hk.
Qed.

(** A sized filter takes every key, stays sized, answers [true] for the
    key it took, and keeps answering [true] for what it held. *)
Lemma Insert_no_false_negative (f : t) (s : list Byte.byte) :
  sized f ->
  exists f',
    Insert f s = Some f'
    /\ sized f'
    /\ length_ f' = length_ f /\ seed_ f' = seed_ f /\ hash_num_ f' = hash_num_ f
    /\ size_ f' = size_ f
    /\ Check f' s = Some true
    /\ (forall s0, Check f s0 = Some true -> Check f' s0 = Some true).
Proof.
  intros (Hl & Hd & Hw).
  destruct (insert_seeds_sets f s (seed_ f) (data_ f) Hl Hd Hw)
    as (data' & Hins & Hlen & Hnn & Hset).
  unfold Insert. rewrite Hins. eexists. split; [reflexivity|].
  conj_split; try reflexivity.
  - unfold sized; cbn. rewrite Hlen. auto.
  - unfold Check; cbn [seed_]. apply bits_set_check. cbn [data_].
    eapply bits_set_ext; [|exact Hset]. reflexivity.
  - intros s0 H0. unfold Check in *; cbn [seed_]. apply bits_set_check. cbn [data_].
    apply check_bits_set in H0.
    eapply bits_set_ext; [|eapply bits_set_kept; [exact Hins|exact H0]]. reflexivity.
Qed.

(** [Init] on a default-constructed filter gives a sized one. *)
Lemma Init_sized (len hash_num counter : Z) :
  0 < len -> len / 64 + 1 < size_max ->
  sized (fst (Init empty len hash_num counter))
  /\ length_ (fst (Init empty len hash_num counter)) = len.
Proof.
  intros Hl Hr. unfold Init.
  destruct (draw_seeds (Z.to_nat hash_num) counter) as [seeds counter'].
  assert (0 <= len / 64) by (apply Z.div_pos; lia).
  unfold sized; cbn. rewrite wrap64_small by (unfold is_size_t; lia).
  rewrite repeat_length. conj_split; auto; try lia.
  apply Forall_forall. intros w Hw. apply list_elem_of_In, repeat_spec in Hw. lia.
Qed.

End BloomFilterFacts.

(** ** The skip list *)

Module SkipListFacts.
Import Word WordFacts SkipList.
Local Open Scope Z_scope.













End SkipListFacts.

(** ** The order on keys *)

Module KeyOrder.

Lemma compare_refl (s : string) : String.compare s s = Eq.
Proof.
  induction s as [|a s IH]; [reflexivity|]. cbn.
  unfold Ascii.compare. rewrite N.compare_refl. exact IH.
Qed.

Lemma compare_lt_trans (a b c : string) :
  String.compare a b = Lt -> String.compare b c = Lt -> String.compare a c = Lt.
Proof.
  revert b c. induction a as [|x a IH]; intros [|y b] [|z c]; cbn; try discriminate; auto.
  unfold Ascii.compare.
  destruct (N.compare_spec (N_of_ascii x) (N_of_ascii y)) as [Hxy|Hxy|Hxy];
    destruct (N.compare_spec (N_of_ascii y) (N_of_ascii z)) as [Hyz|Hyz|Hyz];
    try discriminate; intros H1 H2.
  - rewrite Hxy, Hyz, N.compare_refl. eauto.
  - rewrite Hxy. apply N.compare_lt_iff in Hyz. rewrite Hyz. reflexivity.
  - rewrite <- Hyz. apply N.compare_lt_iff in Hxy. rewrite Hxy. reflexivity.
  - assert (H : (N_of_ascii x < N_of_ascii z)%N) by (eapply N.lt_trans; eauto).
    apply N.compare_lt_iff in H. rewrite H. reflexivity.
Qed.

Lemma ltb_lt (a b : string) : String.ltb a b = true <-> String.compare a b = Lt.
Proof. unfold String.ltb. destruct (String.compare a b); split; congruence. Qed.

Lemma ltb_irrefl (a : string) : String.ltb a a = false.
Proof. unfold String.ltb. rewrite compare_refl. reflexivity. Qed.

Lemma ltb_trans (a b c : string) :
  String.ltb a b = true -> String.ltb b c = true -> String.ltb a c = true.
Proof. rewrite !ltb_lt. apply compare_lt_trans. Qed.

Lemma ltb_asym (a b : string) : String.ltb a b = true -> String.ltb b a = false.
Proof.
  intros H. destruct (String.ltb b a) eqn:Hba; [|reflexivity].
  pose proof (ltb_trans _ _ _ H Hba) as Haa. rewrite ltb_irrefl in Haa. discriminate.
Qed.

Lemma ltb_neq (a b : string) : String.ltb a b = true -> a <> b.
Proof. intros H ->. rewrite ltb_irrefl in H. discriminate. Qed.

End KeyOrder.

(** ** Sorted tables *)

Module SSTFacts.
Import Word WordFacts Result SST KeyOrder.

Lemma ascending_tail e v : ascending (e :: v) -> ascending v.
Proof. cbn. tauto. Qed.

(** In an ascending table the first key is below every later key. *)
Lemma ascending_head_lt e v e' :
  ascending (e :: v) -> e' ∈ v -> String.ltb (fst e) (fst e') = true.
Proof.
  revert e. induction v as [|x v IH]; intros e Ha Hin; [inversion Hin|].
  destruct Ha as [Hex Hv]. apply elem_of_cons in Hin as [->|Hin]; [exact Hex|].
  eapply ltb_trans; [exact Hex|]. apply IH; auto.
Qed.

Lemma ascending_lookup_lt v (i j : nat) a b :
  ascending v -> (i < j)%nat -> v !! i = Some a -> v !! j = Some b ->
  String.ltb (fst a) (fst b) = true.
Proof.
  revert i j. induction v as [|e v IH]; intros i j Ha Hij Hi Hj; [discriminate|].
  destruct j as [|j]; [lia|]. destruct i as [|i].
  - injection Hi as ->. eapply ascending_head_lt; [exact Ha|].
    eapply list_elem_of_lookup_2. exact Hj.
  - eapply (IH i j); eauto using ascending_tail. lia.
Qed.

Lemma ascending_app_inv_l u v : ascending (u ++ v) -> ascending u.
Proof.
  induction u as [|e u IH]; [cbn; auto|].
  intros [H1 H2]. split; [|apply IH, H2].
  destruct u; [exact I|exact H1].
Qed.

(** The binary search of a data block stops on the first entry that is
    not below the key. *)
Lemma lower_bound_spec (v : list Entry) (k : string) (fuel l r : nat) :
  ascending v -> (l <= r <= length v)%nat -> (r - l < fuel)%nat ->
  (forall i e, (i < l)%nat -> v !! i = Some e -> String.ltb (fst e) k = true) ->
  (forall i e, (r <= i)%nat -> v !! i = Some e -> String.ltb (fst e) k = false) ->
  (l <= lower_bound fuel v k l r <= r)%nat
  /\ (forall i e, (i < lower_bound fuel v k l r)%nat -> v !! i = Some e ->
        String.ltb (fst e) k = true)
  /\ (forall i e, (lower_bound fuel v k l r <= i)%nat -> v !! i = Some e ->
        String.ltb (fst e) k = false).
Proof.
  intros Ha. revert l r. induction fuel as [|fuel IH]; intros l r Hlr Hf Hlo Hhi; [lia|].
  cbn [lower_bound]. cbv zeta.
  destruct (Nat.ltb_spec l r) as [Hlt|Hge].
  - pose proof (Nat.div2_div (l + r)) as Hdiv.
    assert (Hmid : (l <= Nat.div2 (l + r) < r)%nat).
    { rewrite Hdiv. split; [apply Nat.div_le_lower_bound; lia|].
      apply Nat.Div0.div_lt_upper_bound; lia. }
    destruct (v !! Nat.div2 (l + r)) as [e|] eqn:He;
      [|apply lookup_ge_None in He; exfalso; unfold Entry in *; lia].
    destruct (String.ltb (fst e) k) eqn:Hek.
    + assert (Hlo' : forall i e', (i < S (Nat.div2 (l + r)))%nat -> v !! i = Some e' ->
                                  String.ltb (fst e') k = true).
      { intros i e' Hi He'.
        destruct (decide (i = Nat.div2 (l + r))) as [->|Hne]; [congruence|].
        eapply ltb_trans; [|exact Hek].
        eapply (ascending_lookup_lt v i (Nat.div2 (l + r))); eauto. lia. }
      destruct (IH (S (Nat.div2 (l + r))) r ltac:(lia) ltac:(lia) Hlo' Hhi)
        as (H1 & H2 & H3).
      split; [lia|]. split; assumption.
    + assert (Hhi' : forall i e', (Nat.div2 (l + r) <= i)%nat -> v !! i = Some e' ->
                                  String.ltb (fst e') k = false).
      { intros i e' Hi He'.
        destruct (decide (i = Nat.div2 (l + r))) as [->|Hne]; [congruence|].
        destruct (String.ltb (fst e') k) eqn:He'k; [|reflexivity].
        assert (Hlt' : String.ltb (fst e) (fst e') = true)
          by (eapply (ascending_lookup_lt v (Nat.div2 (l + r)) i); eauto; lia).
        rewrite (ltb_trans _ _ _ Hlt' He'k) in Hek. discriminate. }
      destruct (IH l (Nat.div2 (l + r)) ltac:(lia) ltac:(lia) Hlo Hhi')
        as (H1 & H2 & H3).
      split; [lia|]. split; assumption.
  - assert (l = r) by lia. subst. split; [lia|]. split; auto.
Qed.

Lemma lookup_Some_elem v k x : lookup v k = Some x -> exists i, v !! i = Some (k, x).
Proof.
  induction v as [|[k' x'] v IH]; cbn; [discriminate|].
  destruct (String.eqb_spec k' k) as [->|Hne].
  - intros [= ->]. exists 0%nat. reflexivity.
  - intros H. destruct (IH H) as [i Hi]. exists (S i). exact Hi.
Qed.

Lemma lookup_None_elem v k i e : lookup v k = None -> v !! i = Some e -> fst e <> k.
Proof.
  revert i. induction v as [|[k' x'] v IH]; intros i; cbn; [discriminate|].
  destruct (String.eqb_spec k' k) as [->|Hne]; [discriminate|].
  intros H. destruct i as [|i]; cbn.
  - intros [= <-]. exact Hne.
  - eauto.
Qed.

Lemma searched_lookup v k : ascending v -> searched v k = lookup v k.
Proof.
  intros Ha. unfold searched.
  destruct (lower_bound_spec v k (S (length v)) 0 (length v) Ha)
    as (Hr & Hlo & Hhi); try (unfold Entry in *; lia).
  { intros i e Hi He. apply lookup_lt_Some in He. unfold Entry in *; lia. }
  set (r := lower_bound (S (length v)) v k 0 (length v)) in *.
  destruct (lookup v k) as [x|] eqn:Hl.
  - destruct (lookup_Some_elem _ _ _ Hl) as [i Hi].
    assert (Hri : (r <= i)%nat).
    { destruct (le_lt_dec r i); [auto|].
      pose proof (Hlo i _ ltac:(unfold Entry in *; lia) Hi) as H. cbn in H. rewrite ltb_irrefl in H.
      discriminate. }
    destruct (decide (r = i)) as [->|Hne].
    + rewrite Hi. cbn. rewrite String.eqb_refl. reflexivity.
    + destruct (lookup_lt_is_Some_2 v r) as [e He].
      { apply lookup_lt_Some in Hi. unfold Entry in *; lia. }
      pose proof (ascending_lookup_lt v r i e (k, x) Ha ltac:(unfold Entry in *; lia) He Hi) as H.
      cbn [fst] in H. rewrite (Hhi r e (le_n _) He) in H. discriminate.
  - destruct (v !! r) as [e|] eqn:He; [|reflexivity].
    destruct (String.eqb_spec (fst e) k) as [Hk|]; [|reflexivity].
    exfalso. eapply lookup_None_elem; eauto.
Qed.

End SSTFacts.

(** ** Compaction *)

Module ManifestFacts.
Import Word WordFacts Result SST Manifest KeyOrder SSTFacts.
Local Open Scope Z_scope.

(** *** Lookups in tables *)

Lemma lookup_absent (t : list Entry) (k : string) :
  (forall e, e ∈ t -> fst e <> k) -> lookup t k = None.
Proof.
  induction t as [|e t IH]; intros H; [reflexivity|]. cbn.
  destruct (String.eqb_spec (fst e) k) as [Hk|_].
  - exfalso. apply (H e); [left|exact Hk].
  - apply IH. intros e' He'. apply H. right. exact He'.
Qed.

(** Nothing in an ascending table is below its first key. *)
Lemma ascending_not_below_head (h : Entry) (t : list Entry) (e : Entry) :
  ascending (h :: t) -> e ∈ h :: t -> String.ltb (fst e) (fst h) = false.
Proof.
  intros Ha He. apply elem_of_cons in He as [->|He]; [apply ltb_irrefl|].
  apply ltb_asym. eapply ascending_head_lt; eauto.
Qed.

Section Built.
Variable bloom_params : Z -> Z * Z.

(** What [BloomFilter::Init] computes in floating point for a positive
    count: a positive bit length whose word array fits the address space. *)
Hypothesis bloom_params_sized :
  forall n, 0 < n ->
    0 < fst (bloom_params n) /\ fst (bloom_params n) / 64 + 1 < size_max.

Lemma insert_keys_spec (entries : list Entry) :
  forall f : BloomFilter.t,
    BloomFilter.sized f ->
    exists f',
      insert_keys f entries = Ok f'
      /\ BloomFilter.sized f'
      /\ (forall e, e ∈ entries ->
            BloomFilter.Check f' (key_bytes (fst e)) = Some true)
      /\ (forall s0, BloomFilter.Check f s0 = Some true ->
            BloomFilter.Check f' s0 = Some true).
Proof.
  induction entries as [|e entries IH]; intros f Hf.
  - exists f. conj_split; auto. intros e He. inversion He.
  - destruct (BloomFilterFacts.Insert_no_false_negative f (key_bytes (fst e)) Hf)
      as (f1 & Hins & Hf1 & _ & _ & _ & _ & Hchk & Hmono).
    destruct (IH f1 Hf1) as (f' & Hk & Hf' & Hall & Hmono').
    exists f'. cbn [insert_keys]. rewrite Hins. cbn. conj_split; auto.
    intros e' He'. apply elem_of_cons in He' as [->|He']; auto.
Qed.

(** The constructor succeeds on a non-empty vector of entries; the table
    holds the entries, is indexed by the first key, and its filter lets
    every key of the table through. *)
Lemma build_spec (first : Entry) (others : list Entry) (id counter : Z) :
  exists s counter',
    SST.build bloom_params (first :: others) id counter = Ok (s, counter')
    /\ data_index_ s = first :: others
    /\ index_key_ s = fst first
    /\ id_ s = id
    /\ forall e, e ∈ first :: others ->
         BloomFilter.Check (bloom_filter_ s) (key_bytes (fst e)) = Some true.
Proof.
  unfold SST.build.
  set (n := Z.of_nat (length (first :: others))).
  assert (Hn : 0 < n) by (subst n; cbn [length]; lia).
  destruct (bloom_params_sized n Hn) as [Hlen Hfit].
  destruct (bloom_params n) as [len hash_num]. cbn [fst] in Hlen, Hfit.
  destruct (BloomFilterFacts.Init_sized len hash_num counter Hlen Hfit) as [Hsz _].
  destruct (BloomFilter.Init BloomFilter.empty len hash_num counter) as [f counter'].
  cbn [fst] in Hsz.
  destruct (insert_keys_spec (first :: others) f Hsz) as (f' & Hk & _ & Hall & _).
  rewrite Hk. cbn. eexists _, _. split; [reflexivity|]. cbn. conj_split; auto.
  intros e He. unfold BloomFilter.Check. cbn [BloomFilter.seed_].
  rewrite <- (Hall e He). unfold BloomFilter.Check.
  apply BloomFilterFacts.check_seeds_ext; reflexivity.
Qed.

End Built.

(** A table indexed by its first key, ascending, whose filter lets [k]
    through, answers [k] as the plain lookup in its entries does. *)
Lemma Get_lookup (s : SST.t) (k : string) :
  ascending (data_index_ s) ->
  Some (index_key_ s) = fst <$> head (data_index_ s) ->
  BloomFilter.Check (bloom_filter_ s) (key_bytes k) = Some true ->
  (exists e, e ∈ data_index_ s /\ fst e = k) ->
  SST.Get s k = Ok (lookup (data_index_ s) k).
Proof.
  intros Ha Hidx Hchk (e & He & Hk). unfold SST.Get, block_Get.
  destruct (data_index_ s) as [|h v] eqn:Hd; [inversion He|].
  cbn in Hidx. injection Hidx as Hidx.
  rewrite Hidx, <- Hk, (ascending_not_below_head h v e Ha He).
  rewrite Hk, Hchk, searched_lookup by exact Ha. reflexivity.
Qed.

(** *** A level-0 table that begins with the empty key *)

(** C2.  The compacted levels do not always give the view of the merged
    tables.  In [empty_key_manifest] every table is well formed and level 1
    is sorted and range-disjoint; the empty key is in the newest table of
    level 0, the overlay of the tables gives it the value "2", and so does
    [Get] before the compaction.  Compacting level 0 collects the newest
    table first, so [min_key] becomes the empty key, which the test
    [min_key.empty()] then takes for "not set": the older table replaces it
    by "b".  Both tables of level 1 end below "b" and stay to the left of
    the new table, which holds the empty key and "b"; level 1 is no longer
    sorted by first key, the binary search of [Level::Get] stops left of
    every table, and [Get] no longer finds the empty key. *)
Theorem SizeTieredCompaction_loses_empty_key :
  Forall (fun lv => Forall well_formed (ssts_ lv)) (levels_ empty_key_manifest)
  /\ map (fun lv => map data_index_ (ssts_ lv)) (levels_ empty_key_manifest)
     = [[[("b", "1")]; [("", "2")]]; [[("a", "x")]; [("a5", "y")]]]
  /\ overlay [[("", "2")]; [("b", "1")]; [("a", "x")]; [("a5", "y")]] "" = Some "2"
  /\ Get empty_key_manifest "" = Ok (Some "2")
  /\ exists m' counter',
       SizeTieredCompaction_level small_bloom_params empty_key_manifest 0 5 60
       = Ok (m', counter')
       /\ map (fun lv => map data_index_ (ssts_ lv)) (levels_ m')
          = [[]; [[("a", "x")]; [("a5", "y")]; [("", "2"); ("b", "1")]]]
       /\ Get m' "" = Ok None.
Proof.
  conj_split.
  - unfold empty_key_manifest. cbn [levels_ ssts_].
    repeat match goal with
           | |- Forall _ (_ :: _) => apply List.Forall_cons
           | |- Forall _ [] => apply List.Forall_nil
           | |- Forall _ (ssts_ _) => cbn [ssts_]
           | |- well_formed _ => split; [vm_compute; discriminate|vm_compute; auto]
           end.
  - vm_compute. reflexivity.
  - reflexivity.
  - vm_compute. reflexivity.
  - assert (Hm : (r ← SizeTieredCompaction_level small_bloom_params empty_key_manifest 0 5 60;
                  Ok (map (fun lv => map data_index_ (ssts_ lv)) (levels_ r.1), Get r.1 ""))
                 = Ok ([[]; [[("a", "x")]; [("a5", "y")]; [("", "2"); ("b", "1")]]], Ok None))
      by (vm_compute; reflexivity).
    destruct (SizeTieredCompaction_level small_bloom_params empty_key_manifest 0 5 60)
      as [[m' counter']| |]; [|discriminate Hm..].
    exists m', counter'. split; [reflexivity|].
    unfold mbind, result_bind in Hm. cbn [bind fst] in Hm.
    injection Hm as H1 H2. split; [exact H1|exact H2].
Qed.

End ManifestFacts.

(** ** The engine *)

Module DBFacts.
Import Word Result DB.
Local Open Scope Z_scope.

(** [Get] answers from the active memtable when the key is there. *)
Lemma Get_active (db : t) (k v : string) :
  MemTable.Get (memtable_ db) k = Ok (Some v) -> Get db k = Ok (Some v).
Proof. intros H. unfold Get. rewrite H. reflexivity. Qed.

(** When the active memtable does not hold the key, the newest waiting
    memtable answers before the older ones. *)
Lemma Get_newest_waiting (db : t) (older : list MemTable.t) (newest : MemTable.t)
    (k v : string) :
  MemTable.Get (memtable_ db) k = Ok None ->
  inmemtables_ db = older ++ [newest] ->
  MemTable.Get newest k = Ok (Some v) ->
  Get db k = Ok (Some v).
Proof.
  intros Ha Hq Hn. unfold Get. rewrite Ha, Hq, rev_app_distr. cbn.
  rewrite Hn. reflexivity.
Qed.

(** When no memtable holds the key, the manifest answers. *)
Lemma Get_manifest (db : t) (k : string) :
  MemTable.Get (memtable_ db) k = Ok None ->
  Forall (fun mt => MemTable.Get mt k = Ok None) (inmemtables_ db) ->
  Get db k = Manifest.Get (manifest_ db) k.
Proof.
  intros Ha Hq. unfold Get. rewrite Ha. cbn.
  apply Forall_rev in Hq. induction Hq as [|mt q Hmt _ IH]; [reflexivity|].
  cbn. rewrite Hmt. cbn. exact IH.
Qed.

(** C1.  Not every sequence of puts ends.  With a memtable limit of 3
    bytes in a fresh process, the puts of "a" and "b" fill the first
    memtable, which goes to the waiting vector; "c" enters the new
    memtable with one level (the counter stands at 3), and every key is
    read back.  The put of "d" then draws 4 and 5 and gets two levels: the
    head grows to two levels, the search ends on the node of "c", and the
    linking loop starts at level 1 on that node, whose [nexts] has one
    element: [p->nexts[1]] is out of bounds. *)
Theorem Put_out_of_bounds_after_rotation :
  exists db,
    puts small_db [("a", "1"); ("b", "2"); ("c", "1")] = Ok db
    /\ length (inmemtables_ db) = 1%nat
    /\ SkipList.entries (memtable_ db) = Ok [("c", "1")]
    /\ counter_ db = 4
    /\ Get db "a" = Ok (Some "1")
    /\ Get db "b" = Ok (Some "2")
    /\ Get db "c" = Ok (Some "1")
    /\ Get db "d" = Ok None
    /\ Put db "d" "2" = OutOfBounds.
Proof.
  assert (H : (r ← puts small_db [("a", "1"); ("b", "2"); ("c", "1")];
               Ok (length (inmemtables_ r), SkipList.entries (memtable_ r), counter_ r,
                   Get r "a", Get r "b", Get r "c", Get r "d", Put r "d" "2"))
              = Ok (1%nat, Ok [("c", "1")], 4, Ok (Some "1"), Ok (Some "2"), Ok (Some "1"),
                    Ok None, OutOfBounds))
    by (vm_compute; reflexivity).
  destruct (puts small_db [("a", "1"); ("b", "2"); ("c", "1")]) as [db| |];
    [|discriminate H..].
  exists db. split; [reflexivity|].
  unfold mbind, result_bind in H. cbn [bind] in H.
  injection H as H1 H2 H3 H4 H5 H6 H7 H8.
  conj_split; assumption.
Qed.

End DBFacts.

(** ** The ring buffer *)

Module RingBufferFacts.
Import Word WordFacts RingBufferQueue.
Local Open Scope Z_scope.

Lemma ring_buffer_size_eq : ring_buffer_size_ = 262144.
Proof. reflexivity. Qed.

(** The mask keeps the low 18 bits. *)
Lemma musk_land (x : Z) :
  0 <= x -> Z.land x ring_buffer_size_musk_ = x mod ring_buffer_size_.
Proof.
  intros Hx. change ring_buffer_size_musk_ with (Z.ones 18).
  rewrite Z.land_ones by lia. reflexivity.
Qed.

Section Queue.
Context {T : Type}.

(** With room behind the head, [PushBack] stores the element there. *)
Lemma PushBack_room (q : t T) (x : T) :
  0 <= tail_ q <= head_ q -> head_ q + 1 < ring_buffer_size_ ->
  PushBack q x =
    Done (true, {| data_ := <[head_ q + 1 := x]> (data_ q);
                   head_ := head_ q + 1; tail_ := tail_ q |}).
Proof.
  intros Ht Hh. unfold PushBack. rewrite ring_buffer_size_eq in Hh.
  rewrite (wrap64_small (head_ q + 1)) by (unfold is_size_t; rewrite size_max_eq; lia).
  rewrite musk_land by lia. rewrite Z.mod_small by (rewrite ring_buffer_size_eq; lia).
  destruct (Z.eqb_spec (head_ q + 1) (tail_ q)) as [He|_]; [lia|].
  destruct (Z.ltb_spec (head_ q + 1) ring_buffer_size_) as [_|Hge];
    [reflexivity|rewrite ring_buffer_size_eq in Hge; lia].
Qed.

Lemma push_all_data (xs : list T) :
  forall q : t T,
    0 <= tail_ q <= head_ q ->
    head_ q + Z.of_nat (length xs) < ring_buffer_size_ ->
    exists q',
      push_all q xs = Done (true, q')
      /\ tail_ q' = tail_ q
      /\ head_ q' = head_ q + Z.of_nat (length xs)
      /\ (forall (i : nat) x, xs !! i = Some x ->
            data_ q' !! (head_ q + 1 + Z.of_nat i) = Some x)
      /\ (forall k, k <= head_ q -> data_ q' !! k = data_ q !! k).
Proof.
  induction xs as [|x xs IH]; intros q Ht Hh.
  - exists q. cbn. conj_split; auto; [lia|]. intros i y Hy. discriminate.
  - cbn [length] in Hh. cbn [push_all]. rewrite PushBack_room by lia. cbn beta iota.
    destruct (IH {| data_ := <[head_ q + 1 := x]> (data_ q);
                    head_ := head_ q + 1; tail_ := tail_ q |})
      as (q' & Hp & Htl & Hhd & Hnew & Hold); cbn [head_ tail_ data_] in *; try lia.
    exists q'. cbn [length]. conj_split; [exact Hp|exact Htl|lia| |].
    + intros [|i] y Hy.
      * injection Hy as <-. rewrite Z.add_0_r, Hold by lia. apply lookup_insert_eq.
      * replace (head_ q + 1 + Z.of_nat (S i)) with (head_ q + 1 + 1 + Z.of_nat i) by lia.
        apply Hnew. exact Hy.
    + intros k Hk. rewrite Hold by lia. apply lookup_insert_ne. lia.
Qed.

(** X1.  Elements pushed behind a queue come out in the order they went
    in.  With room for all of [xs], every [PushBack] succeeds; the size
    grows by the length of [xs]; [At] counts the new elements from the old
    size on and [RAt] counts them back from the last one; the elements
    that were in the queue stay where they were. *)
Theorem push_all_fifo (q : t T) (xs : list T) :
  0 <= tail_ q <= head_ q ->
  head_ q + Z.of_nat (length xs) < ring_buffer_size_ ->
  exists q',
    push_all q xs = Done (true, q')
    /\ Size q' = Size q + Z.of_nat (length xs)
    /\ (forall (i : nat) x, xs !! i = Some x ->
          At q' (Size q + Z.of_nat i) = Some x
          /\ RAt q' (Z.of_nat (length xs - 1 - i)) = Some x)
    /\ (forall j, 0 <= j < Size q -> At q' j = At q j).
Proof.
  intros Ht Hh.
  destruct (push_all_data xs q Ht Hh) as (q' & Hp & Htl & Hhd & Hnew & Hold).
  rewrite ring_buffer_size_eq in Hh.
  assert (Hsz : Size q = head_ q - tail_ q).
  { unfold Size. apply wrap64_small. unfold is_size_t. rewrite size_max_eq. lia. }
  exists q'. conj_split.
  - exact Hp.
  - unfold Size. rewrite Htl, Hhd.
    rewrite !wrap64_small by (unfold is_size_t; rewrite size_max_eq; lia). lia.
  - intros i x Hx. pose proof (lookup_lt_Some _ _ _ Hx) as Hi. unfold At, RAt.
    rewrite Htl, Hhd, Hsz.
    rewrite !wrap64_small by (unfold is_size_t; rewrite size_max_eq; lia).
    replace (tail_ q + (head_ q - tail_ q + Z.of_nat i) + 1)
      with (head_ q + 1 + Z.of_nat i) by lia.
    replace (head_ q + Z.of_nat (length xs) - Z.of_nat (length xs - 1 - i))
      with (head_ q + 1 + Z.of_nat i) by lia.
    split; apply Hnew; exact Hx.
  - intros j Hj. unfold At. rewrite Htl. rewrite Hsz in Hj.
    rewrite wrap64_small by (unfold is_size_t; rewrite size_max_eq; lia).
    apply Hold. lia.
Qed.

Lemma pop_back_n_spec (n : nat) :
  forall q : t T,
    0 <= tail_ q -> is_size_t (head_ q) -> Z.of_nat n <= head_ q - tail_ q ->
    pop_back_n n q =
      {| data_ := data_ q; head_ := head_ q - Z.of_nat n; tail_ := tail_ q |}.
Proof.
  induction n as [|n IH]; intros q Ht Hh Hn.
  - destruct q. cbn. f_equal. lia.
  - cbn [pop_back_n]. unfold PopBack.
    destruct (Z.eqb_spec (tail_ q) (head_ q)) as [He|_]; [lia|]. cbn [snd].
    assert (Hw : wrap64 (head_ q - 1) = head_ q - 1).
    { apply wrap64_small. unfold is_size_t in *. lia. }
    rewrite IH; cbn [data_ head_ tail_]; rewrite ?Hw;
      try (unfold is_size_t in *; lia).
    f_equal. lia.
Qed.

(** X2.  [Truncate(count)] does what [count] calls of [PopBack] do, capped
    at the size of the queue, and returns how many elements went. *)
Theorem Truncate_as_PopBack (q : t T) (count : Z) :
  0 <= tail_ q <= head_ q -> is_size_t (head_ q) -> 0 <= count ->
  Truncate q count =
    (Z.min count (Size q), pop_back_n (Z.to_nat (Z.min count (Size q))) q).
Proof.
  intros Ht Hh Hc.
  assert (Hsz : Size q = head_ q - tail_ q).
  { unfold Size. apply wrap64_small. unfold is_size_t in *. lia. }
  unfold Truncate. fold (Size q). rewrite Hsz.
  destruct (Z.eqb_spec (tail_ q) (head_ q)) as [He|Hne].
  - replace (Z.min count (head_ q - tail_ q)) with 0 by lia. reflexivity.
  - rewrite pop_back_n_spec by (try exact Hh; lia). rewrite Z2Nat.id by lia.
    rewrite wrap64_small by (unfold is_size_t in *; lia). reflexivity.
Qed.

(** X3.  The ring does not wrap.  After [ring_buffer_size_ - 1] pushes
    onto an empty queue the next [PushBack] is refused; once [PopFront]
    has released a slot, the queue holds [ring_buffer_size_ - 2] elements
    and the next [PushBack] stores at [data_[ring_buffer_size_]], past the
    end of the array. *)
Theorem PushBack_past_the_array (xs : list T) (x : T) :
  Z.of_nat (length xs) = ring_buffer_size_ - 1 ->
  exists q q1,
    push_all empty xs = Done (true, q)
    /\ PushBack q x = Done (false, q)
    /\ PopFront q = (true, q1)
    /\ Size q1 = ring_buffer_size_ - 2
    /\ PushBack q1 x = OutOfBounds.
Proof.
  intros Hlen.
  destruct (push_all_data xs empty) as (q & Hp & Htl & Hhd & _ & _);
    cbn [head_ tail_ empty]; try lia.
  cbn [head_ tail_ empty] in Htl, Hhd. rewrite Hlen, ring_buffer_size_eq in Hhd.
  cbn in Hhd.
  exists q, {| data_ := data_ q; head_ := head_ q; tail_ := 1 |}. conj_split.
  - exact Hp.
  - unfold PushBack. rewrite Htl, Hhd. reflexivity.
  - unfold PopFront. rewrite Htl, Hhd. reflexivity.
  - unfold Size. cbn [head_ tail_]. rewrite Hhd. reflexivity.
  - unfold PushBack. cbn [head_ tail_]. rewrite Hhd. reflexivity.
Qed.

End Queue.

Lemma push_all_fifo_witness :
  exists q',
    push_all (@empty Z) [7; 8; 9] = Done (true, q')
    /\ Size q' = 3 /\ At q' 1 = Some 8 /\ RAt q' 0 = Some 9.
Proof.
  destruct (push_all_fifo (@empty Z) [7; 8; 9]) as (q' & Hp & Hs & Hn & _).
  - cbn. lia.
  - cbn. rewrite ring_buffer_size_eq. lia.
  - exists q'. conj_split.
    + exact Hp.
    + exact Hs.
    + apply (Hn 1%nat 8 eq_refl).
    + apply (Hn 2%nat 9 eq_refl).
Defined.

Lemma Truncate_as_PopBack_witness :
  Truncate {| data_ := (∅ : gmap Z Z); head_ := 5; tail_ := 2 |} 7
  = (3, {| data_ := ∅; head_ := 2; tail_ := 2 |}).
Proof.
  rewrite (Truncate_as_PopBack {| data_ := (∅ : gmap Z Z); head_ := 5; tail_ := 2 |} 7).
  - reflexivity.
  - cbn. lia.
  - unfold is_size_t. cbn. rewrite size_max_eq. lia.
  - lia.
Defined.

Lemma PushBack_past_the_array_witness :
  exists q q1,
    push_all (@empty Z) (repeat 0 (Z.to_nat 262143)) = Done (true, q)
    /\ PopFront q = (true, q1)
    /\ PushBack q1 1 = OutOfBounds.
Proof.
  destruct (PushBack_past_the_array (repeat 0 (Z.to_nat 262143)) 1)
    as (q & q1 & Hp & _ & Hf & _ & Ho).
  - rewrite repeat_length, Z2Nat.id, ring_buffer_size_eq; lia.
  - exists q, q1. auto.
Defined.

End RingBufferFacts.

(** ** The Raft log and its ring *)

Module RaftLogRing.
Import Word WordFacts RaftLog.
Local Open Scope Z_scope.

Lemma wrap64_add_l (a b : Z) : wrap64 (wrap64 a + b) = wrap64 (a + b).
Proof. unfold wrap64. apply Z.add_mod_idemp_l. unfold size_max. lia. Qed.

Lemma wrap64_add_r (a b : Z) : wrap64 (a + wrap64 b) = wrap64 (a + b).
Proof. unfold wrap64. apply Z.add_mod_idemp_r. unfold size_max. lia. Qed.

Lemma wrap64_sub_l (a b : Z) : wrap64 (wrap64 a - b) = wrap64 (a - b).
Proof. unfold wrap64. apply Zminus_mod_idemp_l. Qed.

Lemma wrap64_sub_r (a b : Z) : wrap64 (a - wrap64 b) = wrap64 (a - b).
Proof. unfold wrap64. apply Zminus_mod_idemp_r. Qed.

Lemma in_array_size_t (h : Z) :
  0 <= h < RingBufferQueue.ring_buffer_size_ -> is_size_t h /\ is_size_t (h + 1).
Proof.
  rewrite RingBufferFacts.ring_buffer_size_eq. unfold is_size_t.
  rewrite size_max_eq. lia.
Qed.

(** On a ring whose tail never moved, [PushBack] is refused when the head
    sits on the last slot, and stores behind the head otherwise. *)
Lemma PushBack_unreleased (q : RingBufferQueue.t Entry) (e : Entry) :
  RingBufferQueue.tail_ q = 0 ->
  0 <= RingBufferQueue.head_ q < RingBufferQueue.ring_buffer_size_ ->
  (RingBufferQueue.head_ q + 1 = RingBufferQueue.ring_buffer_size_
   /\ RingBufferQueue.PushBack q e = RingBufferQueue.Done (false, q))
  \/ (RingBufferQueue.head_ q + 1 < RingBufferQueue.ring_buffer_size_
      /\ RingBufferQueue.PushBack q e =
           RingBufferQueue.Done
             (true, {| RingBufferQueue.data_ :=
                         <[RingBufferQueue.head_ q + 1 := e]> (RingBufferQueue.data_ q);
                       RingBufferQueue.head_ := RingBufferQueue.head_ q + 1;
                       RingBufferQueue.tail_ := RingBufferQueue.tail_ q |})).
Proof.
  intros Ht Hh.
  destruct (Z.eq_dec (RingBufferQueue.head_ q + 1) RingBufferQueue.ring_buffer_size_)
    as [He|Hne].
  - left. split; [exact He|]. unfold RingBufferQueue.PushBack.
    rewrite (wrap64_small _ (proj2 (in_array_size_t _ Hh))), He, Ht. reflexivity.
  - right. split; [lia|]. apply RingBufferFacts.PushBack_room; lia.
Qed.

Lemma never_released_after_push (l : t) (e : Entry) (b : bool) (l' : t) :
  never_released l ->
  after_push l e (RingBufferQueue.PushBack (queue_ l) e) = RingBufferQueue.Done (b, l') ->
  never_released l'.
Proof.
  intros (Ht & Hh & Hs & Hi) Hp.
  destruct (PushBack_unreleased (queue_ l) e Ht Hh) as [[_ Hq]|[Hlt Hq]];
    rewrite Hq in Hp; cbn in Hp; injection Hp as <- <-.
  - unfold never_released. auto.
  - unfold never_released. cbn. rewrite Hi, wrap64_add_l.
    conj_split; auto; try lia. f_equal. lia.
Qed.

Lemma after_push_defined (l : t) (e : Entry) :
  never_released l ->
  after_push l e (RingBufferQueue.PushBack (queue_ l) e) <> RingBufferQueue.OutOfBounds.
Proof.
  intros (Ht & Hh & _).
  destruct (PushBack_unreleased (queue_ l) e Ht Hh) as [[_ Hq]|[_ Hq]];
    rewrite Hq; discriminate.
Qed.

Lemma never_released_Reset (l : t) (expect_index : Z) :
  never_released l -> never_released (Reset l expect_index).
Proof.
  intros (Ht & Hh & Hs & Hi). unfold Reset.
  destruct (expect_index <? index_ l); [|unfold never_released; auto].
  unfold RingBufferQueue.Truncate. rewrite Ht.
  destruct (Z.eqb_spec 0 (RingBufferQueue.head_ (queue_ l))) as [He|Hne].
  - unfold never_released. cbn. rewrite Z.sub_0_r, Hi, <- He, Z.add_0_r.
    rewrite !(wrap64_small _ Hs). conj_split; auto; lia.
  - rewrite Z.sub_0_r. destruct (in_array_size_t _ Hh) as [Hsz _].
    rewrite (wrap64_small _ Hsz).
    set (count := wrap64 (index_ l - expect_index)).
    assert (Hc : 0 <= count) by (apply wrap64_range).
    assert (Hm : 0 <= Z.min count (RingBufferQueue.head_ (queue_ l))
                 <= RingBufferQueue.head_ (queue_ l)) by lia.
    unfold never_released. cbn.
    rewrite (wrap64_small (RingBufferQueue.head_ (queue_ l) - _))
      by (unfold is_size_t in *; lia).
    rewrite Hi, wrap64_sub_l. conj_split; auto; try lia. f_equal. lia.
Qed.

Lemma never_released_run (l : t) (o : op) (l' : t) :
  never_released l -> run l o = RingBufferQueue.Done l' -> never_released l'.
Proof.
  intros Hn. destruct o as [k v tm|e|i|c|]; cbn [run].
  - unfold Put. destruct (stop_ l); [intros [= <-]; exact Hn|].
    match goal with
    | |- context [after_push l ?e ?r] =>
        pose proof (never_released_after_push l e) as Hk;
        destruct (after_push l e r) as [[[] l1]|]
    end; intros [= <-]; eapply Hk; eauto.
  - unfold PutEntry. destruct (stop_ l); [intros [= <-]; exact Hn|].
    pose proof (never_released_after_push l e) as Hk.
    destruct (after_push l e _) as [[b l1]|]; intros [= <-]. eapply Hk; eauto.
  - intros [= <-]. apply never_released_Reset, Hn.
  - intros [= <-]. exact Hn.
  - destruct (_ && _); [discriminate|]. intros [= <-]. unfold applier_step.
    destruct (last_append_ l <? commited_ l); exact Hn.
Qed.

Lemma run_defined (l : t) (o : op) :
  never_released l -> o <> OpApply -> run l o <> RingBufferQueue.OutOfBounds.
Proof.
  intros Hn Ho. destruct o as [k v tm|e|i|c|]; cbn [run]; try discriminate.
  - unfold Put. destruct (stop_ l); [discriminate|].
    match goal with
    | |- context [after_push l ?e ?r] =>
        pose proof (after_push_defined l e Hn) as Hd;
        destruct (after_push l e r) as [[[] l1]|]
    end; congruence.
  - unfold PutEntry. destruct (stop_ l); [discriminate|].
    pose proof (after_push_defined l e Hn) as Hd.
    destruct (after_push l e _) as [[b l1]|]; congruence.
  - contradiction.
Qed.

(** While the ordering holds the applier reads a stored entry. *)
Lemma applier_slot_ordered (l : t) :
  never_released l -> ordered l -> last_append_ l < commited_ l ->
  applier_slot l = last_append_ l - start_index_ l + 1
  /\ applier_slot l <= RingBufferQueue.head_ (queue_ l).
Proof.
  intros (Ht & Hh & Hs & Hi) (H1 & _ & H3) Hlt.
  destruct (in_array_size_t _ Hh) as [Hh1 _].
  pose proof (wrap64_range (start_index_ l + RingBufferQueue.head_ (queue_ l))) as Hr.
  rewrite <- Hi in Hr.
  assert (Hsum : start_index_ l + RingBufferQueue.head_ (queue_ l) < size_max).
  { destruct (Z.lt_ge_cases (start_index_ l + RingBufferQueue.head_ (queue_ l)) size_max)
      as [Hc|Hc]; [exact Hc|exfalso].
    assert (Hw : index_ l
                 = start_index_ l + RingBufferQueue.head_ (queue_ l) - size_max).
    { rewrite Hi. unfold wrap64. symmetry. apply Z.mod_unique_pos with (q := 1).
      - unfold is_size_t in *. lia.
      - lia. }
    unfold is_size_t in *. lia. }
  assert (Hidx : index_ l = start_index_ l + RingBufferQueue.head_ (queue_ l)).
  { rewrite Hi. apply wrap64_small. unfold is_size_t in *. lia. }
  unfold applier_slot. rewrite Ht.
  rewrite (wrap64_small (last_append_ l + 1)) by (unfold is_size_t in *; lia).
  rewrite (wrap64_small (last_append_ l + 1 - start_index_ l - 1))
    by (unfold is_size_t in *; lia).
  rewrite wrap64_small by (unfold is_size_t in *; lia).
  lia.
Qed.

(** X4.  A log never releases a slot of its ring.  In every state the
    constructor and the calls [Put], [Put(Entry&)], [Reset], [UpdateCommit]
    and the applier lead to, the tail of the ring is 0, the head is inside
    the array, and [index_] is [start_index_] plus the head: the log holds
    at most [ring_buffer_size_ - 1] entries above [start_index_], whatever
    was applied.  No call of [Put], [Put(Entry&)], [Reset] or
    [UpdateCommit] indexes the array out of bounds, and neither does a
    turn of the applier while the ordering
    [start_index_ <= last_append_ <= commited_ <= index_] holds. *)
Theorem reachable_never_released (l : t) :
  reachable l ->
  never_released l
  /\ wrap64 (index_ l - start_index_ l) < RingBufferQueue.ring_buffer_size_
  /\ (forall o, o <> OpApply -> run l o <> RingBufferQueue.OutOfBounds)
  /\ (ordered l -> run l OpApply <> RingBufferQueue.OutOfBounds).
Proof.
  intros Hr.
  assert (Hn : never_released l).
  { induction Hr as [|v Hv|l o l' _ IH Hrun].
    - unfold never_released. cbn. rewrite RingBufferFacts.ring_buffer_size_eq.
      conj_split; try reflexivity; try lia. unfold is_size_t. rewrite size_max_eq. lia.
    - unfold never_released. cbn. rewrite RingBufferFacts.ring_buffer_size_eq.
      rewrite Z.add_0_r, (wrap64_small _ Hv). conj_split; auto; lia.
    - eapply never_released_run; eauto. }
  conj_split; [exact Hn| |intros o; apply run_defined, Hn|].
  - destruct Hn as (_ & Hh & Hs & Hi). rewrite Hi, wrap64_sub_l.
    replace (start_index_ l + RingBufferQueue.head_ (queue_ l) - start_index_ l)
      with (RingBufferQueue.head_ (queue_ l)) by lia.
    rewrite (wrap64_small _ (proj1 (in_array_size_t _ Hh))). lia.
  - intros Ho. cbn [run].
    destruct (Z.ltb_spec (last_append_ l) (commited_ l)) as [Hlt|Hge];
      [|discriminate].
    destruct (applier_slot_ordered l Hn Ho Hlt) as [_ Hle].
    destruct Hn as (_ & Hh & _).
    destruct (Z.leb_spec RingBufferQueue.ring_buffer_size_ (applier_slot l));
      [lia|discriminate].
Qed.

Lemma reachable_never_released_witness :
  never_released (Load 7)
  /\ (forall o, o <> OpApply -> run (Load 7) o <> RingBufferQueue.OutOfBounds)
  /\ run (Load 7) OpApply <> RingBufferQueue.OutOfBounds.
Proof.
  destruct (reachable_never_released (Load 7)) as (Hn & _ & Hd & Ha).
  - apply reach_load. unfold is_size_t. rewrite size_max_eq. lia.
  - split; [exact Hn|]. split; [exact Hd|]. apply Ha. unfold ordered. cbn. lia.
Defined.

(** X5.  What [Put] appends, [At] returns.  On a running log with room in
    its ring, [Put] succeeds and hands back the new index; [At] of that
    index is the entry with the key, the value and the term given, and
    [At] of every index the log held before answers as before. *)
Theorem Put_then_At (l : t) (key value : string) (term : Z) :
  never_released l -> stop_ l = false ->
  RingBufferQueue.head_ (queue_ l) + 1 < RingBufferQueue.ring_buffer_size_ ->
  exists l',
    Put l key value term = RingBufferQueue.Done (Some (index_ l'), l')
    /\ index_ l' = wrap64 (index_ l + 1)
    /\ At l' (index_ l') =
         Some {| e_term := term; e_index := index_ l'; e_key := key;
                 e_value := value; e_mode := 0; e_commited := 0 |}
    /\ forall d, 0 <= d <= RingBufferQueue.head_ (queue_ l) ->
         At l' (index_ l - d) = At l (index_ l - d).
Proof.
  intros (Ht & Hh & Hs & Hi) Hstop Hroom.
  destruct (in_array_size_t _ Hh) as [Hsz Hsz1].
  unfold Put. rewrite Hstop.
  rewrite RingBufferFacts.PushBack_room by lia. cbn [after_push].
  destruct (Z.ltb_spec (commited_ l) 0) as [Hneg|Hpos]; cbn [e_commited];
    (eexists; split; [reflexivity|]; cbn [index_]; split; [reflexivity|]; split).
  all: unfold At, RingBufferQueue.RAt; cbn [queue_ index_ RingBufferQueue.head_
                                            RingBufferQueue.data_].
  all: try (rewrite Z.sub_diag; change (wrap64 0) with 0; rewrite Z.sub_0_r,
              (wrap64_small _ Hsz1); apply lookup_insert_eq).
  all: intros d Hd; rewrite wrap64_sub_l;
    replace (index_ l + 1 - (index_ l - d)) with (d + 1) by lia;
    replace (index_ l - (index_ l - d)) with d by lia;
    rewrite RingBufferFacts.ring_buffer_size_eq in *;
    rewrite (wrap64_small (d + 1)) by (unfold is_size_t; rewrite size_max_eq; lia);
    rewrite (wrap64_small d) by (unfold is_size_t; rewrite size_max_eq; lia);
    replace (RingBufferQueue.head_ (queue_ l) + 1 - (d + 1))
      with (RingBufferQueue.head_ (queue_ l) - d) by lia;
    rewrite (wrap64_small (RingBufferQueue.head_ (queue_ l) - d))
      by (unfold is_size_t; rewrite size_max_eq; lia);
    apply lookup_insert_ne; lia.
Qed.

Lemma Put_then_At_witness :
  exists l',
    Put three_entries "d" "4" 2 = RingBufferQueue.Done (Some 4, l')
    /\ At l' 4 = Some (mkEntry 2 4 "d" "4" 0 0)
    /\ At l' 2 = At three_entries 2.
Proof.
  destruct (Put_then_At three_entries "d" "4" 2) as (l' & Hp & Hi & Hnew & Hold).
  - unfold never_released. cbn. rewrite RingBufferFacts.ring_buffer_size_eq.
    conj_split; try reflexivity; try lia. unfold is_size_t. rewrite size_max_eq. lia.
  - reflexivity.
  - cbn. rewrite RingBufferFacts.ring_buffer_size_eq. lia.
  - change (wrap64 (index_ three_entries + 1)) with 4 in Hi. rewrite Hi in Hp, Hnew.
    exists l'. conj_split; [exact Hp|exact Hnew|].
    apply (Hold 1). cbn. lia.
Defined.

(** X6.  The applier applies in index order.  When something committed is
    not applied yet, the entry the applier thread reads from the ring and
    hands to [DB::Put] is the one [At] returns for the next index,
    [last_append_ + 1], and [last_append_] moves to that index; otherwise
    it reads nothing. *)
Theorem applier_reads_next (l : t) :
  never_released l ->
  (last_append_ l < commited_ l ->
     snd (applier_step l) = Some (At l (wrap64 (last_append_ l + 1)))
     /\ last_append_ (fst (applier_step l)) = wrap64 (last_append_ l + 1))
  /\ (commited_ l <= last_append_ l -> applier_step l = (l, None)).
Proof.
  intros (Ht & Hh & Hs & Hi). unfold applier_step. split.
  - intros Hlt. destruct (Z.ltb_spec (last_append_ l) (commited_ l)) as [_|Hge]; [|lia].
    cbn [fst snd last_append_]. split; [|reflexivity]. f_equal.
    unfold At, RingBufferQueue.At, RingBufferQueue.RAt. rewrite Ht, Hi. f_equal.
    set (a := wrap64 (last_append_ l + 1)).
    rewrite Z.add_0_l, wrap64_add_l, wrap64_sub_r.
    replace (RingBufferQueue.head_ (queue_ l)
             - (wrap64 (start_index_ l + RingBufferQueue.head_ (queue_ l)) - a))
      with (a + RingBufferQueue.head_ (queue_ l)
            - wrap64 (start_index_ l + RingBufferQueue.head_ (queue_ l))) by lia.
    rewrite wrap64_sub_r. f_equal. lia.
  - intros Hge. destruct (Z.ltb_spec (last_append_ l) (commited_ l)) as [Hlt|_]; [lia|].
    reflexivity.
Qed.

Lemma applier_reads_next_witness :
  snd (applier_step (UpdateCommit three_entries 2))
  = Some (At (UpdateCommit three_entries 2) 1).
Proof.
  destruct (applier_reads_next (UpdateCommit three_entries 2)) as [H _].
  - unfold never_released. cbn. rewrite RingBufferFacts.ring_buffer_size_eq.
    conj_split; try reflexivity; try lia. unfold is_size_t. rewrite size_max_eq. lia.
  - destruct H as [H _]; [cbn; lia|]. exact H.
Defined.

(** X7.  [Reset(expect_index)] cuts the log back to [expect_index], but not
    below [start_index_]: the entries above go, [At] of every index that
    stays answers as before, and [commited_] and [last_append_] are not
    touched.  A call with [expect_index] at or above [index_] changes
    nothing. *)
Theorem Reset_cuts_back (l : t) (expect_index : Z) :
  never_released l ->
  is_size_t (start_index_ l + RingBufferQueue.head_ (queue_ l)) ->
  0 <= expect_index ->
  (index_ l <= expect_index -> Reset l expect_index = l)
  /\ (expect_index < index_ l ->
      index_ (Reset l expect_index) = Z.max expect_index (start_index_ l))
  /\ commited_ (Reset l expect_index) = commited_ l
  /\ last_append_ (Reset l expect_index) = last_append_ l
  /\ forall i, start_index_ l <= i <= index_ (Reset l expect_index) ->
       At (Reset l expect_index) i = At l i.
Proof.
  intros (Ht & Hh & Hs & Hi) Hfit Hexp.
  rewrite (wrap64_small _ Hfit) in Hi.
  destruct (in_array_size_t _ Hh) as [Hsz _].
  unfold Reset. destruct (Z.ltb_spec expect_index (index_ l)) as [Hlt|Hge].
  - unfold RingBufferQueue.Truncate. rewrite Ht.
    destruct (Z.eqb_spec 0 (RingBufferQueue.head_ (queue_ l))) as [He|Hne].
    + cbn. rewrite Z.sub_0_r, (wrap64_small (index_ l)) by (rewrite Hi; exact Hfit).
      conj_split; intros; try reflexivity; lia.
    + rewrite Z.sub_0_r, (wrap64_small _ Hsz).
      rewrite (wrap64_small (index_ l - expect_index))
        by (unfold is_size_t in *; lia).
      set (removed := Z.min (index_ l - expect_index) (RingBufferQueue.head_ (queue_ l))).
      assert (Hrm : 0 <= removed <= RingBufferQueue.head_ (queue_ l)) by lia.
      cbn. rewrite !(wrap64_small (_ - removed)) by (unfold is_size_t in *; lia).
      conj_split; try reflexivity; try (intros; lia).
      intros i Hrange. unfold At, RingBufferQueue.RAt. cbn.
      rewrite !(wrap64_small (_ - i)) by (unfold is_size_t in *; lia).
      f_equal. f_equal. lia.
  - conj_split; intros; try reflexivity; lia.
Qed.

Lemma Reset_cuts_back_witness :
  index_ (Reset three_entries 1) = 1
  /\ At (Reset three_entries 1) 1 = At three_entries 1.
Proof.
  destruct (Reset_cuts_back three_entries 1) as (_ & Hi & _ & _ & Ha).
  - unfold never_released. cbn. rewrite RingBufferFacts.ring_buffer_size_eq.
    conj_split; try reflexivity; try lia. unfold is_size_t. rewrite size_max_eq. lia.
  - unfold is_size_t. cbn. rewrite size_max_eq. lia.
  - lia.
  - split; [rewrite Hi by (cbn; lia); reflexivity|].
    apply Ha. rewrite Hi by (cbn; lia). cbn. lia.
Defined.

Lemma reachable_turns (n : nat) :
  forall l l', reachable l -> turns n l = RingBufferQueue.Done l' -> reachable l'.
Proof.
  induction n as [|n IH]; intros l l' Hr Ht; cbn [turns] in Ht.
  - injection Ht as <-. exact Hr.
  - destruct (run l OpApply) as [l1|] eqn:Hrun; [|discriminate].
    apply (IH l1 l'); [|exact Ht]. eapply reach_step; eauto.
Qed.

(** Turns of the applier that stay inside the array move [last_append_]
    only. *)
Lemma turns_inside (n : nat) :
  forall l,
    RingBufferQueue.tail_ (queue_ l) = 0 -> start_index_ l = 0 ->
    0 <= last_append_ l ->
    last_append_ l + Z.of_nat n <= commited_ l ->
    last_append_ l + Z.of_nat n < RingBufferQueue.ring_buffer_size_ ->
    exists l',
      turns n l = RingBufferQueue.Done l'
      /\ last_append_ l' = last_append_ l + Z.of_nat n
      /\ queue_ l' = queue_ l /\ start_index_ l' = start_index_ l
      /\ commited_ l' = commited_ l.
Proof.
  induction n as [|n IH]; intros l Ht Hs H0 Hc Hr.
  - exists l. cbn [turns]. conj_split; auto. lia.
  - assert (Hsmall : is_size_t (last_append_ l + 1)).
    { unfold is_size_t. rewrite size_max_eq.
      rewrite RingBufferFacts.ring_buffer_size_eq in Hr. lia. }
    assert (Hslot : applier_slot l = last_append_ l + 1).
    { unfold applier_slot. rewrite Ht, Hs, (wrap64_small _ Hsmall).
      replace (last_append_ l + 1 - 0 - 1) with (last_append_ l) by lia.
      rewrite (wrap64_small (last_append_ l))
        by (unfold is_size_t in *; lia).
      apply wrap64_small. replace (0 + last_append_ l + 1) with (last_append_ l + 1) by lia.
      exact Hsmall. }
    cbn [turns run]. rewrite Hslot.
    replace (RingBufferQueue.ring_buffer_size_ <=? last_append_ l + 1) with false
      by (symmetry; apply Z.leb_gt; lia).
    rewrite andb_false_r. unfold applier_step.
    replace (last_append_ l <? commited_ l) with true by (symmetry; apply Z.ltb_lt; lia).
    cbn [fst]. rewrite (wrap64_small _ Hsmall).
    match goal with
    | |- exists l', turns n ?l1 = _ /\ _ => destruct (IH l1) as (l' & Hl' & Ha & Hq & Hst & Hcm)
    end; cbn [queue_ start_index_ last_append_ commited_]; auto; try lia.
    exists l'. cbn [queue_ start_index_ last_append_ commited_] in *.
    conj_split; auto. lia.
Qed.

(** X30.  The applier leaves the array.  When a replicated entry carrying
    a committed index of [ring_buffer_size_] or more is put into a fresh
    log, the applier takes [ring_buffer_size_ - 1] turns inside the array,
    reading past the one stored entry, and its next turn reads
    [data_[ring_buffer_size_]], past the end of the array. *)
Theorem applier_leaves_the_array (e : Entry) :
  RingBufferQueue.ring_buffer_size_ <= e_commited e ->
  exists l1 l,
    PutEntry fresh e = RingBufferQueue.Done (true, l1)
    /\ turns (Z.to_nat (RingBufferQueue.ring_buffer_size_ - 1)) l1
       = RingBufferQueue.Done l
    /\ reachable l
    /\ last_append_ l = RingBufferQueue.ring_buffer_size_ - 1
    /\ RingBufferQueue.head_ (queue_ l) = 1
    /\ applier_slot l = RingBufferQueue.ring_buffer_size_
    /\ run l OpApply = RingBufferQueue.OutOfBounds.
Proof.
  intros Hc. pose proof RingBufferFacts.ring_buffer_size_eq as Hsz.
  assert (Hput : exists l1,
             PutEntry fresh e = RingBufferQueue.Done (true, l1)
             /\ queue_ l1 = {| RingBufferQueue.data_ := <[1 := e]> ∅;
                               RingBufferQueue.head_ := 1;
                               RingBufferQueue.tail_ := 0 |}
             /\ commited_ l1 = e_commited e /\ last_append_ l1 = 0
             /\ start_index_ l1 = 0).
  { eexists. split.
    - unfold PutEntry. cbn [stop_ fresh queue_ after_push].
      change (RingBufferQueue.PushBack RingBufferQueue.empty e)
        with (RingBufferQueue.Done
                (true, {| RingBufferQueue.data_ := <[1 := e]> ∅;
                          RingBufferQueue.head_ := 1;
                          RingBufferQueue.tail_ := 0 |})).
      cbn [after_push]. reflexivity.
    - cbn [queue_ commited_ last_append_ start_index_ fresh].
      conj_split; auto.
      replace (0 <? e_commited e) with true by (symmetry; apply Z.ltb_lt; lia).
      reflexivity. }
  destruct Hput as (l1 & Hp & Hq & Hcm & Hla & Hst).
  destruct (turns_inside (Z.to_nat (RingBufferQueue.ring_buffer_size_ - 1)) l1)
    as (l & Hl & Hla' & Hq' & Hst' & Hcm').
  { rewrite Hq. reflexivity. }
  { exact Hst. }
  { lia. }
  { rewrite Z2Nat.id by lia. lia. }
  { rewrite Z2Nat.id by lia. lia. }
  exists l1, l. rewrite Hla in Hla'. rewrite Z2Nat.id in Hla' by lia.
  assert (Hslot : applier_slot l = RingBufferQueue.ring_buffer_size_).
  { unfold applier_slot. rewrite Hq', Hq, Hst', Hst, Hla'.
    cbn [RingBufferQueue.tail_]. rewrite Hsz. reflexivity. }
  conj_split; auto; try lia.
  - apply (reachable_turns (Z.to_nat (RingBufferQueue.ring_buffer_size_ - 1)) l1 l);
      [|exact Hl].
    eapply reach_step with (o := OpPutEntry e); [apply reach_fresh|].
    cbn [run]. rewrite Hp. reflexivity.
  - rewrite Hq', Hq. reflexivity.
  - cbn [run]. rewrite Hslot, Z.leb_refl, andb_true_r.
    replace (last_append_ l <? commited_ l) with true
      by (symmetry; apply Z.ltb_lt; lia).
    reflexivity.
Qed.

Lemma applier_leaves_the_array_witness :
  exists l1 l,
    PutEntry fresh (mkEntry 1 1 "k" "v" 0 300000) = RingBufferQueue.Done (true, l1)
    /\ turns (Z.to_nat (RingBufferQueue.ring_buffer_size_ - 1)) l1
       = RingBufferQueue.Done l
    /\ reachable l
    /\ last_append_ l = RingBufferQueue.ring_buffer_size_ - 1
    /\ RingBufferQueue.head_ (queue_ l) = 1
    /\ applier_slot l = RingBufferQueue.ring_buffer_size_
    /\ run l OpApply = RingBufferQueue.OutOfBounds.
Proof.
  apply (applier_leaves_the_array (mkEntry 1 1 "k" "v" 0 300000)).
  rewrite RingBufferFacts.ring_buffer_size_eq. cbn. lia.
Defined.

End RaftLogRing.

(** ** Appends at a follower *)

Module SolveAppendFacts.
Import Word WordFacts Pod.
Local Open Scope Z_scope.

(** After [UpdateCommit] with the leader's commit index, the test that
    guards the truncation in [UpdateRaftLog] is false. *)
Lemma truncation_guard_false (log : RaftLog.t) (leader_commit : Z) :
  (leader_commit <? RaftLog.index (RaftLog.UpdateCommit log leader_commit))
  && (RaftLog.commited (RaftLog.UpdateCommit log leader_commit) <? leader_commit)
  = false.
Proof.
  unfold RaftLog.index, RaftLog.commited, RaftLog.UpdateCommit. cbn.
  destruct (Z.ltb_spec leader_commit (RaftLog.index_ log)); [|reflexivity].
  destruct (Z.ltb_spec (Z.max (RaftLog.commited_ log)
                          (Z.min (RaftLog.index_ log) leader_commit)) leader_commit);
    [lia|reflexivity].
Qed.

(** X8.  A follower never truncates its log.  [SolveAppend] raises the
    commit index before it looks at the entry, so the truncation of
    [UpdateRaftLog] cannot run: a single entry whose index is not
    [index_ + 1] is answered -2, and the log keeps every entry; only its
    commit index moved. *)
Theorem SolveAppend_never_truncates (p : t) (req : AppendReq) (now : Z)
    (e : RaftLog.Entry) :
  a_entrys req = [e] ->
  to_size_t (RaftLog.e_index e) <> wrap64 (RaftLog.index (raft_log_ p) + 1) ->
  exists p',
    SolveAppend p req now = RingBufferQueue.Done (-2, p')
    /\ raft_log_ p' = RaftLog.UpdateCommit (raft_log_ p) (a_commited_index req).
Proof.
  intros He Hmis. unfold SolveAppend. rewrite He.
  match goal with |- context [if ?c then _ else set_last_time p now] => destruct c end;
    cbn [raft_log_ set_raft_log set_last_time];
    unfold UpdateRaftLog;
    change (RaftLog.index (RaftLog.UpdateCommit (raft_log_ p) (a_commited_index req)))
      with (RaftLog.index (raft_log_ p)) at 1;
    (destruct (Z.eqb_spec (to_size_t (RaftLog.e_index e))
                (wrap64 (RaftLog.index (raft_log_ p) + 1))) as [|_]; [contradiction|]);
    cbn [negb]; rewrite truncation_guard_false;
    change (RaftLog.index (RaftLog.UpdateCommit (raft_log_ p) (a_commited_index req)))
      with (RaftLog.index (raft_log_ p));
    (destruct (Z.eqb_spec (to_size_t (RaftLog.e_index e))
                (wrap64 (RaftLog.index (raft_log_ p) + 1))) as [|_]; [contradiction|]);
    cbn [negb]; eexists; split; reflexivity.
Qed.

Lemma SolveAppend_never_truncates_witness :
  exists p',
    SolveAppend (init 2 0 RaftLog.three_entries)
      (mkAppendReq 1 2 2 [RaftLog.mkEntry 1 2 "x" "y" 0 2]) 10
    = RingBufferQueue.Done (-2, p')
    /\ RaftLog.index (raft_log_ p') = 3.
Proof.
  destruct (SolveAppend_never_truncates (init 2 0 RaftLog.three_entries)
              (mkAppendReq 1 2 2 [RaftLog.mkEntry 1 2 "x" "y" 0 2]) 10
              (RaftLog.mkEntry 1 2 "x" "y" 0 2)) as (p' & Hs & Hl).
  - reflexivity.
  - vm_compute. congruence.
  - exists p'. split; [exact Hs|]. rewrite Hl. reflexivity.
Defined.

(** X9.  An append is not checked against the node's term.  A request
    whose term is older than the node's, carrying the entry for
    [index_ + 1], is answered 0 and the entry is appended: the log's index
    moves on, [At] returns the entry, and the node keeps its term, its
    status, its leader and its vote. *)
Theorem SolveAppend_accepts_stale_term (p : t) (req : AppendReq) (now : Z)
    (e : RaftLog.Entry) :
  a_entrys req = [e] ->
  a_term req < term_ p ->
  RaftLog.never_released (raft_log_ p) ->
  RaftLog.stop_ (raft_log_ p) = false ->
  RingBufferQueue.head_ (RaftLog.queue_ (raft_log_ p)) + 1
    < RingBufferQueue.ring_buffer_size_ ->
  to_size_t (RaftLog.e_index e) = wrap64 (RaftLog.index (raft_log_ p) + 1) ->
  exists p',
    SolveAppend p req now = RingBufferQueue.Done (0, p')
    /\ term_ p' = term_ p /\ status_ p' = status_ p
    /\ leader_id_ p' = leader_id_ p /\ voted_ p' = voted_ p
    /\ RaftLog.index (raft_log_ p') = wrap64 (RaftLog.index (raft_log_ p) + 1)
    /\ RaftLog.At (raft_log_ p') (RaftLog.index (raft_log_ p')) = Some e.
Proof.
  intros He Hterm (Ht & Hh & Hs & Hi) Hstop Hroom Hal.
  destruct (RaftLogRing.in_array_size_t _ Hh) as [Hsz Hsz1].
  unfold SolveAppend. rewrite He. cbn [term_ set_last_time].
  destruct (Z.ltb_spec (term_ p) (a_term req)) as [|_]; [lia|].
  destruct (Z.eqb_spec (a_term req) (term_ p)) as [|_]; [lia|].
  cbn [orb andb raft_log_ set_raft_log set_last_time].
  unfold UpdateRaftLog.
  change (RaftLog.index (RaftLog.UpdateCommit (raft_log_ p) (a_commited_index req)))
    with (RaftLog.index (raft_log_ p)).
  rewrite Hal, Z.eqb_refl. cbn [negb].
  unfold put_and_ok, RaftLog.PutEntry. cbn [RaftLog.stop_ RaftLog.UpdateCommit].
  rewrite Hstop. cbn [RaftLog.queue_ RaftLog.UpdateCommit].
  rewrite RingBufferFacts.PushBack_room by lia. cbn [RaftLog.after_push].
  eexists. split; [reflexivity|].
  cbn [term_ status_ leader_id_ voted_ raft_log_ set_raft_log set_last_time].
  conj_split; try reflexivity.
  unfold RaftLog.At, RaftLog.index, RingBufferQueue.RAt.
  cbn [RaftLog.index_ RaftLog.queue_ RingBufferQueue.head_ RingBufferQueue.data_].
  rewrite Z.sub_diag. change (wrap64 0) with 0.
  rewrite Z.sub_0_r, (wrap64_small _ Hsz1). apply lookup_insert_eq.
Qed.

Lemma SolveAppend_accepts_stale_term_witness :
  exists p',
    SolveAppend
      {| term_ := 5; voted_ := true; status_ := Leader; leader_id_ := 1;
         last_time_ := 0; replicating_ := true; raft_log_ := RaftLog.three_entries |}
      (mkAppendReq 1 2 0 [RaftLog.mkEntry 1 4 "x" "y" 0 0]) 10
    = RingBufferQueue.Done (0, p')
    /\ term_ p' = 5 /\ status_ p' = Leader
    /\ RaftLog.index (raft_log_ p') = 4.
Proof.
  destruct (SolveAppend_accepts_stale_term
              {| term_ := 5; voted_ := true; status_ := Leader; leader_id_ := 1;
                 last_time_ := 0; replicating_ := true;
                 raft_log_ := RaftLog.three_entries |}
              (mkAppendReq 1 2 0 [RaftLog.mkEntry 1 4 "x" "y" 0 0]) 10
              (RaftLog.mkEntry 1 4 "x" "y" 0 0))
    as (p' & Hs & Ht & Hst & _ & _ & Hi & _).
  - reflexivity.
  - cbn. lia.
  - unfold RaftLog.never_released. cbn. rewrite RingBufferFacts.ring_buffer_size_eq.
    conj_split; try reflexivity; try lia. unfold is_size_t. rewrite size_max_eq. lia.
  - reflexivity.
  - cbn. rewrite RingBufferFacts.ring_buffer_size_eq. lia.
  - reflexivity.
  - exists p'. conj_split; [exact Hs|exact Ht|exact Hst|]. rewrite Hi. reflexivity.
Defined.

(** [Put(Entry&)] leaves a stopped log, and a log whose ring is full, as
    they are. *)
Lemma put_and_ok_dropped (log : RaftLog.t) (e : RaftLog.Entry) :
  RaftLog.stop_ log = true
  \/ (RingBufferQueue.tail_ (RaftLog.queue_ log) = 0
      /\ 0 <= RingBufferQueue.head_ (RaftLog.queue_ log)
             < RingBufferQueue.ring_buffer_size_
      /\ RingBufferQueue.head_ (RaftLog.queue_ log) + 1
         = RingBufferQueue.ring_buffer_size_) ->
  put_and_ok log e = RingBufferQueue.Done (0, log).
Proof.
  unfold put_and_ok, RaftLog.PutEntry. intros [Hstop|(Ht & Hh & Hlast)].
  - rewrite Hstop. reflexivity.
  - destruct (RaftLog.stop_ log); [reflexivity|].
    destruct (RaftLogRing.PushBack_unreleased (RaftLog.queue_ log) e Ht Hh)
      as [[_ Hq]|[Hlt _]]; [|lia].
    rewrite Hq. reflexivity.
Qed.

(** X10.  An append that finds the ring full, or the log stopped, is still
    answered 0.  [UpdateRaftLog] drops the result of [raft_log_.Put(entry)]:
    for the entry of [index_ + 1] the answer is 0 although the entry was
    not stored and the log's index did not move. *)
Theorem SolveAppend_reports_dropped_entry_stored (p : t) (req : AppendReq) (now : Z)
    (e : RaftLog.Entry) :
  a_entrys req = [e] ->
  to_size_t (RaftLog.e_index e) = wrap64 (RaftLog.index (raft_log_ p) + 1) ->
  RaftLog.stop_ (raft_log_ p) = true
  \/ (RaftLog.never_released (raft_log_ p)
      /\ RingBufferQueue.head_ (RaftLog.queue_ (raft_log_ p)) + 1
         = RingBufferQueue.ring_buffer_size_) ->
  exists p',
    SolveAppend p req now = RingBufferQueue.Done (0, p')
    /\ raft_log_ p' = RaftLog.UpdateCommit (raft_log_ p) (a_commited_index req)
    /\ RaftLog.index (raft_log_ p') = RaftLog.index (raft_log_ p).
Proof.
  intros He Hal Hfull.
  assert (Hdrop : put_and_ok (RaftLog.UpdateCommit (raft_log_ p) (a_commited_index req)) e
                  = RingBufferQueue.Done
                      (0, RaftLog.UpdateCommit (raft_log_ p) (a_commited_index req))).
  { apply put_and_ok_dropped. cbn [RaftLog.stop_ RaftLog.queue_ RaftLog.UpdateCommit].
    destruct Hfull as [Hstop|[(Ht & Hh & _) Hlast]]; [left; exact Hstop|right; auto]. }
  unfold SolveAppend. rewrite He.
  match goal with |- context [if ?c then _ else set_last_time p now] => destruct c end;
    cbn [raft_log_ set_raft_log set_last_time];
    unfold UpdateRaftLog;
    change (RaftLog.index (RaftLog.UpdateCommit (raft_log_ p) (a_commited_index req)))
      with (RaftLog.index (raft_log_ p));
    rewrite Hal, Z.eqb_refl; cbn [negb]; rewrite Hdrop;
    eexists; (split; [reflexivity|]); split; reflexivity.
Qed.

Lemma SolveAppend_reports_dropped_entry_stored_witness :
  exists p',
    SolveAppend (init 2 0 RaftLog.full_ring)
      (mkAppendReq 1 2 0 [RaftLog.mkEntry 1 262144 "x" "y" 0 0]) 10
    = RingBufferQueue.Done (0, p')
    /\ RaftLog.index (raft_log_ p') = 262143.
Proof.
  destruct (SolveAppend_reports_dropped_entry_stored (init 2 0 RaftLog.full_ring)
              (mkAppendReq 1 2 0 [RaftLog.mkEntry 1 262144 "x" "y" 0 0]) 10
              (RaftLog.mkEntry 1 262144 "x" "y" 0 0)) as (p' & Hs & _ & Hi).
  - reflexivity.
  - reflexivity.
  - right. split; [|reflexivity]. unfold RaftLog.never_released.
    conj_split; vm_compute; intuition congruence.
  - exists p'. split; [exact Hs|]. rewrite Hi. reflexivity.
Defined.

(** X11.  A heartbeat and a batch leave the entries alone.  A request
    without entries is answered 0, one with two or more entries -3 (not
    supported); in both cases the log only has its commit index raised to
    [max commited_ (min index_ leader_commit)], and a request of a newer
    term makes the node a follower of the sender with its vote cleared. *)
Theorem SolveAppend_without_single_entry (p : t) (req : AppendReq) (now : Z) :
  length (a_entrys req) <> 1%nat ->
  exists p',
    SolveAppend p req now
    = RingBufferQueue.Done (if a_entrys req is [] then 0 else -3, p')
    /\ raft_log_ p' = RaftLog.UpdateCommit (raft_log_ p) (a_commited_index req)
    /\ last_time_ p' = now
    /\ (term_ p < a_term req ->
        term_ p' = a_term req /\ status_ p' = Follower
        /\ leader_id_ p' = a_id req /\ voted_ p' = false)
    /\ (a_term req < term_ p ->
        term_ p' = term_ p /\ status_ p' = status_ p
        /\ leader_id_ p' = leader_id_ p /\ voted_ p' = voted_ p).
Proof.
  intros Hlen. unfold SolveAppend. cbn [term_ set_last_time].
  destruct (a_entrys req) as [|e1 [|e2 es]] eqn:He; [|contradiction|].
  - rewrite andb_false_r, orb_false_r.
    destruct (Z.ltb_spec (term_ p) (a_term req)) as [Hn|Ho];
      eexists; (split; [reflexivity|]); cbn; conj_split; auto; intros; lia.
  - cbn [UpdateRaftLog].
    destruct (Z.ltb_spec (term_ p) (a_term req)) as [Hn|Ho]; cbn [orb].
    + eexists; (split; [reflexivity|]); cbn; conj_split; auto; intros; lia.
    + destruct (Z.eqb_spec (a_term req) (term_ p)) as [Heq|Hne]; cbn [andb];
        [destruct (_ <? _)|];
        eexists; (split; [reflexivity|]); cbn; conj_split; auto; intros; lia.
Qed.

Lemma SolveAppend_without_single_entry_witness :
  exists p',
    SolveAppend (init 2 0 RaftLog.three_entries) (mkAppendReq 4 7 2 []) 10
    = RingBufferQueue.Done (0, p')
    /\ RaftLog.commited (raft_log_ p') = 2 /\ term_ p' = 4 /\ leader_id_ p' = 7.
Proof.
  destruct (SolveAppend_without_single_entry (init 2 0 RaftLog.three_entries)
              (mkAppendReq 4 7 2 []) 10) as (p' & Hs & Hl & _ & Hn & _).
  - cbn. lia.
  - destruct Hn as (Ht & _ & Hid & _); [cbn; lia|].
    exists p'. conj_split; [exact Hs|rewrite Hl; reflexivity|exact Ht|exact Hid].
Defined.

End SolveAppendFacts.

(** ** The commit rule of the replicator *)

Module FollowerFacts.
Import Word WordFacts Follower.
Local Open Scope Z_scope.

Lemma caught_up_from (nextindex : Z) (others : list Z) (sum : Z) :
  fold_left (fun sum n => if nextindex <=? n then sum + 1 else sum) others sum
  = sum + Z.of_nat (length (filter (fun n => nextindex <= n) others)).
Proof.
  revert sum. induction others as [|n others IH]; intros sum; [cbn; lia|].
  cbn [fold_left]. rewrite IH, filter_cons.
  destruct (Z.leb_spec nextindex n); destruct (decide (nextindex <= n)); try lia;
    cbn [length]; lia.
Qed.

(** X12.  The replicator commits without counting a majority.  At the end
    of a round it raises the commit index exactly when the other followers
    that have caught up, plus two, are at least as many as all the other
    followers; with at most two other followers it always does, whatever
    they hold. *)
Theorem commits_iff (nextindex : Z) (others : list Z) :
  Z.of_nat (length others) < 2 ^ 30 ->
  (commits nextindex others = true <->
     Z.of_nat (length others)
     <= 2 + Z.of_nat (length (filter (fun n => nextindex <= n) others)))
  /\ ((length others <= 2)%nat ->
      forall log,
        round_end log nextindex others
        = RaftLog.UpdateCommit log (Pod.to_size_t nextindex)).
Proof.
  intros Hlen.
  assert (Hiff : commits nextindex others = true <->
            Z.of_nat (length others)
            <= 2 + Z.of_nat (length (filter (fun n => nextindex <= n) others))).
  { unfold commits, caught_up. rewrite caught_up_from.
    assert (Hc : Pod.to_int32 (Z.of_nat (length others)) = Z.of_nat (length others)).
    { unfold Pod.to_int32. rewrite Z.mod_small by lia. lia. }
    rewrite Hc. set (c := Z.of_nat (length (filter _ others))).
    assert (0 <= c) by (subst c; lia).
    rewrite Z.leb_le. split; intros H0; Z.div_mod_to_equations; lia. }
  split; [exact Hiff|].
  intros Hsmall log. unfold round_end.
  assert (Ht : commits nextindex others = true) by (apply Hiff; lia).
  rewrite Ht. reflexivity.
Qed.

Lemma commits_iff_witness :
  commits 9 [0; 0] = true
  /\ RaftLog.commited (round_end RaftLog.three_entries 2 [0; 0]) = 2.
Proof.
  destruct (commits_iff 9 [0; 0]) as [Hi _]; [cbn; lia|].
  destruct (commits_iff 2 [0; 0]) as [_ Hr]; [cbn; lia|].
  split.
  - apply Hi. cbn. lia.
  - rewrite Hr by (cbn; lia). reflexivity.
Defined.

End FollowerFacts.

(** ** Using the block cache *)

Module BlockCacheUse.
Import Word WordFacts BlockCache.
Local Open Scope Z_scope.

Lemma land_shiftl_32 (s off : Z) : 0 <= off < 2 ^ 32 -> Z.land (Z.shiftl s 32) off = 0.
Proof.
  intros Ho. apply Z.bits_inj'. intros n Hn. rewrite Z.land_spec, Z.bits_0.
  destruct (Z.lt_ge_cases n 32) as [Hlo|Hhi].
  - rewrite Z.shiftl_spec_low by lia. reflexivity.
  - rewrite <- (Z.mod_small off (2 ^ 32)) by lia.
    rewrite Z.mod_pow2_bits_high by lia. apply andb_false_r.
Qed.

Lemma MakeKey_small (sst_id block_offset : Z) :
  0 <= sst_id < 2 ^ 32 -> 0 <= block_offset < 2 ^ 32 ->
  MakeKey sst_id block_offset = sst_id * 2 ^ 32 + block_offset.
Proof.
  intros Hs Ho. unfold MakeKey. rewrite Z.shiftl_mul_pow2 by lia.
  rewrite wrap64_small by (unfold is_size_t; rewrite size_max_eq; lia).
  rewrite <- Z.shiftl_mul_pow2 by lia.
  pose proof (Z.add_lor_land (Z.shiftl sst_id 32) block_offset) as H.
  rewrite land_shiftl_32 in H by lia. rewrite Z.shiftl_mul_pow2 in * by lia. lia.
Qed.

(** X13.  Cache keys do not collide while table ids and block offsets fit
    32 bits: the key is [sst_id * 2^32 + block_offset], and two pairs with
    the same key are the same pair.  Beyond 32 bits they do collide: the
    offset [2^32] of table 0 has the key of offset 0 of table 1. *)
Theorem MakeKey_injective (sst_id block_offset sst_id' block_offset' : Z) :
  0 <= sst_id < 2 ^ 32 -> 0 <= block_offset < 2 ^ 32 ->
  0 <= sst_id' < 2 ^ 32 -> 0 <= block_offset' < 2 ^ 32 ->
  (MakeKey sst_id block_offset = MakeKey sst_id' block_offset' ->
   sst_id = sst_id' /\ block_offset = block_offset')
  /\ MakeKey 0 (2 ^ 32) = MakeKey 1 0.
Proof.
  intros Hs Ho Hs' Ho'. split; [|reflexivity].
  rewrite !MakeKey_small by assumption. intros H. lia.
Qed.

Lemma MakeKey_injective_witness :
  (MakeKey 1 7 =? MakeKey 7 1) = false.
Proof.
  apply Z.eqb_neq. intros H.
  destruct (MakeKey_injective 1 7 7 1) as [Hinj _]; [lia|lia|lia|lia|].
  destruct (Hinj H) as [H1 _]. discriminate H1.
Defined.

Section Cache.
Context {double : Type}.
Variable utilization_below : Z -> Z -> double -> bool.

Abbreviation cache := (BlockCache.t double).

Local Arguments bytes_of : simpl never.

(** How [Put] goes on once the three tests have let the block in. *)
Lemma Put_admitted (c : cache) (sst_id block_offset : Z) (data : list Byte.byte) :
  admitted utilization_below c data ->
  Put utilization_below c sst_id block_offset data =
  let n := Z.of_nat (length data) in
  let key := MakeKey sst_id block_offset in
  match cache_map_ c !! key with
  | Some p =>
      match blocks_ c !! p with
      | Some b =>
          let time := wrap64 (access_counter_ c + 1) in
          (true,
           MoveToFront
             {| config_ := config_ c;
                blocks_ := <[p := {| data_ := data; sst_id_ := sst_id_ b;
                                     block_offset_ := block_offset_ b;
                                     access_time_ := time;
                                     hit_count_ := hit_count_ b |}]> (blocks_ c);
                next_ := next_ c; cache_map_ := cache_map_ c;
                lru_list_ := lru_list_ c; stats_ := stats_ c;
                access_counter_ := time |} p)
      | None => (true, c)
      end
  | None =>
      let c := EvictIfNeeded c n in
      let time := wrap64 (access_counter_ c + 1) in
      let p := next_ c in
      let b := {| data_ := data; sst_id_ := sst_id; block_offset_ := block_offset;
                  access_time_ := time; hit_count_ := 0 |} in
      let s := stats_ c in
      (true,
       {| config_ := config_ c; blocks_ := <[p := b]> (blocks_ c);
          next_ := S p; cache_map_ := <[key := p]> (cache_map_ c);
          lru_list_ := p :: lru_list_ c;
          stats_ :=
            {| total_access := total_access s; hit_count := hit_count s;
               miss_count := miss_count s; rejected_count := rejected_count s;
               evicted_count := evicted_count s;
               current_size := wrap64 (current_size s + size b);
               current_count := wrap64 (current_count s + 1) |};
          access_counter_ := time |})
  end.
Proof.
  intros (Hne & Hmax & Hu). unfold Put.
  destruct data as [|x data]; [contradiction|].
  destruct (Z.ltb_spec (max_block_size (config_ c)) (Z.of_nat (length (x :: data))))
    as [Hbig|_]; [lia|].
  rewrite Hu. reflexivity.
Qed.

(** X14.  What [Put] stores, [Get] returns.  When every cached key points
    to a live block, a block that passes the tests of [Put] is stored, and
    the next [Get] of its key is a hit that returns the bytes put, whether
    the key was cached before or not. *)
Theorem Put_then_Get (c : cache) (sst_id block_offset : Z) (data : list Byte.byte) :
  admitted utilization_below c data ->
  (forall p, cache_map_ c !! MakeKey sst_id block_offset = Some p ->
             is_Some (blocks_ c !! p)) ->
  fst (Put utilization_below c sst_id block_offset data) = true
  /\ fst (Get (snd (Put utilization_below c sst_id block_offset data))
            sst_id block_offset) = Some data.
Proof.
  intros Hadm Hlive. rewrite (Put_admitted _ _ _ _ Hadm). cbv zeta.
  destruct (cache_map_ c !! MakeKey sst_id block_offset) as [p|] eqn:Hk.
  - destruct (Hlive p eq_refl) as [b Hb]. rewrite Hb. cbn [fst snd].
    split; [reflexivity|]. unfold Get, MoveToFront, with_lru. cbn.
    rewrite Hk, lookup_insert_eq. reflexivity.
  - cbn [fst snd]. split; [reflexivity|]. unfold Get. cbn.
    rewrite !lookup_insert_eq. reflexivity.
Qed.

Lemma bytes_of_remove (blocks : gmap nat CacheBlock) (l : list nat) (p : nat)
    (b : CacheBlock) :
  NoDup l -> p ∈ l -> blocks !! p = Some b ->
  bytes_of blocks l = size b + bytes_of blocks (list_remove p l).
Proof.
  intros Hnd Hin Hb. induction l as [|q l IH]; [inversion Hin|].
  apply NoDup_cons in Hnd as [Hq Hnd]. unfold list_remove in *.
  rewrite BlockCacheFacts.bytes_of_cons.
  destruct (decide (q = p)) as [->|Hne].
  - rewrite Hb, filter_cons_False by tauto.
    replace (filter (fun q => q ≠ p) l) with l; [reflexivity|].
    clear IH Hin Hnd. induction l as [|r l IH]; [reflexivity|].
    apply not_elem_of_cons in Hq as [Hr Hq].
    rewrite filter_cons_True by congruence. f_equal. apply IH, Hq.
  - apply elem_of_cons in Hin as [->|Hin]; [contradiction|].
    rewrite filter_cons_True by exact Hne. rewrite BlockCacheFacts.bytes_of_cons.
    rewrite (IH Hnd Hin). destruct (blocks !! q); lia.
Qed.

Lemma list_remove_absent (l : list nat) (p : nat) : p ∉ list_remove p l.
Proof. unfold list_remove. intros H. apply list_elem_of_filter in H as [H _]. congruence. Qed.

(** X15.  Replacing the data of a cached key leaves the byte count as it
    was.  [Put] on a key that is cached stores the new bytes in the same
    block and moves it to the front, and [stats_] is untouched: when the
    new block has another length than the old one, an accounting that was
    exact is no longer exact. *)
Theorem Put_in_place_keeps_stats (c : cache) (sst_id block_offset : Z)
    (data : list Byte.byte) (p : nat) (b : CacheBlock) :
  admitted utilization_below c data ->
  cache_map_ c !! MakeKey sst_id block_offset = Some p ->
  blocks_ c !! p = Some b ->
  p ∈ lru_list_ c ->
  accounted c ->
  let c' := snd (Put utilization_below c sst_id block_offset data) in
  stats_ c' = stats_ c
  /\ cache_map_ c' = cache_map_ c
  /\ lru_list_ c' = p :: list_remove p (lru_list_ c)
  /\ listed_bytes c' = listed_bytes c + Z.of_nat (length data) - size b
  /\ (Z.of_nat (length data) <> size b -> ~ accounted c').
Proof.
  intros Hadm Hk Hb Hin Hacc c'. subst c'.
  rewrite (Put_admitted _ _ _ _ Hadm). cbv zeta. rewrite Hk, Hb. cbn [snd].
  destruct Hacc as (Hnd & _ & _ & Hsz & _).
  assert (Hbytes : listed_bytes
            (MoveToFront
               {| config_ := config_ c;
                  blocks_ := <[p := {| data_ := data; sst_id_ := sst_id_ b;
                                       block_offset_ := block_offset_ b;
                                       access_time_ := wrap64 (access_counter_ c + 1);
                                       hit_count_ := hit_count_ b |}]> (blocks_ c);
                  next_ := next_ c; cache_map_ := cache_map_ c;
                  lru_list_ := lru_list_ c; stats_ := stats_ c;
                  access_counter_ := wrap64 (access_counter_ c + 1) |} p)
            = listed_bytes c + Z.of_nat (length data) - size b).
  { unfold listed_bytes, MoveToFront, with_lru. cbn [blocks_ lru_list_].
    rewrite BlockCacheFacts.bytes_of_cons, lookup_insert_eq.
    rewrite BlockCacheFacts.bytes_of_insert_fresh by apply list_remove_absent.
    rewrite (bytes_of_remove (blocks_ c) (lru_list_ c) p b Hnd Hin Hb).
    unfold size at 1. cbn [data_]. lia. }
  conj_split; try reflexivity; [exact Hbytes|].
  intros Hlen (_ & _ & _ & Hsz' & _). rewrite Hbytes in Hsz'.
  unfold MoveToFront, with_lru in Hsz'. cbn [stats_] in Hsz'. lia.
Qed.

(** X16.  [Remove] takes a cached block out: it answers [true], the bytes
    and the count of the block leave the accounting, which stays exact,
    and the next [Get] of the key is a miss.  For a key that is not cached
    it answers [false] and changes nothing. *)
Theorem Remove_then_Get (c : cache) (sst_id block_offset : Z) :
  accounted c ->
  (forall p, cache_map_ c !! MakeKey sst_id block_offset = Some p ->
             p ∈ lru_list_ c) ->
  match cache_map_ c !! MakeKey sst_id block_offset with
  | None => Remove c sst_id block_offset = (false, c)
  | Some p =>
      exists b c',
        blocks_ c !! p = Some b
        /\ Remove c sst_id block_offset = (true, c')
        /\ accounted c'
        /\ CurrentSize c' = CurrentSize c - size b
        /\ CurrentCount c' = CurrentCount c - 1
        /\ fst (Get c' sst_id block_offset) = None
  end.
Proof.
  intros (Hnd & Hlive & Hlt & Hsz & Hcnt & Hr1 & Hr2) Hin. unfold Remove.
  destruct (cache_map_ c !! MakeKey sst_id block_offset) as [p|] eqn:Hk; [|reflexivity].
  specialize (Hin p eq_refl). destruct (Hlive p Hin) as [b Hb]. rewrite Hb.
  exists b. eexists. split; [reflexivity|]. split; [reflexivity|].
  unfold listed_bytes in Hsz.
  rewrite (bytes_of_remove (blocks_ c) (lru_list_ c) p b Hnd Hin Hb) in Hsz.
  pose proof (BlockCacheFacts.bytes_of_nonneg (blocks_ c) (list_remove p (lru_list_ c)))
    as Hnn.
  pose proof (BlockCacheFacts.size_nonneg b) as Hb0.
  assert (Hlen : length (lru_list_ c) = S (length (list_remove p (lru_list_ c)))).
  { clear -Hnd Hin. induction (lru_list_ c) as [|q l IH]; [inversion Hin|].
    apply NoDup_cons in Hnd as [Hq Hnd]. unfold list_remove in *.
    destruct (decide (q = p)) as [->|Hne].
    - rewrite filter_cons_False by tauto. cbn [length]. f_equal.
      clear IH Hin Hnd. induction l as [|r l IH]; [reflexivity|].
      apply not_elem_of_cons in Hq as [Hr Hq].
      rewrite filter_cons_True by congruence. cbn [length]. f_equal. apply IH, Hq.
    - apply elem_of_cons in Hin as [->|Hin]; [contradiction|].
      rewrite filter_cons_True by exact Hne. cbn [length]. f_equal. apply IH; auto. }
  rewrite Hlen in Hcnt.
  unfold accounted, listed_bytes, CurrentSize, CurrentCount, RemoveBlock, with_stats,
    with_lru. cbn.
  rewrite !wrap64_small by (unfold is_size_t in *; lia).
  conj_split; try lia; try (unfold is_size_t in *; lia).
  - unfold list_remove. apply NoDup_filter, Hnd.
  - intros q Hq. apply Hlive. unfold list_remove in Hq.
    apply list_elem_of_filter in Hq as [_ Hq]. exact Hq.
  - intros q Hq. apply Hlt. unfold list_remove in Hq.
    apply list_elem_of_filter in Hq as [_ Hq]. exact Hq.
  - unfold Get. cbn. rewrite lookup_delete_eq. reflexivity.
Qed.

End Cache.

Lemma Put_then_Get_witness :
  fst (Get (snd (Put exact_utilization_below one_block 1 0 [Byte.x07; Byte.x08])) 1 0)
  = Some [Byte.x07; Byte.x08].
Proof.
  apply (Put_then_Get exact_utilization_below one_block 1 0 [Byte.x07; Byte.x08]).
  - unfold admitted. conj_split; [discriminate|cbn; lia|reflexivity].
  - intros p Hp. vm_compute in Hp. injection Hp as <-. eexists. reflexivity.
Defined.

Lemma Put_in_place_keeps_stats_witness :
  stats_ (snd (Put exact_utilization_below one_block 1 0 [Byte.x07; Byte.x08]))
  = stats_ one_block
  /\ ~ accounted (snd (Put exact_utilization_below one_block 1 0 [Byte.x07; Byte.x08])).
Proof.
  destruct (Put_in_place_keeps_stats exact_utilization_below one_block 1 0
              [Byte.x07; Byte.x08] 0%nat (mkBlock six_bytes 1 0 1 0))
    as (Hs & _ & _ & _ & Hn).
  - unfold admitted. conj_split; [discriminate|cbn; lia|reflexivity].
  - reflexivity.
  - reflexivity.
  - left.
  - apply BlockCacheFacts.one_block_accounted.
  - split; [exact Hs|]. apply Hn. vm_compute. congruence.
Defined.

Lemma Remove_then_Get_witness :
  exists c',
    Remove one_block 1 0 = (true, c')
    /\ CurrentSize c' = 0
    /\ fst (Get c' 1 0) = None.
Proof.
  pose proof (Remove_then_Get one_block 1 0 BlockCacheFacts.one_block_accounted) as H.
  change (cache_map_ one_block !! MakeKey 1 0) with (Some 0%nat) in H.
  destruct H as (b & c' & Hb & Hr & _ & Hs & _ & Hg).
  - intros p Hp. injection Hp as <-. left.
  - exists c'. conj_split; [exact Hr| |exact Hg].
    rewrite Hs. injection Hb as <-. reflexivity.
Defined.

End BlockCacheUse.

(** ** Using the Bloom filter *)

Module BloomFilterUse.
Import Word WordFacts BloomFilter.
Local Open Scope Z_scope.

(** On a sized filter [Check] always answers. *)
Lemma check_seeds_defined (f : t) (s : list Byte.byte) (seeds : list Z) :
  sized f -> exists b, check_seeds f s seeds = Some b.
Proof.
  intros (Hl & Hd & Hw). induction seeds as [|seed seeds IH]; [cbn; eauto|].
  cbn [check_seeds].
  destruct (BloomFilterFacts.bit_index_defined f s seed Hl) as [key Hk]. rewrite Hk.
  pose proof (BloomFilterFacts.bit_index_range f s seed key Hl Hk) as Hr.
  pose proof (BloomFilterFacts.word_in_range (length_ f) key (data_ f) Hr Hd) as Hlt.
  destruct (lookup_lt_is_Some_2 (data_ f) _ Hlt) as [w Hwd]. rewrite Hwd.
  destruct (Z.land w (mask key) =? 0); eauto.
Qed.

Lemma insert_all_spec (keys : list (list Byte.byte)) :
  forall f : t,
    sized f ->
    exists f',
      insert_all f keys = Some f'
      /\ sized f'
      /\ (forall k, k ∈ keys -> Check f' k = Some true)
      /\ (forall s0, Check f s0 = Some true -> Check f' s0 = Some true).
Proof.
  induction keys as [|k keys IH]; intros f Hf.
  - exists f. conj_split; auto. intros k Hk. inversion Hk.
  - destruct (BloomFilterFacts.Insert_no_false_negative f k Hf)
      as (f1 & Hins & Hf1 & _ & _ & _ & _ & Hchk & Hmono).
    destruct (IH f1 Hf1) as (f' & Hk & Hf' & Hall & Hmono').
    exists f'. cbn [insert_all]. rewrite Hins. conj_split; auto.
    intros k' Hk'. apply elem_of_cons in Hk' as [->|Hk']; auto.
Qed.

(** X17.  The filter has no false negatives.  After [Init] with a positive
    bit length, every [Insert] succeeds, and [Check] answers [true] for
    every key that was inserted, in whatever order and however many other
    keys were inserted after it. *)
Theorem no_false_negatives (len hash_num counter : Z) (keys : list (list Byte.byte)) :
  0 < len -> len / 64 + 1 < size_max ->
  exists f,
    insert_all (fst (Init empty len hash_num counter)) keys = Some f
    /\ forall k, k ∈ keys -> Check f k = Some true.
Proof.
  intros Hl Hfit.
  destruct (BloomFilterFacts.Init_sized len hash_num counter Hl Hfit) as [Hs _].
  destruct (insert_all_spec keys _ Hs) as (f & Hi & _ & Hall & _).
  exists f. auto.
Qed.

Lemma no_false_negatives_witness :
  exists f,
    insert_all (fst (Init empty 24 2 0)) [[Byte.x61; Byte.x62]; [Byte.x63]] = Some f
    /\ Check f [Byte.x61; Byte.x62] = Some true.
Proof.
  destruct (no_false_negatives 24 2 0 [[Byte.x61; Byte.x62]; [Byte.x63]])
    as (f & Hi & Hall).
  - lia.
  - reflexivity.
  - exists f. split; [exact Hi|]. apply Hall. left.
Defined.

Lemma draw_seeds_length (n : nat) (counter : Z) :
  length (fst (draw_seeds n counter)) = n.
Proof.
  revert counter. induction n as [|n IH]; intros counter; [reflexivity|].
  cbn [draw_seeds]. unfold GlobalRandom.GlobalRand.
  specialize (IH (wrap64 (counter + 1))).
  destruct (draw_seeds n (wrap64 (counter + 1))) as [rs c]. cbn in *. lia.
Qed.

(** X18.  A filter that holds nothing lets nothing through.  Right after
    [Init] with a positive bit length and at least one hash function,
    [Check] answers [false] for every key. *)
Theorem fresh_filter_answers_false (len hash_num counter : Z) (s : list Byte.byte) :
  0 < len -> len / 64 + 1 < size_max -> 1 <= hash_num ->
  Check (fst (Init empty len hash_num counter)) s = Some false.
Proof.
  intros Hl Hfit Hh.
  destruct (BloomFilterFacts.Init_sized len hash_num counter Hl Hfit)
    as [(Hlen & Hd & _) Hle].
  unfold Check.
  assert (Hzero : forall i w, data_ (fst (Init empty len hash_num counter)) !! i = Some w ->
                              w = 0).
  { intros i w Hw. unfold Init in Hw.
    destruct (draw_seeds (Z.to_nat hash_num) counter) as [seeds c]. cbn in Hw.
    apply list_elem_of_lookup_2, list_elem_of_In, repeat_spec in Hw. exact Hw. }
  assert (Hseeds : seed_ (fst (Init empty len hash_num counter)) <> []).
  { unfold Init. pose proof (draw_seeds_length (Z.to_nat hash_num) counter) as Hn.
    destruct (draw_seeds (Z.to_nat hash_num) counter) as [seeds c]. cbn in *.
    intros ->. cbn in Hn. lia. }
  destruct (seed_ (fst (Init empty len hash_num counter))) as [|seed seeds];
    [contradiction|].
  cbn [check_seeds].
  destruct (BloomFilterFacts.bit_index_defined _ s seed Hlen) as [key Hk]. rewrite Hk.
  pose proof (BloomFilterFacts.bit_index_range _ s seed key Hlen Hk) as Hr.
  pose proof (BloomFilterFacts.word_in_range _ key _ Hr Hd) as Hlt.
  destruct (lookup_lt_is_Some_2 _ _ Hlt) as [w Hw]. rewrite Hw.
  rewrite (Hzero _ _ Hw). reflexivity.
Qed.

Lemma fresh_filter_answers_false_witness :
  Check (fst (Init empty 24 2 0)) [Byte.x61; Byte.x62] = Some false.
Proof.
  apply (fresh_filter_answers_false 24 2 0 [Byte.x61; Byte.x62]).
  - lia.
  - reflexivity.
  - lia.
Defined.

End BloomFilterUse.

(** ** The levels of new nodes *)

Module RandLevelUse.
Import Word WordFacts GlobalRandom RandLevel.
Local Open Scope Z_scope.

(** X22.  When the skip list is the only caller of [GlobalRand], the level
    of a new node is decided by the counter alone: the node gets two
    levels when the counter is a multiple of 4, taking two draws, and one
    level otherwise, taking one draw.  No node ever gets three levels. *)
Theorem RandLevel_alone (counter : Z) (n : nat) :
  is_size_t counter -> counter + 2 < size_max ->
  RandLevel (observed counter (repeat 0%nat (S (S n)))) =
  if counter mod 4 =? 0
  then Some (2, observed (counter + 2) (repeat 0%nat n))
  else Some (1, observed (counter + 1) (repeat 0%nat (S n))).
Proof.
  intros Hc Hr. cbn [repeat observed skip GlobalRand]. unfold RandLevel.
  cbn [RandLevel_loop snd].
  change 3 with (Z.ones 2). rewrite !Z.land_ones by lia. change (2 ^ 2) with 4.
  rewrite (wrap64_small (counter + 1)) by (unfold is_size_t in *; lia).
  rewrite (wrap64_small (counter + 1 + 1)) by (unfold is_size_t in *; lia).
  destruct (Z.eqb_spec (counter mod 4) 0) as [H0|H0].
  - destruct (Z.eqb_spec ((counter + 1) mod 4) 0) as [H1|H1].
    + exfalso. pose proof (Z.div_mod counter 4). pose proof (Z.div_mod (counter + 1) 4).
      lia.
    + change (wrap64 (1 + 1)) with 2. replace (counter + 1 + 1) with (counter + 2) by lia.
      reflexivity.
  - reflexivity.
Qed.

Lemma RandLevel_alone_witness :
  RandLevel (observed 8 (repeat 0%nat 3)) = Some (2, [10])
  /\ RandLevel (observed 9 (repeat 0%nat 3)) = Some (1, [10; 11]).
Proof.
  split.
  - rewrite (RandLevel_alone 8 1); [reflexivity| |reflexivity].
    vm_compute. intuition congruence.
  - rewrite (RandLevel_alone 9 1); [reflexivity| |reflexivity].
    vm_compute. intuition congruence.
Defined.

End RandLevelUse.

(** ** Tables and the manifest in use *)

Module TableUse.
Import Word WordFacts Result SST Manifest KeyOrder SSTFacts ManifestFacts.
Local Open Scope Z_scope.

(** The capped parameters give a positive bit length whose words fit the
    address space, for every positive count. *)
Lemma capped_bloom_params_sized (n : Z) :
  0 < n ->
  0 < fst (capped_bloom_params n)
  /\ fst (capped_bloom_params n) / 64 + 1 < size_max.
Proof.
  intros Hn. unfold capped_bloom_params, small_bloom_params. cbn [fst].
  set (m := Z.min n (2 ^ 32)).
  assert (Hm : 0 < m <= 2 ^ 32) by (subst m; lia).
  assert (H0 : 0 <= 2252489 * m / 100000) by (apply Z.div_pos; lia).
  assert (H1 : 2252489 * m / 100000 <= 2252489 * m)
    by (apply Z.div_le_upper_bound; lia).
  assert (H2 : (2252489 * m / 100000 + 1) / 64 <= 2252489 * m / 100000 + 1)
    by (apply Z.div_le_upper_bound; lia).
  rewrite size_max_eq. change (2 ^ 32) with 4294967296 in *. lia.
Qed.

Section Built.
Variable bloom_params : Z -> Z * Z.

Hypothesis bloom_params_sized :
  forall n, 0 < n ->
    0 < fst (bloom_params n) /\ fst (bloom_params n) / 64 + 1 < size_max.

(** The filter of a built table is sized. *)
Lemma build_filter_sized (first : Entry) (others : list Entry) (id counter : Z)
    (s : SST.t) (counter' : Z) :
  SST.build bloom_params (first :: others) id counter = Ok (s, counter') ->
  BloomFilter.sized (bloom_filter_ s).
Proof.
  unfold SST.build.
  set (n := Z.of_nat (length (first :: others))).
  assert (Hn : 0 < n) by (subst n; cbn [length]; lia).
  destruct (bloom_params_sized n Hn) as [Hlen Hfit].
  destruct (bloom_params n) as [len hash_num]. cbn [fst] in Hlen, Hfit.
  destruct (BloomFilterFacts.Init_sized len hash_num counter Hlen Hfit) as [Hsz _].
  destruct (BloomFilter.Init BloomFilter.empty len hash_num counter) as [f c1].
  cbn [fst] in Hsz.
  destruct (insert_keys_spec (first :: others) f Hsz) as (f' & Hk & Hf' & _ & _).
  rewrite Hk. cbn. intros [= <- _]. exact Hf'.
Qed.

(** What the constructor builds answers as the entries it was given. *)
Lemma build_answers_as_lookup (entries : list Entry) (id counter : Z) :
  entries <> [] -> ascending entries ->
  exists s counter',
    SST.build bloom_params entries id counter = Ok (s, counter')
    /\ data_index_ s = entries
    /\ id_ s = id
    /\ forall k, SST.Get s k = Ok (lookup entries k).
Proof.
  intros Hne Hasc. destruct entries as [|first others]; [contradiction|].
  destruct (build_spec bloom_params bloom_params_sized first others id counter)
    as (s & counter' & Hb & Hdata & Hkey & Hid & Hchk).
  pose proof (build_filter_sized first others id counter s counter' Hb) as Hsz.
  exists s, counter'. conj_split; auto.
  intros k. destruct (lookup (first :: others) k) as [v|] eqn:Hv.
  - rewrite <- Hv, <- Hdata. apply Get_lookup.
    + rewrite Hdata. exact Hasc.
    + rewrite Hdata, Hkey. reflexivity.
    + apply lookup_Some_elem in Hv as [i Hi].
      apply (Hchk (k, v)). eapply list_elem_of_lookup_2. exact Hi.
    + rewrite Hdata. apply lookup_Some_elem in Hv as [i Hi]. exists (k, v).
      split; [eapply list_elem_of_lookup_2; exact Hi|reflexivity].
  - unfold SST.Get, block_Get.
    destruct (String.ltb k (index_key_ s)); [reflexivity|].
    destruct (BloomFilterUse.check_seeds_defined (bloom_filter_ s) (key_bytes k)
                (BloomFilter.seed_ (bloom_filter_ s)) Hsz) as [b Hb'].
    unfold BloomFilter.Check. rewrite Hb'. destruct b; [|reflexivity].
    rewrite Hdata, searched_lookup by exact Hasc. rewrite Hv. reflexivity.
Qed.

(** X19.  A table answers as its entries do.  The constructor succeeds on
    a non-empty vector of entries with ascending keys, and [SST::Get] on
    the table it builds returns, for every key, the value the entries hold
    for it, and nothing for a key they do not hold: the index key, the
    Bloom filter and the binary search never hide an entry and never
    invent one.  [id()] returns the id given when that is not negative. *)
Theorem built_table_answers_as_lookup (entries : list Entry) (id counter : Z) :
  entries <> [] -> ascending entries ->
  exists s counter',
    SST.build bloom_params entries id counter = Ok (s, counter')
    /\ data_index_ s = entries
    /\ (0 <= id < 2 ^ 31 -> SST.id s = id)
    /\ forall k, SST.Get s k = Ok (lookup entries k).
Proof.
  intros Hne Hasc.
  destruct (build_answers_as_lookup entries id counter Hne Hasc)
    as (s & counter' & Hb & Hdata & Hid & Hget).
  exists s, counter'. conj_split; auto.
  intros Hrange. unfold SST.id. rewrite Hid. apply wrap64_small.
  unfold is_size_t. rewrite size_max_eq. lia.
Qed.

Lemma Level_Get_newest (l0 : Level) (sst : SST.t) (k : string) :
  level_ l0 = 0%nat ->
  Level_Get (mkLevel (level_ l0) (ssts_ l0 ++ [sst])) k =
  (r ← SST.Get sst k;
   match r with
   | Some v => Ok (Some v)
   | None => Level_Get l0 k
   end).
Proof.
  intros Hl0. unfold Level_Get. cbn [level_ ssts_]. rewrite Hl0, rev_app_distr.
  reflexivity.
Qed.

(** X20.  The newest table wins.  [InsertAndUpdate] puts a built table at
    the back of level 0 of a new manifest, with the version raised by one;
    [Get] on the new manifest returns the table's value for every key the
    table holds, and for every other key what [Get] returned before. *)
Theorem InsertAndUpdate_newest_wins (m : Manifest.t) (l0 : Level) (rest : list Level)
    (entries : list Entry) (id counter : Z) :
  levels_ m = l0 :: rest -> level_ l0 = 0%nat ->
  entries <> [] -> ascending entries ->
  exists sst counter' m',
    SST.build bloom_params entries id counter = Ok (sst, counter')
    /\ InsertAndUpdate m sst = Ok m'
    /\ version_ m' = wrap64 (version_ m + 1)
    /\ forall k,
         Manifest.Get m' k =
         match lookup entries k with
         | Some v => Ok (Some v)
         | None => Manifest.Get m k
         end.
Proof.
  intros Hl Hl0 Hne Hasc.
  destruct (build_answers_as_lookup entries id counter Hne Hasc)
    as (sst & counter' & Hb & _ & _ & Hget).
  exists sst, counter'. unfold InsertAndUpdate. rewrite Hl.
  eexists. split; [exact Hb|]. split; [reflexivity|]. split; [reflexivity|].
  intros k. unfold Manifest.Get. cbn [levels_]. rewrite Hl. cbn [first_hit].
  rewrite (Level_Get_newest l0 sst k Hl0), Hget.
  unfold mbind, result_bind. cbn [bind].
  destruct (lookup entries k); reflexivity.
Qed.

End Built.

Lemma built_table_answers_as_lookup_witness :
  exists s counter',
    SST.build capped_bloom_params [("a", "1"); ("b", "2")] 7 0 = Ok (s, counter')
    /\ SST.Get s "b" = Ok (Some "2") /\ SST.Get s "c" = Ok None.
Proof.
  destruct (built_table_answers_as_lookup capped_bloom_params capped_bloom_params_sized
              [("a", "1"); ("b", "2")] 7 0) as (s & c & Hb & _ & _ & Hg).
  - discriminate.
  - cbn. auto.
  - exists s, c. conj_split; [exact Hb|rewrite Hg; reflexivity|rewrite Hg; reflexivity].
Defined.

Lemma InsertAndUpdate_newest_wins_witness :
  exists sst counter' m',
    SST.build capped_bloom_params [("a", "new")] 9 60 = Ok (sst, counter')
    /\ InsertAndUpdate empty_key_manifest sst = Ok m'
    /\ Manifest.Get m' "a" = Ok (Some "new")
    /\ Manifest.Get m' "b" = Manifest.Get empty_key_manifest "b".
Proof.
  destruct (InsertAndUpdate_newest_wins capped_bloom_params capped_bloom_params_sized
              empty_key_manifest
              (mkLevel 0 [table [("b", "1")] 3 30; table [("", "2")] 4 45])
              [mkLevel 1 [table [("a", "x")] 1 0; table [("a5", "y")] 2 15]]
              [("a", "new")] 9 60) as (sst & c & m' & Hb & Hi & _ & Hg).
  - reflexivity.
  - reflexivity.
  - discriminate.
  - cbn. auto.
  - exists sst, c, m'. conj_split; [exact Hb|exact Hi| |]; rewrite Hg; reflexivity.
Defined.

End TableUse.

(** ** Reading a level above 0 *)

Module LevelFacts.
Import Word WordFacts Result SST Manifest KeyOrder SSTFacts ManifestFacts.
Local Open Scope Z_scope.

(** A built table answers every key as its entries do. *)
Lemma built_Get (s : SST.t) (k : string) :
  built s -> SST.Get s k = Ok (lookup (data_index_ s) k).
Proof.
  intros ((Hne & Hasc) & Hidx & Hsz & Hchk).
  destruct (lookup (data_index_ s) k) as [v|] eqn:Hv.
  - rewrite <- Hv. apply Get_lookup; auto.
    + apply lookup_Some_elem in Hv as [i Hi].
      apply (Hchk (k, v)). eapply list_elem_of_lookup_2. exact Hi.
    + apply lookup_Some_elem in Hv as [i Hi]. exists (k, v).
      split; [eapply list_elem_of_lookup_2; exact Hi|reflexivity].
  - unfold SST.Get, block_Get.
    destruct (String.ltb k (index_key_ s)); [reflexivity|].
    destruct (BloomFilterUse.check_seeds_defined (bloom_filter_ s) (key_bytes k)
                (BloomFilter.seed_ (bloom_filter_ s)) Hsz) as [b Hb].
    unfold BloomFilter.Check. rewrite Hb. destruct b; [|reflexivity].
    rewrite searched_lookup by exact Hasc. rewrite Hv. reflexivity.
Qed.

(** What the constructor builds is a built table. *)
Lemma build_built (bloom_params : Z -> Z * Z) (entries : list Entry) (id counter : Z)
    (s : SST.t) (counter' : Z) :
  (forall n, 0 < n ->
     0 < fst (bloom_params n) /\ fst (bloom_params n) / 64 + 1 < size_max) ->
  ascending entries ->
  SST.build bloom_params entries id counter = Ok (s, counter') ->
  built s.
Proof.
  intros Hbp Hasc Hb. destruct entries as [|first others]; [discriminate|].
  destruct (build_spec bloom_params Hbp first others id counter)
    as (s0 & c0 & Hb0 & Hdata & Hkey & _ & Hchk).
  rewrite Hb in Hb0. injection Hb0 as <- <-.
  unfold built, well_formed. rewrite Hdata, Hkey.
  split; [split; [discriminate|exact Hasc]|].
  split; [reflexivity|].
  split; [eapply TableUse.build_filter_sized; eauto|exact Hchk].
Qed.

(** The first key of a built table is the key of one of its entries, and
    no entry is below it. *)
Lemma built_first_key (s : SST.t) :
  built s ->
  (exists e, e ∈ data_index_ s /\ fst e = SST.key s)
  /\ forall e, e ∈ data_index_ s -> String.ltb (fst e) (SST.key s) = false.
Proof.
  intros ((Hne & Hasc) & Hidx & _). unfold SST.key.
  destruct (data_index_ s) as [|h t]; [contradiction|]. cbn in Hidx.
  injection Hidx as ->. split.
  - exists h. split; [left|reflexivity].
  - intros e He. eapply ascending_not_below_head; eauto.
Qed.

Lemma first_keys_ascend (v : list SST.t) (i j : nat) (a b : SST.t) :
  Forall built v -> ordered_ranges v ->
  (i < j)%nat -> v !! i = Some a -> v !! j = Some b ->
  String.ltb (SST.key a) (SST.key b) = true.
Proof.
  intros Hb Hord Hij Ha Hc. rewrite Forall_forall in Hb.
  destruct (built_first_key a) as [(ea & Hea & <-) _];
    [apply Hb; eapply list_elem_of_lookup_2; eauto|].
  destruct (built_first_key b) as [(eb & Heb & <-) _];
    [apply Hb; eapply list_elem_of_lookup_2; eauto|].
  eapply Hord; eauto.
Qed.

(** The binary search of [Level::Get] on first keys in ascending order
    stops at the first table whose first key is above the key. *)
Lemma upper_bound_spec (v : list SST.t) (k : string) (fuel l r : nat) :
  (forall i j a b, (i < j)%nat -> v !! i = Some a -> v !! j = Some b ->
     String.ltb (SST.key a) (SST.key b) = true) ->
  (l <= r <= length v)%nat -> (r - l < fuel)%nat ->
  (forall i s, (i < l)%nat -> v !! i = Some s -> String.ltb k (SST.key s) = false) ->
  (forall i s, (r <= i)%nat -> v !! i = Some s -> String.ltb k (SST.key s) = true) ->
  (l <= upper_bound fuel v k l r <= r)%nat
  /\ (forall i s, (i < upper_bound fuel v k l r)%nat -> v !! i = Some s ->
        String.ltb k (SST.key s) = false)
  /\ (forall i s, (upper_bound fuel v k l r <= i)%nat -> v !! i = Some s ->
        String.ltb k (SST.key s) = true).
Proof.
  intros Hmono. revert l r.
  induction fuel as [|fuel IH]; intros l r Hlr Hf Hlo Hhi; [lia|].
  cbn [upper_bound]. cbv zeta.
  destruct (Nat.ltb_spec l r) as [Hlt|Hge].
  - pose proof (Nat.div2_div (l + r)) as Hdiv.
    assert (Hmid : (l <= Nat.div2 (l + r) < r)%nat).
    { rewrite Hdiv. split; [apply Nat.div_le_lower_bound; lia|].
      apply Nat.Div0.div_lt_upper_bound; lia. }
    destruct (v !! Nat.div2 (l + r)) as [s|] eqn:Hs;
      [|apply lookup_ge_None in Hs; exfalso; lia].
    destruct (String.ltb k (SST.key s)) eqn:Hks.
    + assert (Hhi' : forall i s', (Nat.div2 (l + r) <= i)%nat -> v !! i = Some s' ->
                                  String.ltb k (SST.key s') = true).
      { intros i s' Hi Hs'.
        destruct (decide (i = Nat.div2 (l + r))) as [->|Hne]; [congruence|].
        eapply ltb_trans; [exact Hks|].
        eapply (Hmono (Nat.div2 (l + r)) i); eauto. lia. }
      destruct (IH l (Nat.div2 (l + r)) ltac:(lia) ltac:(lia) Hlo Hhi')
        as (H1 & H2 & H3).
      split; [lia|]. split; assumption.
    + assert (Hlo' : forall i s', (i < S (Nat.div2 (l + r)))%nat -> v !! i = Some s' ->
                                  String.ltb k (SST.key s') = false).
      { intros i s' Hi Hs'.
        destruct (decide (i = Nat.div2 (l + r))) as [->|Hne]; [congruence|].
        destruct (String.ltb k (SST.key s')) eqn:Hks'; [|reflexivity].
        assert (Hlt' : String.ltb (SST.key s') (SST.key s) = true)
          by (eapply (Hmono i (Nat.div2 (l + r))); eauto; lia).
        rewrite (ltb_trans _ _ _ Hks' Hlt') in Hks. discriminate. }
      destruct (IH (S (Nat.div2 (l + r))) r ltac:(lia) ltac:(lia) Hlo' Hhi)
        as (H1 & H2 & H3).
      split; [lia|]. split; assumption.
  - assert (l = r) by lia. subst. split; [lia|]. split; auto.
Qed.

(** When at most the table at [p] holds the key, the overlay answers as
    that table does. *)
Lemma overlay_only (v : list SST.t) (k : string) (p : nat) :
  (forall i s, i <> p -> v !! i = Some s -> lookup (data_index_ s) k = None) ->
  overlay (map data_index_ v) k =
  match v !! p with
  | Some t => lookup (data_index_ t) k
  | None => None
  end.
Proof.
  revert p. induction v as [|s v IH]; intros p Hn; [reflexivity|].
  cbn [map overlay]. destruct p as [|p].
  - cbn [lookup]. change ((s :: v) !! 0%nat) with (Some s).
    destruct (lookup (data_index_ s) k) as [x|]; [reflexivity|].
    rewrite (IH (length v)).
    + rewrite lookup_ge_None_2 by lia. reflexivity.
    + intros i s' _ Hs'. apply (Hn (S i) s'); [lia|exact Hs'].
  - rewrite (Hn 0%nat s) by (try lia; reflexivity).
    change ((s :: v) !! S p) with (v !! p). apply IH.
    intros i s' Hi Hs'. apply (Hn (S i) s'); [lia|exact Hs'].
Qed.

(** Two tables, the keys of the first below the keys of the second. *)
Lemma ordered_ranges_pair (a b : SST.t) : below a b -> ordered_ranges [a; b].
Proof.
  intros Hbelow i j x y ea eb Hij Hx Hy.
  destruct i as [|[|i]]; destruct j as [|[|[|j]]]; try lia; try discriminate.
  injection Hx as <-. injection Hy as <-. apply Hbelow.
Qed.

(** The one table [Level::Get] probes on a sorted level is the right one. *)
Lemma Level_Get_probe (lv : Level) (k : string) :
  level_ lv <> 0%nat ->
  Forall built (ssts_ lv) -> ordered_ranges (ssts_ lv) ->
  Level_Get lv k = Ok (overlay (map data_index_ (ssts_ lv)) k).
Proof.
  intros Hlv Hb Hord. unfold Level_Get.
  destruct (level_ lv) as [|lvl]; [contradiction|].
  set (v := ssts_ lv) in *.
  assert (Hmono : forall i j a b, (i < j)%nat -> v !! i = Some a -> v !! j = Some b ->
                    String.ltb (SST.key a) (SST.key b) = true).
  { intros i j a b. apply first_keys_ascend; assumption. }
  destruct (upper_bound_spec v k (S (length v)) 0 (length v) Hmono)
    as (Hr & Hlo & Hhi); try lia.
  { intros i s Hi Hs. apply lookup_lt_Some in Hs. lia. }
  pose proof Hb as Hb'. rewrite Forall_forall in Hb'.
  assert (Habove : forall i s, (upper_bound (S (length v)) v k 0 (length v) <= i)%nat ->
                     v !! i = Some s -> lookup (data_index_ s) k = None).
  { intros i s Hi Hs. apply lookup_absent. intros e He Hk.
    destruct (built_first_key s) as [_ Hge];
      [apply Hb'; eapply list_elem_of_lookup_2; eauto|].
    specialize (Hge e He). rewrite Hk in Hge.
    rewrite (Hhi i s Hi Hs) in Hge. discriminate. }
  destruct (upper_bound (S (length v)) v k 0 (length v)) as [|l'] eqn:Hp.
  - f_equal. rewrite (overlay_only v k (length v)).
    + rewrite lookup_ge_None_2 by lia. reflexivity.
    + intros i s _ Hs. apply (Habove i s); [lia|exact Hs].
  - destruct (lookup_lt_is_Some_2 v l' ltac:(lia)) as [t Ht]. rewrite Ht.
    rewrite built_Get by (apply Hb'; eapply list_elem_of_lookup_2; eauto).
    f_equal. rewrite (overlay_only v k l'); [rewrite Ht; reflexivity|].
    intros i s Hi Hs. destruct (le_lt_dec (S l') i) as [Hge|Hlt].
    + apply (Habove i s Hge Hs).
    + apply lookup_absent. intros e He Hk.
      destruct (built_first_key t) as [(et & Het & Hkt) _];
        [apply Hb'; eapply list_elem_of_lookup_2; eauto|].
      pose proof (Hord i l' s t e et ltac:(lia) Hs Ht He Het) as Hlt'.
      rewrite Hk, Hkt in Hlt'.
      rewrite (Hlo l' t ltac:(lia) Ht) in Hlt'. discriminate.
Qed.

(** X23.  A level above 0 is read right.  When the tables of the level
    are as the constructor builds them and stand in the order of their
    keys without overlapping, [Level::Get], which probes one table only,
    returns for every key what the tables of the level hold for it. *)
Theorem Level_Get_sorted (lv : Level) (k : string) :
  level_ lv <> 0%nat ->
  Forall built (ssts_ lv) -> ordered_ranges (ssts_ lv) ->
  Level_Get lv k = Ok (overlay (map data_index_ (ssts_ lv)) k).
Proof. exact (Level_Get_probe lv k). Qed.

Lemma Level_Get_sorted_witness :
  Level_Get (mkLevel 1 [table [("a", "x")] 1 0; table [("a5", "y")] 2 15]) "a5"
  = Ok (Some "y").
Proof.
  rewrite (Level_Get_sorted (mkLevel 1 [table [("a", "x")] 1 0; table [("a5", "y")] 2 15])).
  - reflexivity.
  - discriminate.
  - cbn [ssts_]. unfold table.
    repeat match goal with
           | |- Forall _ (_ :: _) => apply List.Forall_cons
           | |- Forall _ [] => apply List.Forall_nil
           end.
    + destruct (SST.build small_bloom_params [("a", "x")] 1 0) as [[s c]| |] eqn:Hs;
        [|vm_compute in Hs; discriminate..].
      assert (Hs' : SST.build capped_bloom_params [("a", "x")] 1 0 = Ok (s, c))
        by exact Hs.
      eapply (build_built capped_bloom_params);
        [exact TableUse.capped_bloom_params_sized| |exact Hs']; cbn; auto.
    + destruct (SST.build small_bloom_params [("a5", "y")] 2 15) as [[s c]| |] eqn:Hs;
        [|vm_compute in Hs; discriminate..].
      assert (Hs' : SST.build capped_bloom_params [("a5", "y")] 2 15 = Ok (s, c))
        by exact Hs.
      eapply (build_built capped_bloom_params);
        [exact TableUse.capped_bloom_params_sized| |exact Hs']; cbn; auto.
  - cbn [ssts_]. apply ordered_ranges_pair. intros ea eb Hea Heb.
    vm_compute in Hea, Heb.
    apply list_elem_of_singleton in Hea as ->. apply list_elem_of_singleton in Heb as ->.
    reflexivity.
Defined.

End LevelFacts.

(** ** The first pair of a skip list *)

Module SkipListUse.
Import Word WordFacts Result SkipList.
Local Open Scope Z_scope.

Lemma repeat_lookup {X : Type} (x : X) (n i : nat) :
  (i < n)%nat -> repeat x n !! i = Some x.
Proof.
  revert i. induction n as [|n IH]; intros i Hi; [lia|].
  destruct i as [|i]; [reflexivity|]. cbn. apply IH. lia.
Qed.

Lemma repeat_insert_same {X : Type} (x : X) (n i : nat) :
  <[i := x]> (repeat x n) = repeat x n.
Proof.
  revert i. induction n as [|n IH]; intros i; [reflexivity|].
  destruct i as [|i]; [reflexivity|]. cbn. f_equal. apply IH.
Qed.

Lemma repeat_snoc {X : Type} (x : X) (n : nat) : repeat x n ++ [x] = repeat x (S n).
Proof. induction n as [|n IH]; [reflexivity|]. cbn. f_equal. exact IH. Qed.

Lemma node_at_eq (sl : t) (p : nat) (n : Node) :
  nodes_ sl !! p = Some n -> node_at sl p = Ok n.
Proof. intros H. unfold node_at. rewrite H. reflexivity. Qed.

Lemma next_at_eq (sl : t) (p : nat) (n : Node) (level : nat) :
  nodes_ sl !! p = Some n -> next_at sl p level = of_option (nexts n !! level).
Proof. intros H. unfold next_at. rewrite (node_at_eq sl p n H). reflexivity. Qed.

Lemma set_next_eq (sl : t) (p : nat) (n : Node) (level : nat) (q : option nat) :
  nodes_ sl !! p = Some n -> (level < length (nexts n))%nat ->
  set_next sl p level q
  = Ok (set_node sl p (mkNode (<[level := q]> (nexts n)) (key n) (value n))).
Proof.
  intros H Hl. unfold set_next. rewrite (node_at_eq sl p n H).
  unfold mbind, result_bind. cbn [bind].
  replace (level <? length (nexts n))%nat with true by (symmetry; apply Nat.ltb_lt; lia).
  reflexivity.
Qed.

(** The linking loop on a list that holds one pair: each turn stays at
    the head and hooks the node in on its level. *)
Lemma link_holds_one (fuel : nat) (k v : string) (levels : nat) :
  forall (unlinked : nat) (sl : t),
    (unlinked <= levels)%nat ->
    holds_one sl k v levels unlinked ->
    exists sl',
      link (S fuel) sl k unlinked levels 1%nat 0%nat = Ok sl'
      /\ holds_one sl' k v levels 0
      /\ size_ sl' = size_ sl /\ binary_size_ sl' = binary_size_ sl.
Proof.
  induction unlinked as [|j IH]; intros sl Hj Hs.
  - exists sl. conj_split; auto.
  - destruct Hs as (Hh & Hf & H0 & H1).
    assert (Hnone : (repeat (@None nat) (S j) ++ repeat (Some 1%nat) (levels - S j)) !! j
                    = Some None).
    { rewrite lookup_app_l by (rewrite repeat_length; lia). apply repeat_lookup. lia. }
    cbn [link]. cbn [walk]. rewrite (next_at_eq sl 0 _ j H0). cbn [nexts].
    rewrite Hnone. unfold mbind, result_bind. cbn [of_option bind].
    replace (j <? levels)%nat with true by (symmetry; apply Nat.ltb_lt; lia).
    rewrite (next_at_eq sl 0 _ j H0). cbn [nexts]. rewrite Hnone. cbn [of_option bind].
    rewrite (set_next_eq sl 1 _ j None H1) by (cbn [nexts]; rewrite repeat_length; lia).
    cbn [bind nexts key value]. rewrite repeat_insert_same.
    erewrite (set_next_eq _ 0 _ j (Some 1%nat)).
    2: { unfold set_node. cbn [nodes_]. rewrite lookup_insert_ne by lia. exact H0. }
    2: { cbn [nexts]. rewrite length_app, !repeat_length. lia. }
    cbn [bind nexts key value].
    match goal with
    | |- exists sl', link _ ?s _ _ _ _ _ = _ /\ _ =>
        destruct (IH s) as (sl' & Hl & Hs' & Hsz & Hbs)
    end.
    + lia.
    + unfold holds_one, set_node. cbn [head_ fresh_ nodes_]. conj_split; auto.
      * rewrite lookup_insert_eq. do 2 f_equal.
        replace (levels - j)%nat with (S (levels - S j)) by lia.
        rewrite <- (repeat_snoc None j), <- app_assoc. cbn [app].
        rewrite insert_app_r_alt by (rewrite repeat_length; lia).
        rewrite repeat_length, Nat.sub_diag. reflexivity.
      * rewrite lookup_insert_ne by lia. rewrite lookup_insert_eq. reflexivity.
    + exists sl'. conj_split; auto.
Qed.

(** The searches on a list that holds one pair, fully linked. *)
Lemma walk_from_head (fuel : nat) (sl : t) (k v k' : string) (levels level : nat) :
  holds_one sl k v levels 0 -> (level < levels)%nat ->
  walk (S (S fuel)) sl level k' 0%nat = Ok (if String.ltb k k' then 1%nat else 0%nat).
Proof.
  intros (Hh & Hf & H0 & H1) Hl. cbn [walk].
  rewrite (next_at_eq sl 0 _ level H0). cbn [nexts repeat app].
  rewrite Nat.sub_0_r, repeat_lookup by lia.
  unfold mbind, result_bind. cbn [of_option bind].
  rewrite (node_at_eq sl 1 _ H1). cbn [bind key].
  destruct (String.ltb k k'); [|reflexivity].
  rewrite (next_at_eq sl 1 _ level H1). cbn [nexts].
  rewrite repeat_lookup by lia. reflexivity.
Qed.

Lemma walk_from_node (fuel : nat) (sl : t) (k v k' : string) (levels level : nat) :
  holds_one sl k v levels 0 -> (level < levels)%nat ->
  walk (S fuel) sl level k' 1%nat = Ok 1%nat.
Proof.
  intros (Hh & Hf & H0 & H1) Hl. cbn [walk].
  rewrite (next_at_eq sl 1 _ level H1). cbn [nexts].
  rewrite repeat_lookup by lia. reflexivity.
Qed.

Lemma descend_from_node (fuel : nat) (sl : t) (k v k' : string) (levels : nat) :
  holds_one sl k v levels 0 ->
  forall j, (j <= levels)%nat -> descend (S fuel) sl k' j 1%nat = Ok 1%nat.
Proof.
  intros Hs. induction j as [|j IH]; intros Hj; [reflexivity|].
  cbn [descend]. rewrite (walk_from_node fuel sl k v k' levels j Hs) by lia.
  unfold mbind, result_bind. cbn [bind]. apply IH. lia.
Qed.

Lemma descend_from_head (fuel : nat) (sl : t) (k v k' : string) (levels : nat) :
  holds_one sl k v levels 0 ->
  forall j, (S j <= levels)%nat ->
    descend (S (S fuel)) sl k' (S j) 0%nat
    = Ok (if String.ltb k k' then 1%nat else 0%nat).
Proof.
  intros Hs. induction j as [|j IH]; intros Hj.
  - cbn [descend]. rewrite (walk_from_head fuel sl k v k' levels 0 Hs) by lia.
    reflexivity.
  - change (descend (S (S fuel)) sl k' (S (S j)) 0%nat)
      with (p ← walk (S (S fuel)) sl (S j) k' 0%nat; descend (S (S fuel)) sl k' (S j) p).
    rewrite (walk_from_head fuel sl k v k' levels (S j) Hs) by lia.
    unfold mbind, result_bind. cbn [bind].
    destruct (String.ltb k k') eqn:Hlt.
    + apply (descend_from_node (S fuel) sl k v k' levels Hs). lia.
    + apply IH. lia.
Qed.

Lemma holds_one_linked (sl : t) (k v : string) (levels : nat) :
  holds_one sl k v levels 0 ->
  head_ sl = 0%nat /\ fresh_ sl = 2%nat
  /\ nodes_ sl !! 0%nat = Some (mkNode (repeat (Some 1%nat) levels) "" "")
  /\ nodes_ sl !! 1%nat = Some (mkNode (repeat None levels) k v).
Proof.
  intros (Hh & Hf & H0 & H1). cbn [repeat app] in H0. rewrite Nat.sub_0_r in H0. auto.
Qed.

(** What a list that holds one pair answers. *)
Lemma holds_one_Get (sl : t) (k v k' : string) (levels : nat) :
  holds_one sl k v levels 0 -> (0 < levels)%nat ->
  Get sl k' = Ok (if String.eqb k k' then Some v else None).
Proof.
  intros Hs Hl. destruct (holds_one_linked sl k v levels Hs) as (Hh & Hf & H0 & H1).
  unfold Get, levels_of, fuel_of. rewrite Hh, Hf, (node_at_eq sl 0 _ H0).
  unfold mbind, result_bind. cbn [bind nexts].
  rewrite repeat_length.
  destruct levels as [|j]; [lia|].
  rewrite (descend_from_head 1 sl k v k' (S j) Hs j) by lia. cbn [bind].
  destruct (String.ltb k k') eqn:Hlt.
  - rewrite (next_at_eq sl 1 _ 0 H1). cbn [nexts].
    rewrite repeat_lookup by lia. cbn [of_option bind].
    destruct (String.eqb_spec k k') as [->|Hne]; [|reflexivity].
    rewrite KeyOrder.ltb_irrefl in Hlt. discriminate.
  - rewrite (next_at_eq sl 0 _ 0 H0). cbn [nexts].
    rewrite repeat_lookup by lia. cbn [of_option bind].
    rewrite (node_at_eq sl 1 _ H1). cbn [bind key value].
    destruct (String.eqb k k'); reflexivity.
Qed.

Lemma holds_one_entries (sl : t) (k v : string) (levels : nat) :
  holds_one sl k v levels 0 -> (0 < levels)%nat ->
  entries sl = Ok [(k, v)].
Proof.
  intros Hs Hl. destruct (holds_one_linked sl k v levels Hs) as (Hh & Hf & H0 & H1).
  unfold entries, fuel_of. rewrite Hh, Hf, (next_at_eq sl 0 _ 0 H0). cbn [nexts].
  rewrite repeat_lookup by lia.
  unfold mbind, result_bind. cbn [of_option bind iterate].
  rewrite (node_at_eq sl 1 _ H1). unfold mbind, result_bind. cbn [bind nexts].
  rewrite repeat_lookup by lia. cbn [of_option bind key value].
  reflexivity.
Qed.

Lemma resize_head (n : nat) : (0 < n)%nat -> resize [None] n = repeat None n.
Proof.
  intros Hn. unfold resize. destruct n as [|n]; [lia|].
  cbn [take length repeat app Nat.sub]. rewrite take_nil, Nat.sub_0_r. reflexivity.
Qed.

(** Before the node is linked in, every search stays at the head. *)
Lemma descend_unlinked (fuel : nat) (sl : t) (k v k' : string) (levels : nat) :
  holds_one sl k v levels levels ->
  forall j, (j <= levels)%nat -> descend (S fuel) sl k' j 0%nat = Ok 0%nat.
Proof.
  intros (Hh & Hf & H0 & H1). induction j as [|j IH]; intros Hj; [reflexivity|].
  cbn [descend walk]. rewrite (next_at_eq sl 0 _ j H0). cbn [nexts].
  rewrite lookup_app_l by (rewrite repeat_length; lia).
  rewrite repeat_lookup by lia. unfold mbind, result_bind. cbn [of_option bind].
  apply IH. lia.
Qed.

(** [Put] on the empty list, for every level the node may get. *)
Lemma Put_first_pair (k v : string) (draws rest : list Z) (new_level : Z) :
  RandLevel.RandLevel draws = Some (new_level, rest) ->
  0 < new_level ->
  exists sl,
    Put create k v draws = Ok (sl, rest)
    /\ (forall k', Get sl k' = Ok (if String.eqb k k' then Some v else None))
    /\ entries sl = Ok [(k, v)]
    /\ size sl = 1
    /\ binary_size sl = wrap64 (str_size k + str_size v).
Proof.
  intros Hr Hpos. set (L := Z.to_nat new_level). assert (HL : (0 < L)%nat) by lia.
  unfold Put.
  change (levels_of create) with (Ok (A := nat) 1%nat).
  unfold mbind, result_bind. cbn [bind].
  assert (Hd : descend_path (fuel_of create) create k 1 (head_ create) [] = Ok (0%nat, []))
    by reflexivity.
  rewrite Hd. cbn [bind].
  change (next_at create 0 0) with (Ok (A := option nat) None). cbn [bind].
  rewrite Hr. fold L.
  change (fresh_ create) with 1%nat. change (head_ create) with 0%nat.
  change (size_ create) with 0. change (binary_size_ create) with 0.
  cbn [head_]. rewrite !Z.add_0_l.
  set (node := mkNode (repeat None L) k v).
  set (sl1 := {| nodes_ := <[1%nat := node]> (nodes_ create); head_ := 0%nat;
                 fresh_ := 2%nat; size_ := wrap64 1;
                 binary_size_ := wrap64 (wrap64 (str_size k + str_size v)) |}).
  assert (Hfirst : exists sl0,
             (if (1 <? L)%nat
              then
                bind (resize_node sl1 0 L)
                  (fun sl0 => bind (resize_path sl0 [] L)
                     (fun sl2 => bind (levels_of sl2)
                        (fun levels => bind (descend (fuel_of sl2) sl2 k levels (head_ sl2))
                           (fun p => Ok (sl2, p)))))
              else Ok (sl1, 0%nat)) = Ok (sl0, 0%nat)
             /\ holds_one sl0 k v L L
             /\ size_ sl0 = wrap64 1
             /\ binary_size_ sl0 = wrap64 (wrap64 (str_size k + str_size v))).
  { assert (H0 : nodes_ sl1 !! 0%nat = Some (mkNode [None] "" "")).
    { subst sl1. cbn [nodes_]. rewrite lookup_insert_ne by lia. reflexivity. }
    assert (H1 : nodes_ sl1 !! 1%nat = Some node).
    { subst sl1. cbn [nodes_]. apply lookup_insert_eq. }
    destruct (Nat.ltb_spec 1 L) as [Hlt|Hle].
    - unfold resize_node. rewrite (node_at_eq sl1 0 _ H0).
      unfold mbind, result_bind. cbn [bind nexts key value resize_path].
      rewrite resize_head by lia.
      set (sl2 := set_node sl1 0 (mkNode (repeat None L) "" "")).
      assert (Hs2 : holds_one sl2 k v L L).
      { unfold holds_one. subst sl2 sl1. unfold set_node. cbn [head_ fresh_ nodes_].
        conj_split; auto;
          try (rewrite lookup_insert_ne by lia; apply lookup_insert_eq).
        rewrite lookup_insert_eq, Nat.sub_diag. cbn [repeat]. rewrite app_nil_r.
        reflexivity. }
      pose proof Hs2 as (Hh2 & Hf2 & H02 & H12).
      unfold levels_of, fuel_of. rewrite Hh2, Hf2, (node_at_eq sl2 0 _ H02).
      unfold mbind, result_bind. cbn [bind nexts].
      rewrite length_app, !repeat_length.
      replace (L + (L - L))%nat with L by lia.
      rewrite (descend_unlinked 2 sl2 k v k L Hs2 L) by lia. cbn [bind].
      exists sl2. conj_split; auto.
    - assert (L = 1%nat) as HL1 by lia.
      exists sl1. conj_split; auto.
      unfold holds_one. cbn [head_ fresh_]. conj_split; auto.
      rewrite H0, HL1. reflexivity. }
  destruct Hfirst as (sl0 & -> & Hs0 & Hsz & Hbs). cbn [bind].
  pose proof Hs0 as (Hh0 & Hf0 & H00 & H10).
  unfold levels_of, fuel_of. rewrite Hh0, (node_at_eq sl0 0 _ H00).
  unfold mbind, result_bind. cbn [bind nexts].
  rewrite length_app, !repeat_length. replace (L + (L - L))%nat with L by lia.
  rewrite (node_at_eq sl0 1 _ H10). cbn [bind nexts]. rewrite repeat_length, Nat.ltb_irrefl.
  cbn [bind]. rewrite Hf0.
  destruct (link_holds_one 2 k v L L sl0 (le_n L) Hs0) as (sl & Hl & Hs & Hsz' & Hbs').
  rewrite Hl. cbn [bind]. exists sl. split; [reflexivity|].
  split; [intros k'; apply (holds_one_Get sl k v k' L Hs HL)|].
  split; [apply (holds_one_entries sl k v L Hs HL)|].
  unfold size, binary_size. rewrite Hsz', Hsz, Hbs', Hbs. split; [reflexivity|].
  apply wrap64_small, wrap64_range.
Qed.

(** X26.  The first pair of a skip list.  [Put] into an empty list ends
    whatever level [RandLevel] gives the node (a level that fits the [int]
    the loops count in), and leaves a list of one pair: [Get] returns the
    value for the key and nothing for every other key, the iterator yields
    the pair alone, and the sizes are those of the pair. *)
Theorem Put_into_empty (k v : string) (draws rest : list Z) (new_level : Z) :
  RandLevel.RandLevel draws = Some (new_level, rest) ->
  0 < new_level < 2 ^ 31 ->
  exists sl,
    Put create k v draws = Ok (sl, rest)
    /\ (forall k', Get sl k' = Ok (if String.eqb k k' then Some v else None))
    /\ entries sl = Ok [(k, v)]
    /\ size sl = 1
    /\ binary_size sl = wrap64 (str_size k + str_size v).
Proof. intros Hr [Hpos _]. exact (Put_first_pair k v draws rest new_level Hr Hpos). Qed.

(** Witness of X26: the counter at 0 gives the node two levels. *)
Lemma Put_into_empty_witness :
  exists sl,
    Put create "a" "1" [0; 1; 2] = Ok (sl, [2])
    /\ (forall k', Get sl k' = Ok (if String.eqb "a" k' then Some "1" else None))
    /\ entries sl = Ok [("a", "1")]
    /\ size sl = 1
    /\ binary_size sl = wrap64 (str_size "a" + str_size "1").
Proof.
  apply (Put_into_empty "a" "1" [0; 1; 2] [2] 2); [reflexivity|split; reflexivity].
Defined.

End SkipListUse.

(** ** The first pair of an engine *)

Module DBFirstPut.
Import Word WordFacts Result DB.
Local Open Scope Z_scope.

(** X27.  The first [Put] into a fresh engine can be read back.  In a
    directory without a manifest file and a process where the engine alone
    draws from the counter, a [Put] into a fresh engine whose key and
    value fit the memtable limit ends without moving the memtable: the
    flush thread is not woken and [inmemtables_] stays empty.  [Get] then
    returns the value for the key and nothing for every other key. *)
Theorem first_Put_then_Get (config : DBConfig) (counter : Z) (k v : string) :
  is_size_t counter -> counter + 2 < size_max ->
  SkipList.str_size k + SkipList.str_size v <= memtable_max_size config ->
  memtable_max_size config < size_max ->
  exists db',
    Put (create config counter) k v = Ok db'
    /\ inmemtables_ db' = []
    /\ manifest_ db' = Manifest.fresh
    /\ forall k', Get db' k' = Ok (if String.eqb k k' then Some v else None).
Proof.
  intros Hc Hr Hfit Hmax.
  destruct (RandLevelFacts.RandLevel_alone_at_most_2 counter 62 Hc Hr)
    as (level & rest & Hlevel & Hrange).
  destruct (SkipListUse.Put_first_pair k v _ rest level Hlevel ltac:(lia))
    as (sl & Hput & Hget & _ & _ & Hsize).
  unfold Put, MemTable.Put. cbn [memtable_ counter_ create].
  change MemTable.create with SkipList.create.
  change (repeat 0%nat draw_budget) with (repeat 0%nat 64).
  rewrite Hput. unfold mbind, result_bind. cbn [bind].
  cbn [config_ create inmemtables_ manifest_ app].
  assert (Hsmall : (memtable_max_size config <? MemTable.binary_size sl) = false).
  { apply Z.ltb_ge. unfold MemTable.binary_size. rewrite Hsize.
    rewrite wrap64_small; [exact Hfit|].
    unfold is_size_t, SkipList.str_size in *. lia. }
  rewrite Hsmall.
  eexists. split; [reflexivity|]. cbn [inmemtables_ manifest_].
  split; [reflexivity|]. split; [reflexivity|].
  intros k'. unfold Get.
  cbn [memtable_ inmemtables_ manifest_ rev app Manifest.first_hit].
  unfold mbind, result_bind. unfold MemTable.Get. rewrite Hget.
  cbn [bind]. destruct (String.eqb k k'); reflexivity.
Qed.

(** Witness of X27: a pair of three bytes under a limit of three. *)
Lemma first_Put_then_Get_witness :
  exists db',
    Put (create {| memtable_max_size := 3 |} 0) "a" "12" = Ok db'
    /\ inmemtables_ db' = []
    /\ manifest_ db' = Manifest.fresh
    /\ forall k', Get db' k' = Ok (if String.eqb "a" k' then Some "12" else None).
Proof.
  apply (first_Put_then_Get {| memtable_max_size := 3 |} 0 "a" "12").
  - vm_compute. intuition congruence.
  - reflexivity.
  - vm_compute. discriminate.
  - reflexivity.
Defined.

(** X32.  A key cannot be read while its memtable is being flushed.  A
    first [Put] whose key and value exceed the memtable limit moves the
    memtable to [inmemtables_], where [Get] still finds the key; once the
    flush thread has taken the memtable out of [inmemtables_], and until
    it has appended the new manifest, [Get] of the key just written
    answers that there is no such key. *)
Theorem flushed_memtable_is_hidden (config : DBConfig) (counter : Z) (k v : string) :
  is_size_t counter -> counter + 2 < size_max ->
  memtable_max_size config < SkipList.str_size k + SkipList.str_size v ->
  SkipList.str_size k + SkipList.str_size v < size_max ->
  exists db' mt db'',
    Put (create config counter) k v = Ok db'
    /\ inmemtables_ db' = [mt]
    /\ Get db' k = Ok (Some v)
    /\ ToSSTLoop_take db' = Some (mt, db'')
    /\ inmemtables_ db'' = [] /\ manifest_ db'' = Manifest.fresh
    /\ Get db'' k = Ok None.
Proof.
  intros Hc Hr Hbig Hfit.
  destruct (RandLevelFacts.RandLevel_alone_at_most_2 counter 62 Hc Hr)
    as (level & rest & Hlevel & Hrange).
  destruct (SkipListUse.Put_first_pair k v _ rest level Hlevel ltac:(lia))
    as (sl & Hput & Hget & _ & _ & Hsize).
  unfold Put, MemTable.Put. cbn [memtable_ counter_ create].
  change MemTable.create with SkipList.create.
  change (repeat 0%nat draw_budget) with (repeat 0%nat 64).
  rewrite Hput. unfold mbind, result_bind. cbn [bind].
  cbn [config_ create inmemtables_ manifest_ app].
  assert (Hover : (memtable_max_size config <? MemTable.binary_size sl) = true).
  { apply Z.ltb_lt. unfold MemTable.binary_size. rewrite Hsize.
    rewrite wrap64_small; [exact Hbig|].
    unfold is_size_t, SkipList.str_size in *. lia. }
  rewrite Hover.
  eexists _, sl, _. split; [reflexivity|]. cbn [inmemtables_].
  split; [reflexivity|].
  assert (Hk : SkipList.Get sl k = Ok (Some v))
    by (rewrite Hget, String.eqb_refl; reflexivity).
  split.
  { unfold Get. cbn [memtable_ inmemtables_ manifest_ rev app Manifest.first_hit].
    change (MemTable.Get SkipList.create k) with (Ok (A := option string) None).
    unfold mbind, result_bind. cbn [bind]. unfold MemTable.Get. rewrite Hk.
    reflexivity. }
  unfold ToSSTLoop_take. cbn [inmemtables_ config_ memtable_ manifest_ counter_].
  split; [reflexivity|]. split; [reflexivity|]. split; [reflexivity|].
  reflexivity.
Qed.

(** Witness of X32: a pair of four bytes over a limit of three. *)
Lemma flushed_memtable_is_hidden_witness :
  exists db' mt db'',
    Put (create {| memtable_max_size := 3 |} 0) "a" "123" = Ok db'
    /\ inmemtables_ db' = [mt]
    /\ Get db' "a" = Ok (Some "123")
    /\ ToSSTLoop_take db' = Some (mt, db'')
    /\ inmemtables_ db'' = [] /\ manifest_ db'' = Manifest.fresh
    /\ Get db'' "a" = Ok None.
Proof.
  apply (flushed_memtable_is_hidden {| memtable_max_size := 3 |} 0 "a" "123").
  - vm_compute. intuition congruence.
  - reflexivity.
  - reflexivity.
  - reflexivity.
Defined.

End DBFirstPut.

(** ** The merge loop and the end of a table *)

Module MergeReads.
Import Word WordFacts Result SST Manifest.
Local Open Scope Z_scope.

Lemma top_from_lookup (q : list Cursor) :
  forall (i0 : nat) (best : nat * Cursor) (all : list Cursor),
    all !! fst best = Some (snd best) ->
    (forall j c, q !! j = Some c -> all !! (i0 + j)%nat = Some c) ->
    all !! fst (top_from q i0 best) = Some (snd (top_from q i0 best)).
Proof.
  induction q as [|c q IH]; intros i0 best all Hb Hq; [exact Hb|].
  cbn [top_from]. apply IH.
  - destruct (Cursor_lt (snd best) c); [|exact Hb].
    cbn [fst snd]. rewrite <- (Nat.add_0_r i0). apply Hq. reflexivity.
  - intros j x Hj. replace (S i0 + j)%nat with (i0 + S j)%nat by lia.
    apply Hq. exact Hj.
Qed.

(** The top of a queue is one of its cursors, and a queue that is not
    empty has one. *)
Lemma top_lookup (q : list Cursor) :
  q <> [] -> exists i c, top q = Some (i, c) /\ q !! i = Some c.
Proof.
  destruct q as [|c0 q]; [contradiction|]. intros _. unfold top.
  destruct (top_from q 1 (0%nat, c0)) as [i c] eqn:Ht.
  exists i, c. split; [reflexivity|].
  pose proof (top_from_lookup q 1 (0%nat, c0) (c0 :: q) eq_refl) as H.
  rewrite Ht in H. apply H. intros j x Hj. exact Hj.
Qed.

Lemma pending_cons (c : Cursor) (q : list Cursor) :
  pending (c :: q) = (S (length (rest c)) + pending q)%nat.
Proof. reflexivity. Qed.

Lemma pending_insert (q : list Cursor) :
  forall (i : nat) (c c' : Cursor),
    q !! i = Some c ->
    (pending (<[i := c']> q) + length (rest c)
     = pending q + length (rest c'))%nat.
Proof.
  induction q as [|x q IH]; intros i c c' Hi; [discriminate|].
  destruct i as [|i].
  - injection Hi as ->. cbn [insert list_insert]. rewrite !pending_cons. lia.
  - specialize (IH i c c' Hi). cbn [insert list_insert]. fold (insert i c' q).
    rewrite !pending_cons, <- !Nat.add_assoc. f_equal. exact IH.
Qed.

(** A merge loop that starts with a cursor in its queue does not end: it
    comes to a cursor on the last entry of its table, and the increment
    reads past the end. *)
Lemma merge_checked_reads_past_the_end (fuel : nat) :
  forall (q : list Cursor) (entries : list Entry),
    q <> [] -> (pending q <= S fuel)%nat ->
    merge_checked fuel q entries = OutOfBounds.
Proof.
  induction fuel as [|fuel IH]; intros q entries Hq Hp;
    destruct (top_lookup q Hq) as (i & c & Ht & Hi);
    cbn [merge_checked]; unfold merge_step_checked, merge_step; rewrite Ht;
    destruct (rest c) as [|e es] eqn:Hr; try reflexivity;
    unfold mbind, result_bind; cbn [bind].
  - exfalso.
    pose proof (pending_insert q i c (mkCursor e es (second_value c)) Hi) as Hpi.
    rewrite Hr in Hpi. cbn [rest length] in Hpi.
    destruct q as [|c0 [|c1 q]]; [contradiction| |].
    + destruct i as [|i]; [|discriminate]. injection Hi as ->.
      rewrite pending_cons, Hr in Hp. cbn [length] in Hp. lia.
    + rewrite !pending_cons in Hp. lia.
  - apply IH.
    + intros Hnil. apply (f_equal (@length _)) in Hnil.
      rewrite length_insert in Hnil. destruct q; [contradiction|discriminate].
    + pose proof (pending_insert q i c (mkCursor e es (second_value c)) Hi) as Hpi.
      rewrite Hr in Hpi. cbn [rest length] in Hpi. lia.
Qed.

Lemma emplace_grows (q : list Cursor) (s : SST.t) (value : Z) (q' : list Cursor) :
  emplace q s value = Ok q' -> q' <> [].
Proof.
  unfold emplace. destruct (data_index_ s); [discriminate|].
  intros [= <-]. destruct q; discriminate.
Qed.

Lemma collect_level_grows (ssts : list SST.t) :
  forall q value min_key max_key q' value' min_key' max_key',
    collect_level ssts q value min_key max_key = Ok (q', value', min_key', max_key') ->
    ssts <> [] \/ q <> [] -> q' <> [].
Proof.
  induction ssts as [|s ssts IH]; intros q value mn mx q' value' mn' mx' Hc Hne.
  - cbn in Hc. injection Hc as <- _ _ _. destruct Hne as [H|H]; [contradiction|exact H].
  - cbn [collect_level] in Hc. unfold mbind, result_bind in Hc.
    destruct (emplace q s value) as [q1| |] eqn:He; cbn [bind] in Hc; try discriminate.
    destruct (begin_key s) as [bk| |]; cbn [bind] in Hc; try discriminate.
    destruct (rbegin_key s) as [ek| |]; cbn [bind] in Hc; try discriminate.
    eapply IH; [exact Hc|]. right. eapply emplace_grows; eauto.
Qed.

Lemma collect_next_grows (ssts : list SST.t) :
  forall i q value min_key max_key insert_l insert_r q' value' insert_l' insert_r',
    collect_next ssts i q value min_key max_key insert_l insert_r
    = Ok (q', value', insert_l', insert_r') ->
    q <> [] -> q' <> [].
Proof.
  induction ssts as [|s ssts IH];
    intros i q value mn mx il ir q' value' il' ir' Hc Hne.
  - cbn in Hc. injection Hc as <- _ _ _. exact Hne.
  - cbn [collect_next] in Hc. unfold mbind, result_bind in Hc.
    destruct (begin_key s) as [bk| |]; cbn [bind] in Hc; try discriminate.
    destruct (rbegin_key s) as [ek| |]; cbn [bind] in Hc; try discriminate.
    destruct (String.ltb ek mn); [eapply IH; eauto|].
    destruct (String.ltb mx bk); [injection Hc as <- _ _ _; exact Hne|].
    destruct (emplace q s value) as [q1| |] eqn:He; cbn [bind] in Hc; try discriminate.
    eapply IH; [exact Hc|]. eapply emplace_grows; eauto.
Qed.

Lemma collect_level_ends (ssts : list SST.t) :
  forall q value min_key max_key,
    collect_level ssts q value min_key max_key <> Unfinished.
Proof.
  induction ssts as [|s ssts IH]; intros q value mn mx; [discriminate|].
  cbn [collect_level]. unfold mbind, result_bind, emplace, begin_key, rbegin_key.
  destruct (data_index_ s) as [|e es]; [discriminate|]. cbn [bind head fmap of_option].
  change (fst <$> Some e) with (Some (fst e)). cbn [of_option bind].
  destruct (last (e :: es)) as [e'|]; [|discriminate].
  change (fst <$> Some e') with (Some (fst e')). cbn [of_option bind]. apply IH.
Qed.

Lemma collect_next_ends (ssts : list SST.t) :
  forall i q value min_key max_key insert_l insert_r,
    collect_next ssts i q value min_key max_key insert_l insert_r <> Unfinished.
Proof.
  induction ssts as [|s ssts IH]; intros i q value mn mx il ir; [discriminate|].
  cbn [collect_next]. unfold mbind, result_bind, emplace, begin_key, rbegin_key.
  destruct (data_index_ s) as [|e es]; [discriminate|]. cbn [head].
  change (fst <$> Some e) with (Some (fst e)). cbn [of_option bind].
  destruct (last (e :: es)) as [e'|]; [|discriminate].
  change (fst <$> Some e') with (Some (fst e')). cbn [of_option bind].
  destruct (String.ltb (fst e') mn); [apply IH|].
  destruct (String.ltb mx (fst e)); [discriminate|]. apply IH.
Qed.

(** X31.  Every compaction reads past the end of a table.
    [SizeTieredCompaction(level, id)] on a level that holds a table does
    not reach the end of its merge loop: the loop advances a cursor off
    the last entry of its table, where [operator++] dereferences the
    [end()] of the table's block index. *)
Theorem SizeTieredCompaction_reads_past_the_end (m : Manifest.t) (level : nat)
    (lv : Level) :
  levels_ m !! level = Some lv -> ssts_ lv <> [] ->
  merge_of_level m level = OutOfBounds.
Proof.
  intros Hlv Hne. unfold merge_of_level. rewrite Hlv.
  unfold mbind, result_bind. cbn [of_option bind].
  pose proof (collect_level_ends (rev (ssts_ lv)) [] 0 "" "") as He1.
  destruct (collect_level (rev (ssts_ lv)) [] 0 "" "")
    as [[[[q1 v1] mn] mx]| |] eqn:Hc1; cbn [bind]; try reflexivity;
    [|contradiction].
  - assert (Hq1 : q1 <> []).
    { eapply collect_level_grows; [exact Hc1|]. left. intros Hnil.
      apply Hne. apply (f_equal (@rev _)) in Hnil. rewrite rev_involutive in Hnil.
      exact Hnil. }
    destruct (ensure_level (levels_ m) level !! S level) as [next|];
      cbn [of_option bind]; [|reflexivity].
    pose proof (collect_next_ends (ssts_ next) 0 q1 v1 mn mx (-1)
                  (Z.of_nat (length (ssts_ next)))) as He2.
    destruct (collect_next (ssts_ next) 0 q1 v1 mn mx (-1) (Z.of_nat (length (ssts_ next))))
      as [[[[q2 v2] il] ir]| |] eqn:Hc2; cbn [bind]; try reflexivity;
      [|contradiction].
    + apply merge_checked_reads_past_the_end; [|lia].
      eapply collect_next_grows; eauto.
Qed.

(** Witness of X31: level 0 of [empty_key_manifest]. *)
Lemma SizeTieredCompaction_reads_past_the_end_witness :
  merge_of_level empty_key_manifest 0 = OutOfBounds.
Proof.
  apply (SizeTieredCompaction_reads_past_the_end empty_key_manifest 0
           (mkLevel 0 [table [("b", "1")] 3 30; table [("", "2")] 4 45])).
  - reflexivity.
  - discriminate.
Defined.

End MergeReads.
